(** * Cantera: VCS equilibrium problem set-up and reaction import

    A shallow embedding of

    - [vcs_solve.cpp]: the tail of the [VCS_SOLVE] constructor, the
      per-phase initial mole fractions, [vcs_prob_specifyFully],
      [vcs_prob_update], [vcs_VolTotal] and [disableTiming];
    - [importKinetics.cpp]: [installReactionArrays] and
      [importKinetics];
    - [base.pyx]: the default name of [_SolutionBase.__init__] and the
      slice of [__getitem__];
    - [State.h]: [setDensity] and the scalar accessors.

    C++ [double] is the kernel's binary64 float, [std::vector] is a list
    indexed with stdpp's lookup and insert, [std::string] is [string] with
    its byte-wise lexicographic order, a thrown [CanteraError] is the
    [Throw] branch of a result type. *)

From Stdlib Require Import ZArith Uint63 Floats Strings.String Strings.Ascii.
From stdpp Require Import base option list strings pretty gmap.

Set Warnings "-inexact-float,-register-all".
Set Default Proof Using "Type".

(** ** importKinetics.cpp *)

Module ImportKinetics.

(** An XML element: its name, its attributes in document order and its
    child elements. *)
Inductive XML_Node : Type :=
| XML_elem (name : string) (attribs : list (string * string))
    (children : list XML_Node).

Definition name (n : XML_Node) : string :=
  match n with XML_elem nm _ _ => nm end.

Definition attribs (n : XML_Node) : list (string * string) :=
  match n with XML_elem _ a _ => a end.

Definition children (n : XML_Node) : list XML_Node :=
  match n with XML_elem _ _ c => c end.

(** [XML_Node::attrib] and [XML_Node::operator[]]: the value of the
    attribute, the empty string when the element does not carry it. *)
Fixpoint attrib_in (a : list (string * string)) (key : string) : string :=
  match a with
  | [] => EmptyString
  | (k, v) :: rest => if String.eqb k key then v else attrib_in rest key
  end.

Definition attrib (n : XML_Node) (key : string) : string :=
  attrib_in (attribs n) key.

(** [XML_Node::getChildren]: the direct children with the given name. *)
Definition getChildren (n : XML_Node) (nm : string) : list XML_Node :=
  List.filter (fun c => String.eqb (name c) nm) (children n).

(** The calls [installReactionArrays] makes on the kinetics manager, in
    order. [addReaction r] stands for [kin.addReaction(newReaction(r))]. *)
Inductive KineticsCall : Type :=
| skipUndeclaredSpecies (b : bool)
| skipUndeclaredThirdBodies (b : bool)
| addReaction (r : XML_Node)
| checkDuplicates
| finalize.

Definition Kinetics : Type := list KineticsCall.

(** [get_XML_Node(rxns["datasrc"], &rxns.root())] is declared in ctml.h,
    outside the sources at hand: the lookup is a parameter. *)
Class XML_Lookup : Type :=
  get_XML_Node : string -> XML_Node -> XML_Node.

(** [a <= b] on [std::string]. *)
Definition str_le (a b : string) : bool := String.leb a b.

(** The bounds of one include directive: [iwild] ([None] is
    [string::npos]), [imin] and [imax] after the wildcard truncation. *)
Definition include_bounds (ii : XML_Node) : option nat * string * string :=
  let imin := attrib ii "min" in
  let imax := attrib ii "max" in
  if String.eqb imax imin then
    match index 0 "*" imin with
    | Some iwild =>
        let imin' := substring 0 iwild imin in
        (Some iwild, imin', imin')
    | None => (None, imin, imax)
    end
  else (None, imin, imax).

(** The test of the inner loop on one reaction node. *)
Definition include_test (b : option nat * string * string) (r : XML_Node)
  : bool :=
  let '(iwild, imin, imax) := b in
  let rxid := attrib r "id" in
  let rxid := match iwild with
              | Some n => substring 0 n rxid
              | None => rxid
              end in
  str_le imin rxid && str_le rxid imax.

(** The loop over [allrxns] for one include directive; [getChildren]
    hands out no null pointer, so the test [if (r)] always passes. *)
Definition include_one (allrxns : list XML_Node) (st : Kinetics * Z)
  (ii : XML_Node) : Kinetics * Z :=
  let b := include_bounds ii in
  fold_left
    (fun (st : Kinetics * Z) (r : XML_Node) =>
       if include_test b r
       then (st.1 ++ [addReaction r], (st.2 + 1)%Z)
       else st)
    allrxns st.

(** The [skip] child of a reactionArray: [hasChild] and [child] pick the
    first child of that name. *)
Definition apply_skip (rxns : XML_Node) (kin : Kinetics) : Kinetics :=
  match getChildren rxns "skip" with
  | [] => kin
  | sk :: _ =>
      let kin :=
        if String.eqb (attrib sk "species") "undeclared"
        then kin ++ [skipUndeclaredSpecies true] else kin in
      if String.eqb (attrib sk "third_bodies") "undeclared"
      then kin ++ [skipUndeclaredThirdBodies true] else kin
  end.

(** The body of the loop over the reactionArray elements. *)
Definition reactionArray_body `{XML_Lookup} (root : XML_Node)
  (st : Kinetics * Z) (rxns : XML_Node) : Kinetics * Z :=
  let rdata := get_XML_Node (attrib rxns "datasrc") root in
  let kin := apply_skip rxns st.1 in
  let incl := getChildren rxns "include" in
  let allrxns := getChildren rdata "reaction" in
  match incl with
  | [] =>
      fold_left
        (fun (st : Kinetics * Z) (r : XML_Node) =>
           (st.1 ++ [addReaction r], (st.2 + 1)%Z))
        allrxns (kin, st.2)
  | _ :: _ => fold_left (include_one allrxns) incl (kin, st.2)
  end.

(** [installReactionArrays(p, kin, default_phase, check_for_duplicates)];
    [root] is [p.root()], the result is the call trace and the returned
    flag. *)
Definition installReactionArrays `{XML_Lookup} (root p : XML_Node)
  (kin : Kinetics) (check_for_duplicates : bool) : Kinetics * bool :=
  let rarrays := getChildren p "reactionArray" in
  match rarrays with
  | [] => (kin ++ [finalize], false)
  | _ :: _ =>
      let st := fold_left (reactionArray_body root) rarrays (kin, 0%Z) in
      let kin := if check_for_duplicates
                 then st.1 ++ [checkDuplicates] else st.1 in
      (kin ++ [finalize], true)
  end.

(** The selection rule in the words of the specification: lexicographic
    order on strings, and truncation at the wildcard position. *)
Definition lex_le (a b : string) : Prop := String.compare a b <> Gt.

Definition truncated_at (pos : option nat) (s : string) : string :=
  match pos with
  | Some n => substring 0 n s
  | None => s
  end.

(** The wildcard position of a directive: the first [*] of [imin], when
    [imin] equals [imax]. *)
Definition wildcard_position (imin imax : string) : option nat :=
  if String.eqb imin imax then index 0 "*" imin else None.

Definition selected_by (ii r : XML_Node) : Prop :=
  let imin := attrib ii "min" in
  let imax := attrib ii "max" in
  let pos := wildcard_position imin imax in
  lex_le (truncated_at pos imin) (truncated_at pos (attrib r "id")) /\
  lex_le (truncated_at pos (attrib r "id")) (truncated_at pos imax).

(** The reactions of the data source that one reactionArray element
    selects. *)
Definition array_selects `{XML_Lookup} (root rxns r : XML_Node) : Prop :=
  In r (getChildren (get_XML_Node (attrib rxns "datasrc") root) "reaction") /\
  (getChildren rxns "include" = [] \/
   exists ii, In ii (getChildren rxns "include") /\ selected_by ii r).

End ImportKinetics.

(** ** vcs_solve.cpp *)

Module Vcs.

Abbreviation double := float (only parsing).

#[global] Instance double_inhabited : Inhabited double := populate 0%float.

(** The comparisons of C++ on [double]; every comparison with a NaN is
    false, except [!=]. *)
Definition dgt (a b : double) : bool := PrimFloat.ltb b a.
Definition dlt (a b : double) : bool := PrimFloat.ltb a b.
Definition deq (a b : double) : bool := PrimFloat.eqb a b.
Definition dne (a b : double) : bool := negb (PrimFloat.eqb a b).
Definition fabs (a : double) : double := PrimFloat.abs a.

(** [std::vector]: [v !!! i] reads [v[i]] and [<[i := x]> v] writes it.
    The source indexes without a check and sizes its vectors to the
    number of species, elements or phases. Out of range the model reads
    the inhabitant (0.0 for a [double]) and writes nothing; a theorem
    that depends on a slot says that the slot exists. *)

(** [(double) n] for a [size_t] below 2^63. *)
Definition double_of_size_t (n : nat) : double :=
  PrimFloat.of_uint63 (Uint63.of_Z (Z.of_nat n)).

(** [a - b] on [size_t]: the difference modulo 2^64. *)
Definition size_t_sub (a b : nat) : nat :=
  Z.to_nat ((Z.of_nat a - Z.of_nat b) mod 2 ^ 64).

(** Modelled from the spec: the macros of vcs_defs.h are outside the
    sources at hand. The unknown of a species is a mole number or the
    interfacial voltage; a tag that is neither of the two is kept as
    [VCS_SPECIES_TYPE_other]. *)
Inductive species_unknown : Type :=
| VCS_SPECIES_TYPE_MOLNUM
| VCS_SPECIES_TYPE_INTERFACIALVOLTAGE
| VCS_SPECIES_TYPE_other (tag : Z).

#[global] Instance species_unknown_eq_dec : EqDecision species_unknown.
Proof. solve_decision. Defined.

#[global] Instance species_unknown_inhabited : Inhabited species_unknown :=
  populate VCS_SPECIES_TYPE_MOLNUM.

(** Modelled from the spec: the type of an element is Normal (an
    absolute, positive abundance), ElectronCharge, ChargeNeutrality or
    LatticeRatio. *)
Inductive elem_type : Type :=
| VCS_ELEM_TYPE_ABSPOS
| VCS_ELEM_TYPE_ELECTRONCHARGE
| VCS_ELEM_TYPE_CHARGENEUTRALITY
| VCS_ELEM_TYPE_LATTICERATIO.

#[global] Instance elem_type_eq_dec : EqDecision elem_type.
Proof. solve_decision. Defined.

#[global] Instance elem_type_inhabited : Inhabited elem_type :=
  populate VCS_ELEM_TYPE_ABSPOS.

(** Modelled from the spec: the existence of a phase is Always, Yes or
    No. *)
Inductive phase_exist : Type :=
| VCS_PHASE_EXIST_ALWAYS
| VCS_PHASE_EXIST_YES
| VCS_PHASE_EXIST_NO.

(** Modelled from the spec: the status of a species is Major, Minor or
    Zeroed. *)
Inductive species_status : Type :=
| VCS_SPECIES_MAJOR
| VCS_SPECIES_MINOR
| VCS_SPECIES_ZEROEDMS.

#[global] Instance species_status_inhabited : Inhabited species_status :=
  populate VCS_SPECIES_MAJOR.

(** What the constructor and the write-back can throw. *)
Inductive CanteraError : Type :=
| Unknown_species_type (t : species_unknown)
| Element_Abundances_not_specified
| PhaseID_bad_value (kspec iph : nat)
| Number_of_species_in_phase_mismatch (iph : nat)
| PhaseID_not_defined
| Charge_neutrality_nonzero (i : nat) (value : double)
| Zero_formula_matrix (i : nat)
| Inconsistency_in_voltage (phi tmp : double)
| Inconsistency_in_mole_fraction (x xphase : double)
| Inconsistency_in_total_moles (sumMoles total : double).

Inductive result (A : Type) : Type :=
| Ok (a : A)
| Throw (e : CanteraError).

Arguments Ok {A} a.
Arguments Throw {A} e.

Definition bind {A B : Type} (m : result A) (f : A -> result B) : result B :=
  match m with
  | Ok a => f a
  | Throw e => Throw e
  end.

Notation "'try' x <- m ; k" := (bind m (fun x => k))
  (at level 10, x name, m at level 100, k at level 200,
   format "'[v' 'try'  x  <-  m ; '/' k ']'").

(** A [for] loop over the indices of [l] whose body may throw. *)
Fixpoint iterM {S : Type} (body : nat -> S -> result S) (l : list nat)
  (s : S) : result S :=
  match l with
  | [] => Ok s
  | i :: l' => try s' <- body i s; iterM body l' s'
  end.

(** A [for] loop [for (i = 0; i < n; i++)] whose body cannot throw. *)
Definition for_loop {S : Type} (n : nat) (body : nat -> S -> S) (s : S) : S :=
  fold_left (fun s i => body i s) (seq 0 n) s.

(** [Array2D]: [M(i,j)], one row per species. *)
Abbreviation Array2D := (list (list double)) (only parsing).

Definition at2 (M : Array2D) (i j : nat) : double := (M !!! i) !!! j.

Definition set2 (M : Array2D) (i j : nat) (v : double) : Array2D :=
  <[i := <[j := v]> (M !!! i)]> M.

(** Modelled from the spec: the phase object of the thermodynamics
    collaborator, as far as the solver queries it. [getChemPotentials T P]
    is the answer of [getChemPotentials] once temperature and pressure
    have been set. *)
Record ThermoPhase : Type := {
  tp_nSpecies : nat;
  tp_electricPotential : double;
  getChemPotentials : double -> double -> list double
}.

#[global] Instance ThermoPhase_inhabited : Inhabited ThermoPhase :=
  populate {| tp_nSpecies := 0; tp_electricPotential := 0%float;
              getChemPotentials := fun _ _ => [] |}.

(** Modelled from the spec: the mixture the solver is built from, with
    its state, its phases and the moles and mole fractions of its
    species in the global order. *)
Record MultiPhase : Type := {
  temperature : double;
  pressure : double;
  volume : double;
  phase : list ThermoPhase;
  speciesMoles : list double;
  moleFraction : list double
}.

(** Modelled from the spec: the class vcs_VolPhase is declared outside the
    sources at hand. The phase state adapter holds the species range of
    the phase, its existence flag, its total and inert moles, its electric
    potential and its mole fractions; the fields carry the names of the
    accessors the solver calls. *)
Record vcs_VolPhase : Type := {
  nSpecies : nat;
  phiVarIndex : option nat;
  exists_ : phase_exist;
  totalMoles : double;
  totalMolesInert : double;
  electricPotential : double;
  moleFractions : list double;
  spGlobalIndexVCS : list nat;
  speciesUnknownType : list species_unknown;
  Temp_ : double;
  Pres_ : double
}.

#[global] Instance vcs_VolPhase_inhabited : Inhabited vcs_VolPhase :=
  populate {| nSpecies := 0; phiVarIndex := None;
              exists_ := VCS_PHASE_EXIST_NO; totalMoles := 0%float;
              totalMolesInert := 0%float; electricPotential := 0%float;
              moleFractions := []; spGlobalIndexVCS := [];
              speciesUnknownType := []; Temp_ := 0%float;
              Pres_ := 0%float |}.

(** Modelled from the spec: the setters of vcs_VolPhase store their
    argument. *)
Definition setExistence (e : phase_exist) (p : vcs_VolPhase) : vcs_VolPhase :=
  {| nSpecies := nSpecies p; phiVarIndex := phiVarIndex p; exists_ := e;
     totalMoles := totalMoles p; totalMolesInert := totalMolesInert p;
     electricPotential := electricPotential p;
     moleFractions := moleFractions p;
     spGlobalIndexVCS := spGlobalIndexVCS p;
     speciesUnknownType := speciesUnknownType p;
     Temp_ := Temp_ p; Pres_ := Pres_ p |}.

Definition setTotalMoles (t : double) (p : vcs_VolPhase) : vcs_VolPhase :=
  {| nSpecies := nSpecies p; phiVarIndex := phiVarIndex p;
     exists_ := exists_ p;
     totalMoles := t; totalMolesInert := totalMolesInert p;
     electricPotential := electricPotential p;
     moleFractions := moleFractions p;
     spGlobalIndexVCS := spGlobalIndexVCS p;
     speciesUnknownType := speciesUnknownType p;
     Temp_ := Temp_ p; Pres_ := Pres_ p |}.

Definition setTotalMolesInert (t : double) (p : vcs_VolPhase)
  : vcs_VolPhase :=
  {| nSpecies := nSpecies p; phiVarIndex := phiVarIndex p;
     exists_ := exists_ p;
     totalMoles := totalMoles p; totalMolesInert := t;
     electricPotential := electricPotential p;
     moleFractions := moleFractions p;
     spGlobalIndexVCS := spGlobalIndexVCS p;
     speciesUnknownType := speciesUnknownType p;
     Temp_ := Temp_ p; Pres_ := Pres_ p |}.

Definition setElectricPotential (phi : double) (p : vcs_VolPhase)
  : vcs_VolPhase :=
  {| nSpecies := nSpecies p; phiVarIndex := phiVarIndex p;
     exists_ := exists_ p;
     totalMoles := totalMoles p; totalMolesInert := totalMolesInert p;
     electricPotential := phi;
     moleFractions := moleFractions p;
     spGlobalIndexVCS := spGlobalIndexVCS p;
     speciesUnknownType := speciesUnknownType p;
     Temp_ := Temp_ p; Pres_ := Pres_ p |}.

Definition setState_TP (temp pres : double) (p : vcs_VolPhase)
  : vcs_VolPhase :=
  {| nSpecies := nSpecies p; phiVarIndex := phiVarIndex p;
     exists_ := exists_ p;
     totalMoles := totalMoles p; totalMolesInert := totalMolesInert p;
     electricPotential := electricPotential p;
     moleFractions := moleFractions p;
     spGlobalIndexVCS := spGlobalIndexVCS p;
     speciesUnknownType := speciesUnknownType p;
     Temp_ := temp; Pres_ := pres |}.

(** [vcs_VolPhase::molefraction(k)]. *)
Definition molefraction (p : vcs_VolPhase) (k : nat) : double :=
  moleFractions p !!! k.


(** *** The per-phase initial moles and mole fractions of the constructor *)

(** The variables the species loop of one phase works on: the public
    vectors [w], [mf] and [SpeciesUnknownType], the running total
    [tMoles] and the global species counter [kT]. *)
Record species_loop : Type := {
  sl_w : list double;
  sl_mf : list double;
  sl_SpeciesUnknownType : list species_unknown;
  tMoles : double;
  kT : nat
}.

(** The body of the species loop, as far as it touches these variables:
    the type of the unknown, the initial mole number or voltage, the mole
    fraction, and the increment of [kT]. The transfer of the thermodynamic
    data of the species in between touches none of them. *)
Definition species_body (mphase : MultiPhase) (tPhase : ThermoPhase)
  (VolPhase : vcs_VolPhase) (k : nat) (st : species_loop)
  : result species_loop :=
  let kT0 := kT st in
  let unk := <[kT0 := speciesUnknownType VolPhase !!! k]>
               (sl_SpeciesUnknownType st) in
  match unk !!! kT0 with
  | VCS_SPECIES_TYPE_MOLNUM =>
      let w' := <[kT0 := speciesMoles mphase !!! kT0]> (sl_w st) in
      Ok {| sl_w := w';
            sl_mf := <[kT0 := moleFraction mphase !!! kT0]> (sl_mf st);
            sl_SpeciesUnknownType := unk;
            tMoles := (tMoles st + w' !!! kT0)%float;
            kT := S kT0 |}
  | VCS_SPECIES_TYPE_INTERFACIALVOLTAGE =>
      Ok {| sl_w := <[kT0 := tp_electricPotential tPhase]> (sl_w st);
            sl_mf := <[kT0 := moleFraction mphase !!! kT0]> (sl_mf st);
            sl_SpeciesUnknownType := unk;
            tMoles := tMoles st;
            kT := S kT0 |}
  | VCS_SPECIES_TYPE_other tag =>
      Throw (Unknown_species_type (VCS_SPECIES_TYPE_other tag))
  end.

Definition set_mf (v : list double) (st : species_loop) : species_loop :=
  {| sl_w := sl_w st; sl_mf := v;
     sl_SpeciesUnknownType := sl_SpeciesUnknownType st;
     tMoles := tMoles st; kT := kT st |}.

(** "Now go back through the species in the phase and assign a valid mole
    fraction". *)
Definition assign_mole_fractions (nSpPhase : nat) (VolPhase : vcs_VolPhase)
  (st : species_loop) : species_loop :=
  if dgt (tMoles st) 0 then
    for_loop nSpPhase
      (fun k st =>
         let kTa := spGlobalIndexVCS VolPhase !!! k in
         set_mf (<[kTa := (sl_w st !!! kTa / tMoles st)%float]> (sl_mf st)) st)
      st
  else
    for_loop nSpPhase
      (fun k st =>
         let kTa := spGlobalIndexVCS VolPhase !!! k in
         set_mf (<[kTa := (1 / double_of_size_t nSpPhase)%float]> (sl_mf st))
           st)
      st.

(** One turn of the loop over the phases, on these variables. [VolPhase]
    is the adapter of the phase with the global species indices that
    [addOnePhaseSpecies] recorded in it. *)
Definition init_phase_moles (mphase : MultiPhase) (tPhase : ThermoPhase)
  (VolPhase : vcs_VolPhase) (st : species_loop) : result species_loop :=
  let nSpPhase := tp_nSpecies tPhase in
  let st0 := {| sl_w := sl_w st; sl_mf := sl_mf st;
                sl_SpeciesUnknownType := sl_SpeciesUnknownType st;
                tMoles := 0; kT := kT st |} in
  try st1 <- iterM (species_body mphase tPhase VolPhase) (seq 0 nSpPhase) st0;
  Ok (assign_mole_fractions nSpPhase VolPhase st1).

(** *** The solver object *)

Record VCS_SOLVE : Type := {
  m_mix : MultiPhase;
  m_nsp : nat;
  m_nelem : nat;
  m_numComponents : nat;
  m_numRxnTot : nat;
  m_numSpeciesRdc : nat;
  m_numRxnRdc : nat;
  m_numRxnMinorZeroed : nat;
  m_numPhases : nat;
  m_doEstimateEquil : Z;
  m_temperature : double;
  m_pressurePA : double;
  m_totalVol : double;
  vcs_debug_print_lvl : Z;
  m_debug_print_lvl : Z;
  m_timing_print_lvl : Z;
  w : list double;
  mf : list double;
  gai : list double;
  m_gibbsSpecies : list double;
  SpeciesUnknownType : list species_unknown;
  PhaseID : list nat;
  FormulaMatrix : Array2D;
  VPhaseList : list vcs_VolPhase;
  TPhInertMoles : list double;
  m_molNumSpecies_old : list double;
  m_feSpecies_old : list double;
  m_elemAbundancesGoal : list double;
  m_PMVolumeSpecies : list double;
  m_speciesUnknownType : list species_unknown;
  m_elType : list elem_type;
  m_formulaMatrix : Array2D;
  m_speciesMapIndex : list nat;
  m_elementMapIndex : list nat;
  m_speciesStatus : list species_status;
  m_phaseID : list nat;
  m_speciesLocalPhaseIndex : list nat;
  m_VolPhaseList : list vcs_VolPhase
}.

(** *** The constructor, from the copy of the species unknown types on *)

(** "Copy the equilibrium mole number estimate if it exists": the new
    [m_molNumSpecies_old] and [m_doEstimateEquil]. *)
Definition copy_estimate (s : VCS_SOLVE) : list double * Z :=
  if bool_decide (length (w s) <> 0) then (w s, m_doEstimateEquil s)
  else (replicate (length (m_molNumSpecies_old s)) 0%float, (-1)%Z).

(** The goal abundances from an explicit [gai]. *)
Definition goal_from_gai (nelem : nat) (elType : list elem_type)
  (gai : list double) (goal : list double) : list double :=
  for_loop nelem
    (fun i goal =>
       let goal := <[i := gai !!! i]> goal in
       if bool_decide (elType !!! i = VCS_ELEM_TYPE_LATTICERATIO)
          && dlt (goal !!! i) 1.0E-10
       then <[i := 0%float]> goal else goal)
    goal.

(** The body of the loop over the species: the running [sum] and the goal
    vector. *)
Definition goal_add_species (unk : list species_unknown) (fm : Array2D)
  (mol : list double) (j kspec : nat) (st : double * list double)
  : double * list double :=
  if bool_decide (unk !!! kspec <> VCS_SPECIES_TYPE_INTERFACIALVOLTAGE) then
    ((st.1 + mol !!! kspec)%float,
     <[j := (st.2 !!! j + at2 fm kspec j * mol !!! kspec)%float]> st.2)
  else st.

(** The body of the loop over the elements; [sum] is declared outside of
    that loop and keeps running from one element to the next. *)
Definition goal_element (nsp : nat) (elType : list elem_type)
  (unk : list species_unknown) (fm : Array2D) (mol : list double)
  (j : nat) (st : double * list double) : double * list double :=
  let st := (st.1, <[j := 0%float]> st.2) in
  let st := for_loop nsp (goal_add_species unk fm mol j) st in
  if bool_decide (elType !!! j = VCS_ELEM_TYPE_LATTICERATIO)
     && dlt (st.2 !!! j) (1.0E-10 * st.1)
  then (st.1, <[j := 0%float]> st.2) else st.

Definition goal_from_estimate (nelem nsp : nat) (elType : list elem_type)
  (unk : list species_unknown) (fm : Array2D) (mol : list double)
  (goal : list double) : list double :=
  (for_loop nelem (goal_element nsp elType unk fm mol) (0%float, goal)).2.

(** "Formulate the Goal Element Abundance Vector". *)
Definition formulate_goal (gai : list double) (nelem nsp : nat)
  (doEstimateEquil : Z) (elType : list elem_type)
  (unk : list species_unknown) (fm : Array2D) (mol : list double)
  (goal : list double) : result (list double) :=
  if bool_decide (length gai <> 0) then
    Ok (goal_from_gai nelem elType gai goal)
  else if (doEstimateEquil =? 0)%Z then
    Ok (goal_from_estimate nelem nsp elType unk fm mol goal)
  else Throw Element_Abundances_not_specified.

(** "Fill in the species to phase mapping. Check for bad values at the
    same time": the counters [numPhSp], [m_phaseID] and
    [m_speciesLocalPhaseIndex]. *)
Definition phase_mapping_species (numPhases : nat) (PhaseID : list nat)
  (kspec : nat) (st : list nat * list nat * list nat)
  : result (list nat * list nat * list nat) :=
  let iph := PhaseID !!! kspec in
  if bool_decide (numPhases <= iph) then Throw (PhaseID_bad_value kspec iph)
  else
    Ok (<[iph := S (st.1.1 !!! iph)]> st.1.1,
        <[kspec := PhaseID !!! kspec]> st.1.2,
        <[kspec := st.1.1 !!! iph]> st.2).

Definition phase_mapping_check (VPhaseList : list vcs_VolPhase) (iph : nat)
  (numPhSp : list nat) : result (list nat) :=
  if bool_decide (numPhSp !!! iph <> nSpecies (VPhaseList !!! iph))
  then Throw (Number_of_species_in_phase_mismatch iph)
  else Ok numPhSp.

Definition phase_mapping (numPhases nsp : nat) (PhaseID : list nat)
  (VPhaseList : list vcs_VolPhase) (phaseID local : list nat)
  : result (list nat * list nat) :=
  if bool_decide (length PhaseID <> 0) then
    try st <- iterM (phase_mapping_species numPhases PhaseID) (seq 0 nsp)
                (replicate numPhases 0, phaseID, local);
    try chk <- iterM (phase_mapping_check VPhaseList) (seq 0 numPhases)
                 st.1.1;
    Ok (st.1.2, st.2)
  else if bool_decide (numPhases = 1) then
    Ok (for_loop nsp
          (fun kspec (st : list nat * list nat) =>
             (<[kspec := 0]> st.1, <[kspec := kspec]> st.2))
          (phaseID, local))
  else Throw PhaseID_not_defined.

(** The check of the charge neutrality elements. *)
Definition charge_neutrality_element (elType : list elem_type) (i : nat)
  (goal : list double) : result (list double) :=
  if bool_decide (elType !!! i = VCS_ELEM_TYPE_CHARGENEUTRALITY) then
    if dne (goal !!! i) 0 then
      if dgt (fabs (goal !!! i)) 1.0E-9
      then Throw (Charge_neutrality_nonzero i (goal !!! i))
      else Ok (<[i := 0%float]> goal)
    else Ok goal
  else Ok goal.

Definition charge_neutrality (nelem : nat) (elType : list elem_type)
  (goal : list double) : result (list double) :=
  iterM (charge_neutrality_element elType) (seq 0 nelem) goal.

(** "Copy the formula matrix over": one row, with its [nonzero] flag. *)
Definition copy_formula_row (nelem : nat) (FormulaMatrix : Array2D)
  (i : nat) (m : Array2D) : result Array2D :=
  let st :=
    for_loop nelem
      (fun j (st : bool * Array2D) =>
         (if dne (at2 FormulaMatrix i j) 0 then true else st.1,
          set2 st.2 i j (at2 FormulaMatrix i j)))
      (false, m) in
  if negb st.1 then Throw (Zero_formula_matrix i) else Ok st.2.

Definition copy_formula_matrix (nsp nelem : nat) (FormulaMatrix : Array2D)
  (m : Array2D) : result Array2D :=
  iterM (copy_formula_row nelem FormulaMatrix) (seq 0 nsp) m.

(** The constructor from "Copy the species unknown type" to the copy of
    the phase information. What follows in the source (the activity
    convention of the species) throws nothing and touches none of the
    members kept here. *)
Definition VCS_SOLVE_finish (s : VCS_SOLVE) : result VCS_SOLVE :=
  let unk := SpeciesUnknownType s in
  let est := copy_estimate s in
  try goal <- formulate_goal (gai s) (m_nelem s) (m_nsp s) est.2
                (m_elType s) unk (m_formulaMatrix s) est.1
                (m_elemAbundancesGoal s);
  let inert :=
    for_loop (m_numPhases s)
      (fun iph v => <[iph := totalMolesInert (VPhaseList s !!! iph)]> v)
      (TPhInertMoles s) in
  let spmap :=
    for_loop (m_nsp s) (fun i v => <[i := i]> v) (m_speciesMapIndex s) in
  let elmap :=
    for_loop (m_nelem s) (fun i v => <[i := i]> v) (m_elementMapIndex s) in
  let status :=
    for_loop (m_nsp s) (fun i v => <[i := VCS_SPECIES_MAJOR]> v)
      (m_speciesStatus s) in
  try pm <- phase_mapping (m_numPhases s) (m_nsp s) (PhaseID s)
              (VPhaseList s) (m_phaseID s) (m_speciesLocalPhaseIndex s);
  try goal' <- charge_neutrality (m_nelem s) (m_elType s) goal;
  try fm <- copy_formula_matrix (m_nsp s) (m_nelem s) (FormulaMatrix s)
              (m_formulaMatrix s);
  let vpl :=
    for_loop (m_numPhases s) (fun iph v => <[iph := VPhaseList s !!! iph]> v)
      (m_VolPhaseList s) in
  Ok {| m_mix := m_mix s; m_nsp := m_nsp s; m_nelem := m_nelem s;
        m_numComponents := m_numComponents s;
        m_numRxnTot := m_numRxnTot s;
        m_numSpeciesRdc := m_numSpeciesRdc s;
        m_numRxnRdc := m_numRxnRdc s;
        m_numRxnMinorZeroed := m_numRxnMinorZeroed s;
        m_numPhases := m_numPhases s; m_doEstimateEquil := est.2;
        m_temperature := m_temperature s; m_pressurePA := m_pressurePA s;
        m_totalVol := m_totalVol s;
        vcs_debug_print_lvl := vcs_debug_print_lvl s;
        m_debug_print_lvl := m_debug_print_lvl s;
        m_timing_print_lvl := m_timing_print_lvl s; w := w s; mf := mf s;
        gai := gai s; m_gibbsSpecies := m_gibbsSpecies s;
        SpeciesUnknownType := SpeciesUnknownType s; PhaseID := PhaseID s;
        FormulaMatrix := FormulaMatrix s; VPhaseList := VPhaseList s;
        TPhInertMoles := inert; m_molNumSpecies_old := est.1;
        m_feSpecies_old := m_feSpecies_old s;
        m_elemAbundancesGoal := goal';
        m_PMVolumeSpecies := m_PMVolumeSpecies s;
        m_speciesUnknownType := unk; m_elType := m_elType s;
        m_formulaMatrix := fm; m_speciesMapIndex := spmap;
        m_elementMapIndex := elmap; m_speciesStatus := status;
        m_phaseID := pm.1; m_speciesLocalPhaseIndex := pm.2;
        m_VolPhaseList := vpl |}.


(** *** vcs_prob_specifyFully *)

Definition VCS_SUCCESS : Z := 0.

(** The existence of a phase of [nSpPhase] species. *)
Definition specify_existence (nSpPhase : nat) (volPhase : vcs_VolPhase)
  : vcs_VolPhase :=
  if (nSpPhase =? 1) && bool_decide (phiVarIndex volPhase = Some 0) then
    setExistence VCS_PHASE_EXIST_ALWAYS volPhase
  else if dgt (totalMoles volPhase) 0 then
    setExistence VCS_PHASE_EXIST_YES volPhase
  else
    setExistence VCS_PHASE_EXIST_NO volPhase.

(** One turn of the loop over the phases: the species counter [kT], the
    public chemical potentials and the public phase list. *)
Definition specify_phase (mix : MultiPhase) (temp pres : double)
  (invSpecies : list nat) (iphase : nat)
  (st : nat * list double * list vcs_VolPhase)
  : nat * list double * list vcs_VolPhase :=
  let tPhase := phase mix !!! iphase in
  let volPhase := setState_TP temp pres (st.2 !!! iphase) in
  let muPhase := getChemPotentials tPhase temp pres in
  let nSpPhase := tp_nSpecies tPhase in
  let sp :=
    for_loop nSpPhase
      (fun k (sp : nat * list double) =>
         (S sp.1, <[invSpecies !!! sp.1 := muPhase !!! k]> sp.2))
      (st.1.1, st.1.2) in
  (sp.1, sp.2, <[iphase := specify_existence nSpPhase volPhase]> st.2).

Definition vcs_prob_specifyFully (s : VCS_SOLVE) : Z * VCS_SOLVE :=
  let temp := temperature (m_mix s) in
  let pres := pressure (m_mix s) in
  let vol := volume (m_mix s) in
  let invSpecies :=
    for_loop (m_nsp s)
      (fun k inv => <[m_speciesMapIndex s !!! k := k]> inv)
      (replicate (m_nsp s) 0) in
  let st :=
    for_loop (m_numPhases s) (specify_phase (m_mix s) temp pres invSpecies)
      (0, m_gibbsSpecies s, VPhaseList s) in
  let numRxnTot :=
    if bool_decide (m_nsp s < m_nelem s) then 0
    else size_t_sub (m_nsp s) (m_nelem s) in
  (VCS_SUCCESS,
   {| m_mix := m_mix s; m_nsp := m_nsp s; m_nelem := m_nelem s;
      m_numComponents := m_numComponents s; m_numRxnTot := numRxnTot;
      m_numSpeciesRdc := m_nsp s; m_numRxnRdc := numRxnTot;
      m_numRxnMinorZeroed := 0; m_numPhases := m_numPhases s;
      m_doEstimateEquil := m_doEstimateEquil s; m_temperature := temp;
      m_pressurePA := pres; m_totalVol := vol;
      vcs_debug_print_lvl := vcs_debug_print_lvl s;
      m_debug_print_lvl := vcs_debug_print_lvl s;
      m_timing_print_lvl := m_timing_print_lvl s; w := w s; mf := mf s;
      gai := gai s; m_gibbsSpecies := st.1.2;
      SpeciesUnknownType := SpeciesUnknownType s; PhaseID := PhaseID s;
      FormulaMatrix := FormulaMatrix s; VPhaseList := st.2;
      TPhInertMoles := TPhInertMoles s;
      m_molNumSpecies_old := m_molNumSpecies_old s;
      m_feSpecies_old := m_feSpecies_old s;
      m_elemAbundancesGoal := m_elemAbundancesGoal s;
      m_PMVolumeSpecies := m_PMVolumeSpecies s;
      m_speciesUnknownType := m_speciesUnknownType s;
      m_elType := m_elType s; m_formulaMatrix := m_formulaMatrix s;
      m_speciesMapIndex := m_speciesMapIndex s;
      m_elementMapIndex := m_elementMapIndex s;
      m_speciesStatus := m_speciesStatus s; m_phaseID := m_phaseID s;
      m_speciesLocalPhaseIndex := m_speciesLocalPhaseIndex s;
      m_VolPhaseList := m_VolPhaseList s |}).

(** *** vcs_prob_update *)

(** Modelled from the spec: the macros VCS_STATECALC of vcs_defs.h, which
    name the state the mole numbers of a phase belong to. *)
Inductive state_calc : Type :=
| VCS_STATECALC_OLD
| VCS_STATECALC_NEW
| VCS_STATECALC_TMP.

(** Members defined outside the sources at hand, taken as parameters:
    [vcs_doubleEqual] (vcs_util.cpp), [VCS_SOLVE::vcs_tmoles], and the
    methods of vcs_VolPhase that do more than store their argument.
    [sendToVCS_VolPM] returns the volume of the phase and the buffer it
    filled in. *)
Class Externals : Type := {
  vcs_doubleEqual : double -> double -> bool;
  vcs_tmoles : VCS_SOLVE -> VCS_SOLVE;
  setMolesFromVCS : state_calc -> list double -> vcs_VolPhase -> vcs_VolPhase;
  sendToVCS_VolPM :
    vcs_VolPhase -> list double -> double * list double * vcs_VolPhase;
  setMoleFractionsState :
    double -> list double -> state_calc -> vcs_VolPhase -> vcs_VolPhase
}.

(** [vcs_VolTotal(tkelvin, pres, w, volPM)]: the total volume, the partial
    molar volumes and the private phases. *)
Definition vcs_VolTotal `{Externals} (numPhases : nat) (tkelvin pres : double)
  (w : list double) (volPM : list double) (phases : list vcs_VolPhase)
  : double * list double * list vcs_VolPhase :=
  for_loop numPhases
    (fun iphase (st : double * list double * list vcs_VolPhase) =>
       let Vphase := setState_TP tkelvin pres (st.2 !!! iphase) in
       let Vphase := setMolesFromVCS VCS_STATECALC_OLD w Vphase in
       let r := sendToVCS_VolPM Vphase st.1.2 in
       ((st.1.1 + r.1.1)%float, r.1.2, <[iphase := r.2]> st.2))
    (0%float, volPM, phases).

(** "Find the index of I in the index vector": [k1] is the [j] of the
    [break], or the last [j] visited. *)
Fixpoint search_k1 (speciesMapIndex : list nat) (i : nat) (js : list nat)
  (k1 : nat) : nat :=
  match js with
  | [] => k1
  | j :: js' =>
      if bool_decide (speciesMapIndex !!! j = i) then j
      else search_k1 speciesMapIndex i js' j
  end.

(** "Switch the species data back from K1 into I": [k1], [w] and
    [m_gibbsSpecies]. *)
Definition writeback_species (s : VCS_SOLVE) (i : nat)
  (st : nat * list double * list double) : nat * list double * list double :=
  let k1 := search_k1 (m_speciesMapIndex s) i (seq 0 (m_nsp s)) st.1.1 in
  let w' :=
    if bool_decide
         (SpeciesUnknownType s !!! i <> VCS_SPECIES_TYPE_INTERFACIALVOLTAGE)
    then <[i := m_molNumSpecies_old s !!! k1]> st.1.2
    else <[i := 0%float]> st.1.2 in
  (k1, w', <[i := m_feSpecies_old s !!! k1]> st.2).

(** The body of the loop over the species of a phase: [mf] and
    [sumMoles]. *)
Definition update_species `{Externals} (pubPhase vPhase : vcs_VolPhase)
  (molNumSpecies_old w : list double) (k : nat) (st : list double * double)
  : result (list double * double) :=
  let kT := spGlobalIndexVCS pubPhase !!! k in
  let mf' := <[kT := moleFractions pubPhase !!! k]> st.1 in
  try voltage <-
    (if bool_decide (phiVarIndex pubPhase = Some k) then
       let k1 := spGlobalIndexVCS vPhase !!! k in
       let tmp := molNumSpecies_old !!! k1 in
       if negb (vcs_doubleEqual (electricPotential pubPhase) tmp)
       then Throw (Inconsistency_in_voltage (electricPotential pubPhase) tmp)
       else Ok tt
     else Ok tt);
  if negb (vcs_doubleEqual (mf' !!! kT) (molefraction vPhase k)) then
    Throw (Inconsistency_in_mole_fraction (mf' !!! kT) (molefraction vPhase k))
  else
    Ok (mf',
        if bool_decide
             (speciesUnknownType pubPhase !!! k
              <> VCS_SPECIES_TYPE_INTERFACIALVOLTAGE)
        then (st.2 + w !!! kT)%float else st.2).

(** The transfer of the totals and of the potential of the private phase
    into the public one. *)
Definition transfer_totals (pubPhase vPhase : vcs_VolPhase) : vcs_VolPhase :=
  let pubPhase := setTotalMolesInert (totalMolesInert vPhase) pubPhase in
  let pubPhase := setTotalMoles (totalMoles vPhase) pubPhase in
  setElectricPotential (electricPotential vPhase) pubPhase.

(** The public phase as the loop over its species sees it. *)
Definition update_pubPhase `{Externals} (pubPhase vPhase : vcs_VolPhase)
  : vcs_VolPhase :=
  setMoleFractionsState (totalMoles vPhase) (moleFractions vPhase)
    VCS_STATECALC_TMP (transfer_totals pubPhase vPhase).

(** The body of the loop over the phases: [mf] and the public phase
    list. *)
Definition update_phase `{Externals} (molNumSpecies_old w : list double)
  (VolPhaseList : list vcs_VolPhase) (iph : nat)
  (st : list double * list vcs_VolPhase)
  : result (list double * list vcs_VolPhase) :=
  let vPhase := VolPhaseList !!! iph in
  let sumMoles := totalMolesInert (transfer_totals (st.2 !!! iph) vPhase) in
  let pubPhase := update_pubPhase (st.2 !!! iph) vPhase in
  try r <- iterM (update_species pubPhase vPhase molNumSpecies_old w)
             (seq 0 (nSpecies pubPhase)) (st.1, sumMoles);
  if negb (vcs_doubleEqual r.2 (totalMoles vPhase)) then
    Throw (Inconsistency_in_total_moles r.2 (totalMoles pubPhase))
  else Ok (r.1, <[iph := pubPhase]> st.2).

Definition vcs_prob_update `{Externals} (s0 : VCS_SOLVE)
  : result (Z * VCS_SOLVE) :=
  let s := vcs_tmoles s0 in
  let vt :=
    vcs_VolTotal (m_numPhases s) (m_temperature s) (m_pressurePA s)
      (m_molNumSpecies_old s) (m_PMVolumeSpecies s) (m_VolPhaseList s) in
  let sp :=
    for_loop (m_nsp s) (writeback_species s) (0, w s, m_gibbsSpecies s) in
  try r <- iterM (update_phase (m_molNumSpecies_old s) sp.1.2 vt.2)
             (seq 0 (m_numPhases s)) (mf s, VPhaseList s);
  Ok (VCS_SUCCESS,
      {| m_mix := m_mix s; m_nsp := m_nsp s; m_nelem := m_nelem s;
         m_numComponents := m_numComponents s;
         m_numRxnTot := m_numRxnTot s;
         m_numSpeciesRdc := m_numSpeciesRdc s;
         m_numRxnRdc := m_numRxnRdc s;
         m_numRxnMinorZeroed := m_numRxnMinorZeroed s;
         m_numPhases := m_numPhases s;
         m_doEstimateEquil := m_doEstimateEquil s;
         m_temperature := m_temperature s; m_pressurePA := m_pressurePA s;
         m_totalVol := vt.1.1;
         vcs_debug_print_lvl := vcs_debug_print_lvl s;
         m_debug_print_lvl := m_debug_print_lvl s;
         m_timing_print_lvl := m_timing_print_lvl s; w := sp.1.2;
         mf := r.1; gai := gai s; m_gibbsSpecies := sp.2;
         SpeciesUnknownType := SpeciesUnknownType s; PhaseID := PhaseID s;
         FormulaMatrix := FormulaMatrix s; VPhaseList := r.2;
         TPhInertMoles := TPhInertMoles s;
         m_molNumSpecies_old := m_molNumSpecies_old s;
         m_feSpecies_old := m_feSpecies_old s;
         m_elemAbundancesGoal := m_elemAbundancesGoal s;
         m_PMVolumeSpecies := vt.1.2;
         m_speciesUnknownType := m_speciesUnknownType s;
         m_elType := m_elType s; m_formulaMatrix := m_formulaMatrix s;
         m_speciesMapIndex := m_speciesMapIndex s;
         m_elementMapIndex := m_elementMapIndex s;
         m_speciesStatus := m_speciesStatus s; m_phaseID := m_phaseID s;
         m_speciesLocalPhaseIndex := m_speciesLocalPhaseIndex s;
         m_VolPhaseList := vt.2 |}).

(** *** The timing switch *)

(** The process: the global [vcs_timing_print_lvl] and the solver objects
    alive. *)
Record Process : Type := {
  vcs_timing_print_lvl : Z;
  solvers : list VCS_SOLVE
}.

Definition process_start : Process :=
  {| vcs_timing_print_lvl := 1; solvers := [] |}.

Definition disableTiming (p : Process) : Process :=
  {| vcs_timing_print_lvl := 0; solvers := solvers p |}.

(** The member initialiser [m_timing_print_lvl(1)] and the test of the
    global in the body of the constructor. *)
Definition set_timing_print_lvl (global_lvl : Z) (s : VCS_SOLVE)
  : VCS_SOLVE :=
  let lvl := if (global_lvl =? 0)%Z then 0%Z else 1%Z in
  {| m_mix := m_mix s; m_nsp := m_nsp s; m_nelem := m_nelem s;
     m_numComponents := m_numComponents s; m_numRxnTot := m_numRxnTot s;
     m_numSpeciesRdc := m_numSpeciesRdc s; m_numRxnRdc := m_numRxnRdc s;
     m_numRxnMinorZeroed := m_numRxnMinorZeroed s;
     m_numPhases := m_numPhases s;
     m_doEstimateEquil := m_doEstimateEquil s;
     m_temperature := m_temperature s; m_pressurePA := m_pressurePA s;
     m_totalVol := m_totalVol s;
     vcs_debug_print_lvl := vcs_debug_print_lvl s;
     m_debug_print_lvl := m_debug_print_lvl s; m_timing_print_lvl := lvl;
     w := w s; mf := mf s; gai := gai s;
     m_gibbsSpecies := m_gibbsSpecies s;
     SpeciesUnknownType := SpeciesUnknownType s; PhaseID := PhaseID s;
     FormulaMatrix := FormulaMatrix s; VPhaseList := VPhaseList s;
     TPhInertMoles := TPhInertMoles s;
     m_molNumSpecies_old := m_molNumSpecies_old s;
     m_feSpecies_old := m_feSpecies_old s;
     m_elemAbundancesGoal := m_elemAbundancesGoal s;
     m_PMVolumeSpecies := m_PMVolumeSpecies s;
     m_speciesUnknownType := m_speciesUnknownType s;
     m_elType := m_elType s; m_formulaMatrix := m_formulaMatrix s;
     m_speciesMapIndex := m_speciesMapIndex s;
     m_elementMapIndex := m_elementMapIndex s;
     m_speciesStatus := m_speciesStatus s; m_phaseID := m_phaseID s;
     m_speciesLocalPhaseIndex := m_speciesLocalPhaseIndex s;
     m_VolPhaseList := m_VolPhaseList s |}.

(** A construction in the process: [pre] holds the members as the loop
    over the phases left them; the object joins the solvers when the
    constructor does not throw. *)
Definition construct (pre : VCS_SOLVE) (p : Process) : Process :=
  match VCS_SOLVE_finish (set_timing_print_lvl (vcs_timing_print_lvl p) pre)
  with
  | Ok s => {| vcs_timing_print_lvl := vcs_timing_print_lvl p;
               solvers := solvers p ++ [s] |}
  | Throw _ => p
  end.

(** What a client of the class does in the process. *)
Inductive call : Type :=
| call_construct (pre : VCS_SOLVE)
| call_disableTiming
| call_vcs_prob_specifyFully (i : nat).

Definition run_call (p : Process) (c : call) : Process :=
  match c with
  | call_construct pre => construct pre p
  | call_disableTiming => disableTiming p
  | call_vcs_prob_specifyFully i =>
      match solvers p !! i with
      | Some s =>
          {| vcs_timing_print_lvl := vcs_timing_print_lvl p;
             solvers := <[i := (vcs_prob_specifyFully s).2]> (solvers p) |}
      | None => p
      end
  end.

Definition run (cs : list call) (p : Process) : Process :=
  fold_left run_call cs p.

(** *** The words of the specification *)

(** "Sums formulaMatrix[k,:] * moleNumber[k] over all non-voltage
    species": the species in increasing order, starting from 0. *)
Definition abundance_sum (nsp : nat) (unk : list species_unknown)
  (fm : Array2D) (mol : list double) (e : nat) : double :=
  fold_left
    (fun acc k => (acc + at2 fm k e * mol !!! k)%float)
    (List.filter
       (fun k =>
          bool_decide (unk !!! k <> VCS_SPECIES_TYPE_INTERFACIALVOLTAGE))
       (seq 0 nsp))
    0%float.

(** The three cross-checks of the write-back on species [k] of a phase,
    and on the phase. *)
Definition mole_fraction_consistent `{Externals} (pubPhase vPhase : vcs_VolPhase)
  (k : nat) : Prop :=
  vcs_doubleEqual (moleFractions pubPhase !!! k) (molefraction vPhase k)
  = true.

Definition voltage_consistent `{Externals} (pubPhase vPhase : vcs_VolPhase)
  (molNumSpecies_old : list double) (k : nat) : Prop :=
  phiVarIndex pubPhase = Some k ->
  vcs_doubleEqual (electricPotential pubPhase)
    (molNumSpecies_old !!! (spGlobalIndexVCS vPhase !!! k)) = true.

Definition sum_of_moles (inert : double) (pubPhase : vcs_VolPhase)
  (w : list double) : double :=
  fold_left
    (fun acc k => (acc + w !!! (spGlobalIndexVCS pubPhase !!! k))%float)
    (List.filter
       (fun k =>
          bool_decide (speciesUnknownType pubPhase !!! k
                       <> VCS_SPECIES_TYPE_INTERFACIALVOLTAGE))
       (seq 0 (nSpecies pubPhase)))
    inert.

Definition total_moles_consistent `{Externals} (pubPhase vPhase : vcs_VolPhase)
  (w : list double) : Prop :=
  vcs_doubleEqual (sum_of_moles (totalMolesInert vPhase) pubPhase w)
    (totalMoles vPhase) = true.

(** The consistency of the public phase [pubPhase] with the private
    phase [vPhase]: the three cross-checks hold. *)
Definition phase_consistent `{Externals} (pubPhase vPhase : vcs_VolPhase)
  (molNumSpecies_old w : list double) : Prop :=
  (forall k, k < nSpecies pubPhase ->
     mole_fraction_consistent pubPhase vPhase k /\
     voltage_consistent pubPhase vPhase molNumSpecies_old k) /\
  total_moles_consistent pubPhase vPhase w.

(** The three errors of the cross-checks. *)
Definition is_inconsistency (e : CanteraError) : Prop :=
  match e with
  | Inconsistency_in_voltage _ _
  | Inconsistency_in_mole_fraction _ _
  | Inconsistency_in_total_moles _ _ => True
  | _ => False
  end.

(** The values [vcs_prob_update] works with, on the solver [s] as
    [vcs_tmoles] left it: the public mole numbers after the loop over the
    species, the private phases after [vcs_VolTotal], and the public
    phase [iph] after the transfer from the private one. *)
Definition written_back_w (s : VCS_SOLVE) : list double :=
  (for_loop (m_nsp s) (writeback_species s) (0, w s, m_gibbsSpecies s)).1.2.

Definition private_phases `{Externals} (s : VCS_SOLVE) : list vcs_VolPhase :=
  (vcs_VolTotal (m_numPhases s) (m_temperature s) (m_pressurePA s)
     (m_molNumSpecies_old s) (m_PMVolumeSpecies s) (m_VolPhaseList s)).2.

Definition public_phase `{Externals} (s : VCS_SOLVE) (iph : nat)
  : vcs_VolPhase :=
  update_pubPhase (VPhaseList s !!! iph) (private_phases s !!! iph).

(** *** The invariants of the loops *)

(** The invariant of the charge neutrality loop after [i] turns. *)
Definition charge_neutrality_inv (elType : list elem_type)
  (goal0 : list double) (i : nat) (goal : list double) : Prop :=
  length goal = length goal0 /\
  (forall j, i <= j -> goal !!! j = goal0 !!! j) /\
  (forall j, j < i -> elType !!! j = VCS_ELEM_TYPE_CHARGENEUTRALITY ->
             deq (goal !!! j) 0 = true /\
             (dne (goal0 !!! j) 0 = true -> goal !!! j = 0%float)).

Definition non_voltage (unk : list species_unknown) (k : nat) : bool :=
  bool_decide (unk !!! k <> VCS_SPECIES_TYPE_INTERFACIALVOLTAGE).

(** The invariant of the loop over the elements after [i] turns. *)
Definition goal_inv (nsp : nat) (elType : list elem_type)
  (unk : list species_unknown) (fm : Array2D) (mol : list double)
  (goal0 : list double) (i : nat) (st : double * list double) : Prop :=
  length st.2 = length goal0 /\
  forall j, j < i -> j < length goal0 ->
    (elType !!! j <> VCS_ELEM_TYPE_LATTICERATIO ->
     st.2 !!! j = abundance_sum nsp unk fm mol j) /\
    (st.2 !!! j = abundance_sum nsp unk fm mol j \/
     elType !!! j = VCS_ELEM_TYPE_LATTICERATIO /\ st.2 !!! j = 0%float).


(** The value the loop over the species leaves in [w[i]]. *)
Definition written_back (s : VCS_SOLVE) (i k1 : nat) : double :=
  if bool_decide
       (SpeciesUnknownType s !!! i <> VCS_SPECIES_TYPE_INTERFACIALVOLTAGE)
  then m_molNumSpecies_old s !!! k1 else 0%float.

Definition non_voltage_in (pubPhase : vcs_VolPhase) (k : nat) : bool :=
  bool_decide (speciesUnknownType pubPhase !!! k
               <> VCS_SPECIES_TYPE_INTERFACIALVOLTAGE).

(** The invariant of the loop over the species after [i] turns. *)
Definition update_species_inv `{Externals} (pubPhase vPhase : vcs_VolPhase)
  (mol w : list double) (st0 : list double * double) (i : nat)
  (st : list double * double) : Prop :=
  length st.1 = length st0.1 /\
  st.2 = fold_left
           (fun acc k =>
              (acc + w !!! (spGlobalIndexVCS pubPhase !!! k))%float)
           (List.filter (non_voltage_in pubPhase) (seq 0 i)) st0.2 /\
  forall k, k < i ->
    mole_fraction_consistent pubPhase vPhase k /\
    voltage_consistent pubPhase vPhase mol k.

(** The invariant of the loop over the phases after [i] turns. *)
Definition update_phase_inv `{Externals} (mol w : list double)
  (VolPhaseList : list vcs_VolPhase) (st0 : list double * list vcs_VolPhase)
  (i : nat) (st : list double * list vcs_VolPhase) : Prop :=
  length st.1 = length st0.1 /\
  length st.2 = length st0.2 /\
  (forall j, i <= j -> st.2 !!! j = st0.2 !!! j) /\
  (forall j, j < i -> j < length st0.2 ->
     st.2 !!! j = update_pubPhase (st0.2 !!! j) (VolPhaseList !!! j)) /\
  forall j, j < i ->
    phase_consistent (update_pubPhase (st0.2 !!! j) (VolPhaseList !!! j))
      (VolPhaseList !!! j) mol w.

(** What holds of a process [q] reached from [disableTiming p]. *)
Definition timing_inv (p q : Process) : Prop :=
  vcs_timing_print_lvl q = 0%Z /\
  length (solvers p) <= length (solvers q) /\
  (forall i s, length (solvers p) <= i -> solvers q !! i = Some s ->
               m_timing_print_lvl s = 0%Z) /\
  (forall i s, solvers p !! i = Some s ->
               exists s', solvers q !! i = Some s' /\
                          m_timing_print_lvl s' = m_timing_print_lvl s).

(** The invariant of the copy of the formula matrix: [m'] has the shape
    of [m], holds the entries of [FM] where [done] says so and where [m]
    has a slot, and the entries of [m] elsewhere. *)
Definition copy_inv (FM m : Array2D) (done : nat -> nat -> Prop)
  (m' : Array2D) : Prop :=
  length m' = length m /\
  (forall i, length (m' !!! i) = length (m !!! i)) /\
  (forall i j, i < length m -> j < length (m !!! i) -> done i j ->
               at2 m' i j = at2 FM i j) /\
  (forall i j, ~ done i j -> at2 m' i j = at2 m i j).

End Vcs.

(** ** Example data *)

Module Examples.
Import ImportKinetics Vcs.
#[local] Open Scope string_scope.

(** A mechanism file: a phase whose reactionArray includes the ids
    between "1" and "5", and a data source of five reactions. *)
Definition rxn (id : string) : XML_Node :=
  XML_elem "reaction" [("id", id)] [].

Definition include (imin imax : string) : XML_Node :=
  XML_elem "include" [("min", imin); ("max", imax)] [].

Definition reactionData : XML_Node :=
  XML_elem "reactionData" [("id", "reaction_data")]
    [rxn "1"; rxn "2"; rxn "7"; rxn "10"; rxn "surf_1"].

Definition reactionArray (incl : list XML_Node) : XML_Node :=
  XML_elem "reactionArray" [("datasrc", "#reaction_data")]
    (XML_elem "skip" [("species", "undeclared")] [] :: incl).

Definition phase_node (incl : list XML_Node) : XML_Node :=
  XML_elem "phase" [("id", "gas")] [reactionArray incl].

Definition ctml (incl : list XML_Node) : XML_Node :=
  XML_elem "ctml" [] [phase_node incl; reactionData].

(** The data source is the reactionData child of the root. *)
Definition example_lookup : XML_Lookup :=
  fun _ root => hd root (getChildren root "reactionData").

(** A gas of two species and a metal whose single species carries the
    voltage unknown; the elements are H and a charge neutrality
    constraint. *)
Definition gas_tp : ThermoPhase :=
  {| tp_nSpecies := 2; tp_electricPotential := 0%float;
     getChemPotentials := fun _ _ => [(-1.5)%float; (-0.5)%float] |}.

Definition metal_tp : ThermoPhase :=
  {| tp_nSpecies := 1; tp_electricPotential := 0.25%float;
     getChemPotentials := fun _ _ => [(-2)%float] |}.

Definition mixture : MultiPhase :=
  {| temperature := 300%float; pressure := 101325%float;
     volume := 1%float; phase := [gas_tp; metal_tp];
     speciesMoles := [1%float; 0.5%float; 0%float];
     moleFraction := [0.75%float; 0.25%float; 1%float] |}.

Definition gas_vp : vcs_VolPhase :=
  {| nSpecies := 2; phiVarIndex := None; exists_ := VCS_PHASE_EXIST_NO;
     totalMoles := 1.5%float; totalMolesInert := 0%float;
     electricPotential := 0%float;
     moleFractions := [0.75%float; 0.25%float];
     spGlobalIndexVCS := [0; 1];
     speciesUnknownType :=
       [VCS_SPECIES_TYPE_MOLNUM; VCS_SPECIES_TYPE_MOLNUM];
     Temp_ := 300%float; Pres_ := 101325%float |}.

Definition metal_vp : vcs_VolPhase :=
  {| nSpecies := 1; phiVarIndex := Some 0; exists_ := VCS_PHASE_EXIST_NO;
     totalMoles := 0%float; totalMolesInert := 0%float;
     electricPotential := 0.25%float;
     moleFractions := [1%float];
     spGlobalIndexVCS := [2];
     speciesUnknownType := [VCS_SPECIES_TYPE_INTERFACIALVOLTAGE];
     Temp_ := 300%float; Pres_ := 101325%float |}.

(** The species loop of the gas phase starts from empty vectors. *)
Definition species_loop_start : species_loop :=
  {| sl_w := [0%float; 0%float; 0%float];
     sl_mf := [0%float; 0%float; 0%float];
     sl_SpeciesUnknownType :=
       [VCS_SPECIES_TYPE_MOLNUM; VCS_SPECIES_TYPE_MOLNUM;
        VCS_SPECIES_TYPE_MOLNUM];
     tMoles := 0%float; kT := 0 |}.

(** The members as the loop over the phases leaves them; [gai] holds a
    residual of 1.0E-12 for the charge neutrality constraint. *)
Definition solver_pre : VCS_SOLVE :=
  {| m_mix := mixture;
     m_nsp := 3; m_nelem := 2; m_numComponents := 0; m_numRxnTot := 0;
     m_numSpeciesRdc := 0; m_numRxnRdc := 0; m_numRxnMinorZeroed := 0;
     m_numPhases := 2; m_doEstimateEquil := (-1)%Z;
     m_temperature := 300%float; m_pressurePA := 101325%float;
     m_totalVol := 1%float;
     vcs_debug_print_lvl := 0%Z; m_debug_print_lvl := 0%Z;
     m_timing_print_lvl := 1%Z;
     w := [1%float; 0.5%float; 0.25%float];
     mf := [0.75%float; 0.25%float; 1%float];
     gai := [2.5%float; 1.0E-12%float];
     m_gibbsSpecies := [0%float; 0%float; 0%float];
     SpeciesUnknownType :=
       [VCS_SPECIES_TYPE_MOLNUM; VCS_SPECIES_TYPE_MOLNUM;
        VCS_SPECIES_TYPE_INTERFACIALVOLTAGE];
     PhaseID := [0; 0; 1];
     FormulaMatrix :=
       [[2%float; 0%float]; [1%float; 0%float]; [0%float; (-1)%float]];
     VPhaseList := [gas_vp; metal_vp];
     TPhInertMoles := [0%float; 0%float];
     m_molNumSpecies_old := [0%float; 0%float; 0%float];
     m_feSpecies_old := [(-1.5)%float; (-0.5)%float; (-2)%float];
     m_elemAbundancesGoal := [0%float; 0%float];
     m_PMVolumeSpecies := [0%float; 0%float; 0%float];
     m_speciesUnknownType :=
       [VCS_SPECIES_TYPE_MOLNUM; VCS_SPECIES_TYPE_MOLNUM;
        VCS_SPECIES_TYPE_MOLNUM];
     m_elType := [VCS_ELEM_TYPE_ABSPOS; VCS_ELEM_TYPE_CHARGENEUTRALITY];
     m_formulaMatrix :=
       [[0%float; 0%float]; [0%float; 0%float]; [0%float; 0%float]];
     m_speciesMapIndex := [0; 0; 0]; m_elementMapIndex := [0; 0];
     m_speciesStatus :=
       [VCS_SPECIES_MINOR; VCS_SPECIES_MINOR; VCS_SPECIES_MINOR];
     m_phaseID := [0; 0; 0]; m_speciesLocalPhaseIndex := [0; 0; 0];
     m_VolPhaseList := [metal_vp; metal_vp] |}.

(** The solver the constructor builds from [solver_pre]. *)
Definition solver : VCS_SOLVE :=
  Eval vm_compute in
    match VCS_SOLVE_finish solver_pre with
    | Ok s => s
    | Throw _ => solver_pre
    end.

(** The same members with a species of empty composition. *)
Definition set_FormulaMatrix (fm : Array2D) (s : VCS_SOLVE) : VCS_SOLVE :=
  {| m_mix := m_mix s; m_nsp := m_nsp s; m_nelem := m_nelem s;
     m_numComponents := m_numComponents s; m_numRxnTot := m_numRxnTot s;
     m_numSpeciesRdc := m_numSpeciesRdc s; m_numRxnRdc := m_numRxnRdc s;
     m_numRxnMinorZeroed := m_numRxnMinorZeroed s;
     m_numPhases := m_numPhases s;
     m_doEstimateEquil := m_doEstimateEquil s;
     m_temperature := m_temperature s; m_pressurePA := m_pressurePA s;
     m_totalVol := m_totalVol s;
     vcs_debug_print_lvl := vcs_debug_print_lvl s;
     m_debug_print_lvl := m_debug_print_lvl s;
     m_timing_print_lvl := m_timing_print_lvl s; w := w s; mf := mf s;
     gai := gai s; m_gibbsSpecies := m_gibbsSpecies s;
     SpeciesUnknownType := SpeciesUnknownType s; PhaseID := PhaseID s;
     FormulaMatrix := fm; VPhaseList := VPhaseList s;
     TPhInertMoles := TPhInertMoles s;
     m_molNumSpecies_old := m_molNumSpecies_old s;
     m_feSpecies_old := m_feSpecies_old s;
     m_elemAbundancesGoal := m_elemAbundancesGoal s;
     m_PMVolumeSpecies := m_PMVolumeSpecies s;
     m_speciesUnknownType := m_speciesUnknownType s;
     m_elType := m_elType s; m_formulaMatrix := m_formulaMatrix s;
     m_speciesMapIndex := m_speciesMapIndex s;
     m_elementMapIndex := m_elementMapIndex s;
     m_speciesStatus := m_speciesStatus s; m_phaseID := m_phaseID s;
     m_speciesLocalPhaseIndex := m_speciesLocalPhaseIndex s;
     m_VolPhaseList := m_VolPhaseList s |}.

Definition solver_zero_row : VCS_SOLVE :=
  set_FormulaMatrix
    [[2%float; 0%float]; [0%float; (-0)%float]; [0%float; (-1)%float]]
    solver_pre.

(** The members on which the sum of C1 and the goal differ: one lattice
    ratio element, and two species with the coefficients 1 and -1. *)
Definition lattice_elType : list elem_type := [VCS_ELEM_TYPE_LATTICERATIO].

Definition lattice_unk : list species_unknown :=
  [VCS_SPECIES_TYPE_MOLNUM; VCS_SPECIES_TYPE_MOLNUM].

Definition lattice_fm : Array2D := [[1%float]; [(-1)%float]].

Definition lattice_mol : list double := [1%float; 2%float].

(** Parameters for the examples: a comparison of doubles up to a
    relative 1.0E-10, a [vcs_tmoles] that changes nothing, and phase
    methods that store what they are given. *)
Definition example_doubleEqual (d1 d2 : double) : bool :=
  let denom := (fabs d1 + fabs d2 + 1)%float in
  let fac := (fabs (d1 - d2) / denom)%float in
  if dgt fac 1.0E-10 then false else true.

Definition example_setMoleFractionsState (total : double)
  (x : list double) (sc : state_calc) (p : vcs_VolPhase) : vcs_VolPhase :=
  {| nSpecies := nSpecies p; phiVarIndex := phiVarIndex p;
     exists_ := exists_ p;
     totalMoles := total; totalMolesInert := totalMolesInert p;
     electricPotential := electricPotential p;
     moleFractions := x;
     spGlobalIndexVCS := spGlobalIndexVCS p;
     speciesUnknownType := speciesUnknownType p;
     Temp_ := Temp_ p; Pres_ := Pres_ p |}.

Definition example_externals : Externals :=
  {| vcs_doubleEqual := example_doubleEqual;
     vcs_tmoles := fun s => s;
     setMolesFromVCS := fun _ _ p => p;
     sendToVCS_VolPM := fun p volPM => (0%float, volPM, p);
     setMoleFractionsState := example_setMoleFractionsState |}.

(** A process with one solver, constructed while timing is on. *)
Definition process_one : Process := construct solver_pre process_start.

End Examples.

(** ** More of vcs_solve.cpp: what the loops of the constructor keep *)

Module VcsMore.
Import Vcs.

(** The number of species among the first [n] that [PhaseID] puts in
    phase [iph]. *)
Definition species_in_phase (PhaseID : list nat) (iph n : nat) : nat :=
  length (List.filter (fun k => bool_decide (PhaseID !!! k = iph)) (seq 0 n)).

(** The invariant of the loop that fills the species to phase mapping,
    after [i] turns from the vectors [phaseID0] and [local0]. *)
Definition phase_mapping_inv (numPhases : nat) (PhaseID : list nat)
  (phaseID0 local0 : list nat) (i : nat)
  (st : list nat * list nat * list nat) : Prop :=
  length st.1.1 = numPhases /\
  length st.1.2 = length phaseID0 /\ length st.2 = length local0 /\
  (forall iph, iph < numPhases ->
               st.1.1 !!! iph = species_in_phase PhaseID iph i) /\
  (forall k, k < i -> PhaseID !!! k < numPhases) /\
  (forall k, k < i -> k < length phaseID0 -> st.1.2 !!! k = PhaseID !!! k) /\
  (forall k, k < i -> k < length local0 ->
             st.2 !!! k = species_in_phase PhaseID (PhaseID !!! k) k).

(** The goal abundance the constructor takes from an explicit entry of
    [gai]. *)
Definition goal_of_gai (ty : elem_type) (g : double) : double :=
  if bool_decide (ty = VCS_ELEM_TYPE_LATTICERATIO) && dlt g 1.0E-10
  then 0%float else g.

(** What the species loop of a phase leaves in [w] for a species of
    unknown [ty] at the global index [kT]. *)
Definition initial_w (mphase : MultiPhase) (tPhase : ThermoPhase)
  (ty : species_unknown) (kT : nat) : double :=
  match ty with
  | VCS_SPECIES_TYPE_INTERFACIALVOLTAGE => tp_electricPotential tPhase
  | _ => speciesMoles mphase !!! kT
  end.

Definition known_unknown (ty : species_unknown) : bool :=
  match ty with
  | VCS_SPECIES_TYPE_other _ => false
  | _ => true
  end.

(** The invariant of the species loop of a phase after [i] turns from
    the state [st0]. *)
Definition species_loop_inv (mphase : MultiPhase) (tPhase : ThermoPhase)
  (VolPhase : vcs_VolPhase) (st0 : species_loop) (i : nat)
  (st : species_loop) : Prop :=
  kT st = kT st0 + i /\
  length (sl_w st) = length (sl_w st0) /\
  length (sl_mf st) = length (sl_mf st0) /\
  length (sl_SpeciesUnknownType st) = length (sl_SpeciesUnknownType st0) /\
  tMoles st =
  fold_left
    (fun acc k => (acc + speciesMoles mphase !!! (kT st0 + k)%nat)%float)
    (List.filter
       (fun k =>
          bool_decide (speciesUnknownType VolPhase !!! k
                       = VCS_SPECIES_TYPE_MOLNUM))
       (seq 0 i))
    (tMoles st0) /\
  forall k, k < i ->
    known_unknown (speciesUnknownType VolPhase !!! k) = true /\
    sl_SpeciesUnknownType st !!! (kT st0 + k) =
    speciesUnknownType VolPhase !!! k /\
    sl_w st !!! (kT st0 + k) =
    initial_w mphase tPhase (speciesUnknownType VolPhase !!! k)
      (kT st0 + k).

(** The global index of the first species of phase [iphase] in the
    mixture: the species of the phases before it. *)
Definition species_offset (mix : MultiPhase) (iphase : nat) : nat :=
  fold_left (fun acc p => acc + tp_nSpecies p) (take iphase (phase mix)) 0.

(** [invSpecies] of [vcs_prob_specifyFully]. *)
Definition invSpecies (s : VCS_SOLVE) : list nat :=
  for_loop (m_nsp s)
    (fun k inv => <[m_speciesMapIndex s !!! k := k]> inv)
    (replicate (m_nsp s) 0).

(** The chemical potentials after [vcs_prob_specifyFully]. *)
Definition specified_gibbs (s : VCS_SOLVE) : list double :=
  m_gibbsSpecies (vcs_prob_specifyFully s).2.

(** The public chemical potentials after the loop over the species of
    [vcs_prob_update]. *)
Definition written_back_gibbs (s : VCS_SOLVE) : list double :=
  (for_loop (m_nsp s) (writeback_species s) (0, w s, m_gibbsSpecies s)).2.

End VcsMore.

(** ** The goal abundances the constructor leaves *)

Module VcsGoal.
Import Vcs.





End VcsGoal.

(** ** vcs_prob_update with the state a throw leaves *)

Module VcsRun.
Import Vcs.

(** A loop whose body can throw, with the state at the throw: the body
    hands back the state it has reached and the error, if any. *)
Fixpoint iterS {S : Type} (body : nat -> S -> S * option CanteraError)
  (l : list nat) (s : S) : S * option CanteraError :=
  match l with
  | [] => (s, None)
  | i :: l' =>
      let r := body i s in
      match r.2 with
      | Some e => r
      | None => iterS body l' r.1
      end
  end.

(** The body of the loop over the species of a phase: [mf[kT]] is
    written before either check. *)
Definition update_species_run `{Externals} (pubPhase vPhase : vcs_VolPhase)
  (molNumSpecies_old w : list double) (k : nat) (st : list double * double)
  : list double * double * option CanteraError :=
  let kT := spGlobalIndexVCS pubPhase !!! k in
  let mf' := <[kT := moleFractions pubPhase !!! k]> st.1 in
  let k1 := spGlobalIndexVCS vPhase !!! k in
  let tmp := molNumSpecies_old !!! k1 in
  if bool_decide (phiVarIndex pubPhase = Some k)
     && negb (vcs_doubleEqual (electricPotential pubPhase) tmp)
  then (mf', st.2,
        Some (Inconsistency_in_voltage (electricPotential pubPhase) tmp))
  else if negb (vcs_doubleEqual (mf' !!! kT) (molefraction vPhase k)) then
    (mf', st.2,
     Some (Inconsistency_in_mole_fraction (mf' !!! kT)
             (molefraction vPhase k)))
  else
    (mf',
     if bool_decide
          (speciesUnknownType pubPhase !!! k
           <> VCS_SPECIES_TYPE_INTERFACIALVOLTAGE)
     then (st.2 + w !!! kT)%float else st.2,
     None).

(** The body of the loop over the phases: the public phase is changed
    in place before the loop over its species. *)
Definition update_phase_run `{Externals} (molNumSpecies_old w : list double)
  (VolPhaseList : list vcs_VolPhase) (iph : nat)
  (st : list double * list vcs_VolPhase)
  : list double * list vcs_VolPhase * option CanteraError :=
  let vPhase := VolPhaseList !!! iph in
  let sumMoles := totalMolesInert (transfer_totals (st.2 !!! iph) vPhase) in
  let pubPhase := update_pubPhase (st.2 !!! iph) vPhase in
  let phases := <[iph := pubPhase]> st.2 in
  let r := iterS (update_species_run pubPhase vPhase molNumSpecies_old w)
             (seq 0 (nSpecies pubPhase)) (st.1, sumMoles) in
  match r.2 with
  | Some e => (r.1.1, phases, Some e)
  | None =>
      if negb (vcs_doubleEqual r.1.2 (totalMoles vPhase)) then
        (r.1.1, phases,
         Some (Inconsistency_in_total_moles r.1.2 (totalMoles pubPhase)))
      else (r.1.1, phases, None)
  end.

(** [vcs_prob_update()] as it changes the solver: the members when the
    call ends, and how it ends. *)
Definition vcs_prob_update_run `{Externals} (s0 : VCS_SOLVE)
  : VCS_SOLVE * result Z :=
  let s := vcs_tmoles s0 in
  let vt :=
    vcs_VolTotal (m_numPhases s) (m_temperature s) (m_pressurePA s)
      (m_molNumSpecies_old s) (m_PMVolumeSpecies s) (m_VolPhaseList s) in
  let sp :=
    for_loop (m_nsp s) (writeback_species s) (0, w s, m_gibbsSpecies s) in
  let r := iterS (update_phase_run (m_molNumSpecies_old s) sp.1.2 vt.2)
             (seq 0 (m_numPhases s)) (mf s, VPhaseList s) in
  ({| m_mix := m_mix s; m_nsp := m_nsp s; m_nelem := m_nelem s;
      m_numComponents := m_numComponents s;
      m_numRxnTot := m_numRxnTot s;
      m_numSpeciesRdc := m_numSpeciesRdc s;
      m_numRxnRdc := m_numRxnRdc s;
      m_numRxnMinorZeroed := m_numRxnMinorZeroed s;
      m_numPhases := m_numPhases s;
      m_doEstimateEquil := m_doEstimateEquil s;
      m_temperature := m_temperature s; m_pressurePA := m_pressurePA s;
      m_totalVol := vt.1.1;
      vcs_debug_print_lvl := vcs_debug_print_lvl s;
      m_debug_print_lvl := m_debug_print_lvl s;
      m_timing_print_lvl := m_timing_print_lvl s; w := sp.1.2;
      mf := r.1.1; gai := gai s; m_gibbsSpecies := sp.2;
      SpeciesUnknownType := SpeciesUnknownType s; PhaseID := PhaseID s;
      FormulaMatrix := FormulaMatrix s; VPhaseList := r.1.2;
      TPhInertMoles := TPhInertMoles s;
      m_molNumSpecies_old := m_molNumSpecies_old s;
      m_feSpecies_old := m_feSpecies_old s;
      m_elemAbundancesGoal := m_elemAbundancesGoal s;
      m_PMVolumeSpecies := vt.1.2;
      m_speciesUnknownType := m_speciesUnknownType s;
      m_elType := m_elType s; m_formulaMatrix := m_formulaMatrix s;
      m_speciesMapIndex := m_speciesMapIndex s;
      m_elementMapIndex := m_elementMapIndex s;
      m_speciesStatus := m_speciesStatus s; m_phaseID := m_phaseID s;
      m_speciesLocalPhaseIndex := m_speciesLocalPhaseIndex s;
      m_VolPhaseList := vt.2 |},
   match r.2 with
   | Some e => Throw e
   | None => Ok VCS_SUCCESS
   end).

End VcsRun.

(** ** More of importKinetics.cpp: the calls in order *)

Module ImportKineticsMore.
Import ImportKinetics.

(** The reactions a call trace hands to the manager, in order. *)
Definition added (kin : Kinetics) : list XML_Node :=
  flat_map (fun c => match c with addReaction r => [r] | _ => [] end) kin.

(** The reactions of its data source that one reactionArray element
    passes on, in order and with repetition: all of them without include
    directive, else the ones each directive lets through, directive after
    directive. *)
Definition array_adds `{XML_Lookup} (root rxns : XML_Node) : list XML_Node :=
  let allrxns :=
    getChildren (get_XML_Node (attrib rxns "datasrc") root) "reaction" in
  match getChildren rxns "include" with
  | [] => allrxns
  | incl =>
      flat_map
        (fun ii => List.filter (include_test (include_bounds ii)) allrxns)
        incl
  end.

(** The calls one reactionArray element causes. *)
Definition array_calls `{XML_Lookup} (root rxns : XML_Node) : Kinetics :=
  apply_skip rxns [] ++ map addReaction (array_adds root rxns).

(** The two calls that close the installation. *)
Definition closing_call (c : KineticsCall) : bool :=
  match c with
  | checkDuplicates | finalize => true
  | _ => false
  end.

(** *** importKinetics *)

(** A phase object of the vector [th]: the answer of [ThermoPhase::id]
    and the object it stands for. *)
Record PhaseObject : Type := {
  ph_id : string;
  ph_object : nat
}.

(** The calls [importKinetics] makes on the kinetics manager, in order:
    [addPhase], [init], and the calls of [installReactionArrays]. *)
Inductive ManagerCall : Type :=
| addPhase (t : PhaseObject)
| init
| install (c : KineticsCall).

(** [Kinetics::phaseIndex] (Kinetics.h) and [getStringArray] (ctml.h) are
    defined outside the sources at hand: parameters. The manager answers
    [phaseIndex] from the calls made on it so far; [None] is [npos]. *)
Class ImportParams : Type := {
  phaseIndex : list ManagerCall -> string -> option nat;
  getStringArray : XML_Node -> list string
}.

(** How a call ends: a returned flag, or a thrown [CanteraError] with
    its procedure and message. *)
Inductive Outcome : Type :=
| Returned (b : bool)
| CanteraError (procedure msg : string).

(** [check_for_duplicates] of [importKinetics]: the parent of the phase
    element has a child [validate] whose attribute [reactions] is
    "yes". *)
Definition validate_reactions (parent : option XML_Node) : bool :=
  match parent with
  | Some par =>
      match getChildren par "validate" with
      | d :: _ => String.eqb (attrib d "reactions") "yes"
      | [] => false
      end
  | None => false
  end.

(** The loop over the supplied phases for one referenced id:
    [phase_ok], the manager and [msg]. *)
Definition match_phases `{ImportParams} (phase_id : string)
  (th : list PhaseObject) (k : list ManagerCall) (msg : string)
  : bool * list ManagerCall * string :=
  fold_left
    (fun (st : bool * list ManagerCall * string) (t : PhaseObject) =>
       let hit := String.eqb (ph_id t) phase_id in
       (if hit then true else st.1.1,
        if hit then
          match phaseIndex st.1.2 phase_id with
          | None => st.1.2 ++ [addPhase t]
          | Some _ => st.1.2
          end
        else st.1.2,
        st.2 +:+ " " +:+ ph_id t))
    th (false, k, msg).

(** The loop over the referenced ids: the manager, and the message of
    the error when an id is not found. *)
Fixpoint find_phases `{ImportParams} (phase_ids : list string)
  (th : list PhaseObject) (k : list ManagerCall) (msg : string)
  : list ManagerCall * option string :=
  match phase_ids with
  | [] => (k, None)
  | phase_id :: rest =>
      let r := match_phases phase_id th k msg in
      if r.1.1 then find_phases rest th r.1.2 r.2
      else (r.1.2,
            Some ("phase " +:+ phase_id
                  +:+ " not found. Supplied phases are:" +:+ r.2))
  end.

(** [phase_ids] of [importKinetics]: the ids of the phaseArray child,
    then the owning phase. *)
Definition referenced_phases `{ImportParams} (phase : XML_Node)
  : list string :=
  match getChildren phase "phaseArray" with
  | pa :: _ => getStringArray pa
  | [] => []
  end ++ [attrib phase "id"].

(** [importKinetics(phase, th, k)]: [k] is [None] for the null pointer,
    [parent] is [phase.parent()] and [root] the root of the tree. The
    result is the manager with the calls made on it, and the outcome.
    [installReactionArrays] only appends to the calls of its manager, so
    its calls are taken from the empty trace and appended. *)
Definition importKinetics `{XML_Lookup} `{ImportParams} (root : XML_Node)
  (parent : option XML_Node) (phase : XML_Node) (th : list PhaseObject)
  (k : option (list ManagerCall)) : option (list ManagerCall) * Outcome :=
  match k with
  | None => (None, Returned false)
  | Some k =>
      let check_for_duplicates := validate_reactions parent in
      let found := find_phases (referenced_phases phase) th k "" in
      match found.2 with
      | Some msg => (Some found.1, CanteraError "importKinetics" msg)
      | None =>
          let r := installReactionArrays root phase [] check_for_duplicates in
          (Some (found.1 ++ [init] ++ map install r.1), Returned r.2)
      end
  end.

(** What [msg] gains in one pass over the supplied phases. *)
Definition supplied (th : list PhaseObject) : string :=
  fold_right (fun t acc => " " +:+ ph_id t +:+ acc) "" th.

Fixpoint supplied_times (n : nat) (th : list PhaseObject) : string :=
  match n with
  | 0 => ""
  | S n => supplied th +:+ supplied_times n th
  end.

(** The phases a sequence of calls registers. *)
Definition registered (k : list ManagerCall) : list PhaseObject :=
  flat_map (fun c => match c with addPhase t => [t] | _ => [] end) k.

(** A manager that registers a phase under its id: [phaseIndex] finds an
    id exactly when a phase of that id has been added. *)
Definition registers_by_id `{ImportParams} : Prop :=
  forall k phase_id,
    phaseIndex k phase_id = None <->
    phase_id ∉ map ph_id (registered k).

End ImportKineticsMore.

(** ** base.pyx: the names and the species slices of a solution *)

Module SolutionBase.

(** [_SolutionBase.__init__]: [name] is [kwargs.get('name')],
    [phase_name] is [pystr(self.thermo.id())], [counts] is the module
    dictionary [_phase_counts], a [defaultdict(int)] whose membership
    test creates no entry. The result is the name the object gets and
    the dictionary afterwards; ['{0}_{1}'.format(phase_name, n)] prints
    [n] in decimal. *)
Definition init_name (name : option string) (phase_name : string)
  (counts : gmap string nat) : string * gmap string nat :=
  match name with
  | Some nm => (nm, counts)
  | None =>
      match counts !! phase_name with
      | Some c =>
          let n := S c in
          (phase_name +:+ "_" +:+ pretty n, <[phase_name := n]> counts)
      | None => (phase_name, <[phase_name := 0]> counts)
      end
  end.

(** Objects constructed one after the other, each with its [name]
    argument and the id of its phase: the names they get, and the
    dictionary afterwards. *)
Fixpoint construct_all (reqs : list (option string * string))
  (counts : gmap string nat) : list string * gmap string nat :=
  match reqs with
  | [] => ([], counts)
  | req :: rest =>
      let r := init_name req.1 req.2 counts in
      let rs := construct_all rest r.2 in
      (r.1 :: rs.1, rs.2)
  end.

(** Python's [x or d] on an optional integer: [None] and 0 are false. *)
Definition or_default (x : option Z) (d : Z) : Z :=
  match x with
  | Some z => if (z =? 0)%Z then d else z
  | None => d
  end.

(** Python's built-in [range(start, stop, step)] for a step other than
    0, as the list of its items. *)
Definition py_range (start stop step : Z) : list Z :=
  let n := if (0 <? step)%Z then ((stop - start + step - 1) / step)%Z
           else ((start - stop - step - 1) / (- step))%Z in
  map (fun i => (start + Z.of_nat i * step)%Z) (seq 0 (Z.to_nat n)).

(** The selection [__getitem__] makes of a slice with the attributes
    [start], [stop] and [step], on a phase of [n_species] species. *)
Definition slice_selection (start stop step : option Z) (n_species : Z)
  : list Z :=
  py_range (or_default start 0) (or_default stop n_species)
    (or_default step 1).

(** The count of [phase_name] after [j] more unnamed objects of that
    phase, and the name an unnamed object gets at a count. *)
Definition count_after (c : option nat) (j : nat) : option nat :=
  match j with
  | 0 => c
  | S j' => Some (match c with None => j' | Some c0 => c0 + S j' end)
  end.

Definition name_at (phase_name : string) (c : option nat) : string :=
  match c with
  | None => phase_name
  | Some c0 => phase_name +:+ "_" +:+ pretty (S c0)
  end.

(** The unnamed objects of phase [phase_name] among the first [i]. *)
Definition unnamed_before (phase_name : string) (i : nat)
  (reqs : list (option string * string)) : nat :=
  length (List.filter
            (fun req : option string * string =>
               bool_decide (req = (None, phase_name)))
            (take i reqs)).

End SolutionBase.

(** ** base.pyx: objects that share a base object *)

Module SolutionObjects.
Import SolutionBase.

(** A solution object as far as its name goes: the C++ object
    [self.base] it points to, and the id its thermo manager answers. *)
Record Solution : Type := {
  base : nat;
  thermo_id : string
}.

(** The state of the interpreter: the name each base object holds, and
    [_phase_counts]. *)
Record Heap : Type := {
  names : gmap nat string;
  counts : gmap string nat
}.

(** The property [name]: [pystr(self.base.name())]. *)
Definition solution_name (o : Solution) (h : Heap) : option string :=
  names h !! base o.

(** [__init__]: the setter of [name] stores the name in the base
    object. *)
Definition init (nm : option string) (o : Solution) (h : Heap) : Heap :=
  let r := init_name nm (thermo_id o) (counts h) in
  {| names := <[base o := r.1]> (names h); counts := r.2 |}.

(** [__getitem__]: [self.__class__(origin=self)] makes a copy whose
    [__cinit__] takes the base object and the managers of the origin,
    and whose [__init__] runs without a name. The selection stored in
    the copy is [slice_selection]. *)
Definition getitem (o : Solution) (h : Heap) : Solution * Heap :=
  let copy := {| base := base o; thermo_id := thermo_id o |} in
  (copy, init None copy h).

End SolutionObjects.

(** ** State.h: the density of a phase state *)

Module StateH.
Import Vcs.

(** The scalar members of [State] that its inline methods read and
    write. *)
Record State : Type := {
  m_temp : double;
  m_dens : double;
  m_mmw : double
}.

Definition temperature (st : State) : double := m_temp st.

Definition density (st : State) : double := m_dens st.

Definition meanMolecularWeight (st : State) : double := m_mmw st.

Definition molarDensity (st : State) : double :=
  (m_dens st / meanMolecularWeight st)%float.

(** [setDensity(rho)]: the member is written when [rho != m_dens]. *)
Definition setDensity (rho : double) (st : State) : State :=
  if dne rho (m_dens st)
  then {| m_temp := m_temp st; m_dens := rho; m_mmw := m_mmw st |}
  else st.

Definition setMolarDensity (n : double) (st : State) : State :=
  {| m_temp := m_temp st; m_dens := (n * meanMolecularWeight st)%float;
     m_mmw := m_mmw st |}.

Definition setTemperature (temp : double) (st : State) : State :=
  {| m_temp := temp; m_dens := m_dens st; m_mmw := m_mmw st |}.

End StateH.

(** ** More example data *)

Module ExamplesMore.
Import ImportKinetics ImportKineticsMore Vcs Examples.

(** A gas whose second species has an unknown type the solver does not
    know. *)
Definition odd_vp : vcs_VolPhase :=
  {| nSpecies := 2; phiVarIndex := None; exists_ := VCS_PHASE_EXIST_NO;
     totalMoles := 1.5%float; totalMolesInert := 0%float;
     electricPotential := 0%float;
     moleFractions := [0.75%float; 0.25%float];
     spGlobalIndexVCS := [0; 1];
     speciesUnknownType :=
       [VCS_SPECIES_TYPE_MOLNUM; VCS_SPECIES_TYPE_other 7];
     Temp_ := 300%float; Pres_ := 101325%float |}.

(** A surface phase whose mechanism refers to a gas and a bulk phase,
    and the phase objects at hand. *)
Definition surface_node : XML_Node :=
  XML_elem "phase" [("id", "surface")]
    [XML_elem "phaseArray" []
       [XML_elem "gas" [] []; XML_elem "bulk" [] []];
     reactionArray []].

Definition gas_object : PhaseObject := {| ph_id := "gas"; ph_object := 1 |}.

Definition gas_again : PhaseObject := {| ph_id := "gas"; ph_object := 2 |}.

Definition bulk_object : PhaseObject := {| ph_id := "bulk"; ph_object := 3 |}.

Definition surface_object : PhaseObject :=
  {| ph_id := "surface"; ph_object := 4 |}.

(** Parameters for the examples: a manager that finds the first phase it
    registered under an id, and a phaseArray whose ids are the names of
    its children. *)
Definition example_params : ImportParams :=
  {| phaseIndex := fun k phase_id =>
       fst <$> list_find (fun t => ph_id t = phase_id) (registered k);
     getStringArray := fun pa => map name (children pa) |}.

(** Three requests for a solution of the phase "gas", the second one
    with a name. *)
Definition gas_requests : list (option string * string) :=
  [(None, "gas"); (Some "burner", "gas"); (None, "gas")].



(** Parameters with a comparison of doubles that always fails: every
    cross-check throws. *)
Definition strict_externals : Externals :=
  {| vcs_doubleEqual := fun _ _ => false;
     vcs_tmoles := fun s => s;
     setMolesFromVCS := fun _ _ p => p;
     sendToVCS_VolPM := fun p volPM => (0%float, volPM, p);
     setMoleFractionsState := example_setMoleFractionsState |}.

(** A solution of the phase "gas", and the interpreter before any
    solution is made. *)
Definition gas_solution : SolutionObjects.Solution :=
  {| SolutionObjects.base := 1; SolutionObjects.thermo_id := "gas" |}.

Definition fresh_heap : SolutionObjects.Heap :=
  {| SolutionObjects.names := ∅; SolutionObjects.counts := ∅ |}.

End ExamplesMore.

(** * Properties *)

(** ** Reaction import *)

Section ImportKineticsFacts.
Import ImportKinetics.
Context `{XML_Lookup}.

Lemma str_le_lex_le (a b : string) : str_le a b = true <-> lex_le a b.
Proof.
  unfold str_le, lex_le, String.leb.
  destruct (String.compare a b); split; intros; congruence.
Qed.

Lemma include_test_selected_by (ii r : XML_Node) :
  include_test (include_bounds ii) r = true <-> selected_by ii r.
Proof.
  unfold include_bounds, selected_by, wildcard_position.
  rewrite (String.eqb_sym (attrib ii "max") (attrib ii "min")).
  destruct (String.eqb (attrib ii "min") (attrib ii "max")) eqn:E.
  - apply String.eqb_eq in E. rewrite <- E.
    destruct (index 0 "*" (attrib ii "min")) as [iwild|]; simpl;
      rewrite andb_true_iff, !str_le_lex_le; reflexivity.
  - simpl. rewrite andb_true_iff, !str_le_lex_le. reflexivity.
Qed.

(** The trace after one include directive: the reactions that pass its
    test are appended in document order. *)
Lemma include_one_trace (allrxns : list XML_Node) (st : Kinetics * Z)
  (ii : XML_Node) :
  (include_one allrxns st ii).1 =
  st.1 ++ map addReaction
            (List.filter (include_test (include_bounds ii)) allrxns).
Proof.
  unfold include_one. revert st.
  induction allrxns as [|r rs IH]; intros st; simpl.
  - by rewrite app_nil_r.
  - rewrite IH. destruct (include_test (include_bounds ii) r); simpl.
    + by rewrite <- app_assoc.
    + done.
Qed.

Lemma include_all_trace (allrxns incl : list XML_Node) (st : Kinetics * Z) :
  (fold_left (include_one allrxns) incl st).1 =
  st.1 ++ flat_map
            (fun ii => map addReaction
                         (List.filter (include_test (include_bounds ii))
                            allrxns))
            incl.
Proof.
  revert st. induction incl as [|ii incl IH]; intros st; simpl.
  - by rewrite app_nil_r.
  - rewrite IH, include_one_trace. by rewrite <- app_assoc.
Qed.

Lemma add_all_trace (allrxns : list XML_Node) (st : Kinetics * Z) :
  (fold_left
     (fun (st : Kinetics * Z) (r : XML_Node) =>
        (st.1 ++ [addReaction r], (st.2 + 1)%Z))
     allrxns st).1 = st.1 ++ map addReaction allrxns.
Proof.
  revert st. induction allrxns as [|r rs IH]; intros st; simpl.
  - by rewrite app_nil_r.
  - rewrite IH. simpl. by rewrite <- app_assoc.
Qed.

Lemma apply_skip_addReaction (rxns r : XML_Node) (kin : Kinetics) :
  In (addReaction r) (apply_skip rxns kin) <-> In (addReaction r) kin.
Proof.
  unfold apply_skip. destruct (getChildren rxns "skip") as [|sk ?]; [done|].
  destruct (String.eqb (attrib sk "species") "undeclared");
    destruct (String.eqb (attrib sk "third_bodies") "undeclared");
    rewrite ?in_app_iff; simpl; intuition congruence.
Qed.

Lemma reactionArray_body_adds (root rxns r : XML_Node) (st : Kinetics * Z) :
  In (addReaction r) (reactionArray_body root st rxns).1 <->
  In (addReaction r) st.1 \/ array_selects root rxns r.
Proof.
  unfold reactionArray_body, array_selects.
  set (allrxns := getChildren _ "reaction").
  destruct (getChildren rxns "include") as [|i0 incl] eqn:E.
  - rewrite add_all_trace, in_app_iff, in_map_iff. simpl.
    rewrite apply_skip_addReaction. split.
    + intros [?|(x & [= ->] & ?)]; auto.
    + intros [?|[? _]]; eauto.
  - rewrite include_all_trace, in_app_iff, in_flat_map. simpl fst.
    rewrite apply_skip_addReaction. split.
    + intros [?|(ii & Hii & Hin)]; [by left|right].
      apply in_map_iff in Hin as (x & [= ->] & Hx).
      apply filter_In in Hx as [Hx Ht].
      split; [done|right]. exists ii. split; [done|].
      by apply include_test_selected_by.
    + intros [?|[Hr [?|(ii & Hii & Hsel)]]]; [by left|done|right].
      exists ii. split; [done|]. apply in_map_iff. exists r.
      split; [done|]. apply filter_In. split; [done|].
      by apply include_test_selected_by.
Qed.

Lemma reactionArrays_fold_adds (root r : XML_Node) (rarrays : list XML_Node)
  (st : Kinetics * Z) :
  In (addReaction r) (fold_left (reactionArray_body root) rarrays st).1 <->
  In (addReaction r) st.1 \/
  exists rxns, In rxns rarrays /\ array_selects root rxns r.
Proof.
  revert st. induction rarrays as [|rxns rs IH]; intros st; simpl.
  - split; [by left|]. intros [?|(? & [] & _)]. done.
  - rewrite IH, reactionArray_body_adds. split.
    + intros [[?|?]|(x & ? & ?)]; eauto.
    + intros [?|(x & [<-|?] & ?)]; eauto.
Qed.

(** C8. [installReactionArrays] hands a reaction of a data source to the
    kinetics manager exactly when a reactionArray element selects it: the
    element carries no include directive, or the id of the reaction lies,
    in the lexicographic order of strings, between the bounds [min] and
    [max] of one of its include directives, all three cut at the position
    of the first [*] when [min] equals [max] and holds one. *)
Theorem installReactionArrays_adds_selected (root p r : XML_Node)
  (kin : Kinetics) (check_for_duplicates : bool) :
  In (addReaction r)
    (installReactionArrays root p kin check_for_duplicates).1 <->
  In (addReaction r) kin \/
  exists rxns,
    In rxns (getChildren p "reactionArray") /\
    In r (getChildren (get_XML_Node (attrib rxns "datasrc") root)
            "reaction") /\
    (getChildren rxns "include" = [] \/
     exists ii,
       In ii (getChildren rxns "include") /\
       let imin := attrib ii "min" in
       let imax := attrib ii "max" in
       let rxid := attrib r "id" in
       let pos := wildcard_position imin imax in
       lex_le (truncated_at pos imin) (truncated_at pos rxid) /\
       lex_le (truncated_at pos rxid) (truncated_at pos imax)).
Proof.
  unfold installReactionArrays.
  destruct (getChildren p "reactionArray") as [|a0 rarrays] eqn:E.
  - simpl. rewrite in_app_iff. simpl. split.
    + intros [?|[?|[]]]; [by left|done].
    + intros [?|(? & [] & _)]. by left.
  - cbn [fst]. rewrite in_app_iff.
    assert (Hfin : forall l : Kinetics,
               In (addReaction r)
                 (if check_for_duplicates then l ++ [checkDuplicates] else l)
               <-> In (addReaction r) l).
    { intros l. destruct check_for_duplicates; [|done].
      rewrite in_app_iff. simpl. intuition congruence. }
    rewrite Hfin, reactionArrays_fold_adds. simpl fst.
    unfold array_selects, selected_by. simpl. intuition congruence.
Qed.

End ImportKineticsFacts.

(** ** Loops *)

Section Loops.
Import Vcs.
Context {S : Type}.

Lemma for_loop_S (n : nat) (body : nat -> S -> S) (s : S) :
  for_loop (Datatypes.S n) body s = body n (for_loop n body s).
Proof. unfold for_loop. by rewrite seq_S, fold_left_app. Qed.

Lemma iterM_app (body : nat -> S -> result S) (l1 l2 : list nat) (s : S) :
  iterM body (l1 ++ l2) s = bind (iterM body l1 s) (iterM body l2).
Proof.
  revert s. induction l1 as [|i l1 IH]; intros s; simpl; [done|].
  destruct (body i s); simpl; auto.
Qed.

Lemma iterM_seq_S (body : nat -> S -> result S) (n : nat) (s : S) :
  iterM body (seq 0 (Datatypes.S n)) s =
  bind (iterM body (seq 0 n) s) (body n).
Proof.
  rewrite seq_S, iterM_app. simpl.
  destruct (iterM body (seq 0 n) s) as [s1|]; simpl; [|done].
  by destruct (body n s1).
Qed.

(** A loop that ends normally has kept its invariant, and each of its
    turns ended normally from a state of the invariant. *)
Lemma iterM_seq_inv (P : nat -> S -> Prop) (body : nat -> S -> result S)
  (n : nat) (s s' : S) :
  P 0 s ->
  (forall i si si', i < n -> P i si -> body i si = Ok si' ->
                    P (Datatypes.S i) si') ->
  iterM body (seq 0 n) s = Ok s' ->
  P n s' /\
  forall i, i < n -> exists si si', P i si /\ body i si = Ok si'.
Proof.
  intros H0 Hstep. revert s'.
  induction n as [|n IH]; intros s' Hrun.
  - simpl in Hrun. injection Hrun as <-. split; [done|lia].
  - rewrite iterM_seq_S in Hrun.
    destruct (iterM body (seq 0 n) s) as [s1|] eqn:E; simpl in Hrun; [|done].
    destruct (IH (fun i si si' Hi => Hstep i si si' (Nat.lt_lt_succ_r _ _ Hi))
                s1 eq_refl) as [HP Hall].
    split; [by eapply Hstep; eauto|].
    intros i Hi. destruct (decide (i = n)) as [->|]; [by eauto|].
    apply Hall. lia.
Qed.

Lemma result_Ok_or_Throw {A : Type} (r : result A) :
  (forall a, r <> Ok a) -> exists e, r = Throw e.
Proof. destruct r as [a|e]; [intros Hn; by destruct (Hn a)|eauto]. Qed.

End Loops.

(** ** vcs_prob_specifyFully *)

Section SpecifyFully.
Import Vcs.

Lemma size_t_sub_le (a b : nat) :
  b <= a -> (Z.of_nat a < 2 ^ 64)%Z -> size_t_sub a b = a - b.
Proof.
  intros Hle Hlt. unfold size_t_sub.
  rewrite Z.mod_small by lia. lia.
Qed.

(** C5. After [vcs_prob_specifyFully] the number of reactions is the
    number of species minus the number of components min(nel, nsp): zero
    when there are more elements than species, [m_nsp - m_nelem]
    otherwise; and [m_numRxnRdc] starts equal to [m_numRxnTot]. *)
Theorem vcs_prob_specifyFully_numRxnTot (s : VCS_SOLVE) :
  (Z.of_nat (m_nsp s) < 2 ^ 64)%Z ->
  let s' := (vcs_prob_specifyFully s).2 in
  m_nsp s' = m_nsp s /\ m_nelem s' = m_nelem s /\
  m_numRxnTot s' = m_nsp s' - Nat.min (m_nelem s') (m_nsp s') /\
  (m_nsp s' < m_nelem s' -> m_numRxnTot s' = 0) /\
  (m_nelem s' <= m_nsp s' -> m_numRxnTot s' = m_nsp s' - m_nelem s') /\
  m_numRxnRdc s' = m_numRxnTot s'.
Proof.
  intros Hsz. simpl.
  case_bool_decide as Hlt.
  - repeat split; try done; lia.
  - rewrite size_t_sub_le by lia. repeat split; try done; lia.
Qed.

Lemma specify_phase_length (mix : MultiPhase) (temp pres : double)
  (inv : list nat) (n : nat) (st : nat * list double * list vcs_VolPhase) :
  length (for_loop n (specify_phase mix temp pres inv) st).2 = length st.2.
Proof.
  induction n as [|n IH]; [done|].
  rewrite for_loop_S. unfold specify_phase at 1. simpl.
  by rewrite length_insert.
Qed.

(** The loop over the phases leaves in slot [i] the phase it found there,
    with temperature, pressure and existence set, once it has passed
    [i]. *)
Lemma specify_phase_lookup (mix : MultiPhase) (temp pres : double)
  (inv : list nat) (n : nat) (st : nat * list double * list vcs_VolPhase)
  (i : nat) :
  i < length st.2 ->
  (for_loop n (specify_phase mix temp pres inv) st).2 !!! i =
  if bool_decide (i < n)
  then specify_existence (tp_nSpecies (phase mix !!! i))
         (setState_TP temp pres (st.2 !!! i))
  else st.2 !!! i.
Proof.
  intros Hi. induction n as [|n IH].
  - by rewrite bool_decide_false by lia.
  - rewrite for_loop_S. unfold specify_phase at 1. cbn [snd].
    destruct (decide (i = n)) as [->|Hne].
    + rewrite list_lookup_total_insert_eq
        by (by rewrite specify_phase_length).
      rewrite IH, bool_decide_false by lia.
      by rewrite bool_decide_true by lia.
    + rewrite list_lookup_total_insert_ne by done.
      rewrite IH. repeat case_bool_decide; try done; lia.
Qed.

(** C2. [vcs_prob_specifyFully] sets the existence of every phase: always
    existent when the phase has a single species and the voltage is its
    unknown number 0; otherwise existent if and only if the total moles
    of the phase are strictly positive, and non-existent if not. *)
Theorem vcs_prob_specifyFully_existence (s : VCS_SOLVE) (iphase : nat) :
  iphase < m_numPhases s ->
  iphase < length (VPhaseList s) ->
  let volPhase := VPhaseList s !!! iphase in
  let nSpPhase := tp_nSpecies (phase (m_mix s) !!! iphase) in
  let e := exists_ (VPhaseList (vcs_prob_specifyFully s).2 !!! iphase) in
  (nSpPhase = 1 /\ phiVarIndex volPhase = Some 0 ->
   e = VCS_PHASE_EXIST_ALWAYS) /\
  (~ (nSpPhase = 1 /\ phiVarIndex volPhase = Some 0) ->
   (e = VCS_PHASE_EXIST_YES <-> dgt (totalMoles volPhase) 0 = true) /\
   (e = VCS_PHASE_EXIST_NO <-> dgt (totalMoles volPhase) 0 = false)).
Proof.
  intros Hn Hlen. cbn zeta. cbn [vcs_prob_specifyFully snd VPhaseList].
  rewrite specify_phase_lookup by done.
  rewrite bool_decide_true by done.
  unfold specify_existence. cbn [setState_TP phiVarIndex totalMoles snd].
  split.
  - intros [-> ->]. by rewrite bool_decide_true.
  - intros Hnot.
    destruct ((tp_nSpecies (phase (m_mix s) !!! iphase) =? 1)
              && bool_decide (phiVarIndex (VPhaseList s !!! iphase) = Some 0))
      eqn:E.
    + apply andb_true_iff in E as [E1 E2].
      apply Nat.eqb_eq in E1. apply bool_decide_eq_true in E2. tauto.
    + destruct (dgt (totalMoles (VPhaseList s !!! iphase)) 0); simpl;
        split; split; congruence.
Qed.

End SpecifyFully.

(** ** The constructor *)

Section Constructor.
Import Vcs.

Lemma iterM_seq_Throw {S : Type} (P : nat -> S -> Prop)
  (body : nat -> S -> result S) (n : nat) (s : S) (e : CanteraError) :
  P 0 s ->
  (forall i si si', i < n -> P i si -> body i si = Ok si' -> P (Datatypes.S i) si') ->
  iterM body (seq 0 n) s = Throw e ->
  exists i si, i < n /\ P i si /\ body i si = Throw e.
Proof.
  intros H0 Hstep. induction n as [|n IH]; intros Hrun; [done|].
  rewrite iterM_seq_S in Hrun.
  destruct (iterM body (seq 0 n) s) as [s1|e1] eqn:E; simpl in Hrun.
  - exists n, s1. split; [lia|]. split; [|done].
    eapply (iterM_seq_inv P body n s s1); eauto.
  - injection Hrun as ->.
    destruct IH as (i & si & Hi & HP & Hb); eauto.
    exists i, si. split; [lia|done].
Qed.

(** *** The charge neutrality elements *)

Lemma deq_zero_zero : deq 0 0 = true.
Proof. reflexivity. Qed.

Lemma dne_deq (a b : double) : dne a b = negb (deq a b).
Proof. reflexivity. Qed.

(** What one turn of the charge neutrality loop does. *)
Lemma charge_neutrality_element_spec (elType : list elem_type) (i : nat)
  (goal : list double) :
  match charge_neutrality_element elType i goal with
  | Ok goal' =>
      length goal' = length goal /\
      (forall j, j <> i -> goal' !!! j = goal !!! j) /\
      (elType !!! i = VCS_ELEM_TYPE_CHARGENEUTRALITY ->
       deq (goal' !!! i) 0 = true /\
       dgt (fabs (goal !!! i)) 1.0E-9 = false /\
       (dne (goal !!! i) 0 = true -> goal' !!! i = 0%float))
  | Throw e =>
      elType !!! i = VCS_ELEM_TYPE_CHARGENEUTRALITY /\
      dne (goal !!! i) 0 = true /\
      dgt (fabs (goal !!! i)) 1.0E-9 = true /\
      e = Charge_neutrality_nonzero i (goal !!! i)
  end.
Proof.
  unfold charge_neutrality_element.
  case_bool_decide as Hty; [|by repeat split].
  destruct (dne (goal !!! i) 0) eqn:Hne.
  - destruct (dgt (fabs (goal !!! i)) 1.0E-9) eqn:Hbig; [done|].
    rewrite length_insert. split; [done|]. split.
    + intros j Hj. by rewrite list_lookup_total_insert_ne.
    + intros _. destruct (decide (i < length goal)) as [Hlt|Hge].
      * by rewrite list_lookup_total_insert_eq.
      * rewrite list_insert_ge by lia.
        rewrite dne_deq in Hne. apply negb_true_iff in Hne.
        rewrite list_lookup_total_alt, lookup_ge_None_2 in Hne by lia.
        done.
  - split; [done|]. split; [done|]. intros _.
    rewrite dne_deq in Hne. apply negb_false_iff in Hne.
    split; [done|]. split; [|done].
    unfold dgt, fabs. unfold deq in Hne. revert Hne.
    rewrite FloatAxioms.eqb_spec, FloatAxioms.ltb_spec, FloatAxioms.abs_spec.
    change (Prim2SF 0) with (S754_zero false).
    destruct (Prim2SF (goal !!! i)) as [sg|sg| |sg m e];
      try destruct sg; try (intros [=]); by vm_compute.
Qed.

Lemma charge_neutrality_inv_0 (elType : list elem_type)
  (goal0 : list double) : charge_neutrality_inv elType goal0 0 goal0.
Proof. split; [done|]. split; [done|]. intros j Hj. lia. Qed.

Lemma charge_neutrality_inv_step (elType : list elem_type)
  (goal0 : list double) (i : nat) (g g' : list double) :
  charge_neutrality_inv elType goal0 i g ->
  charge_neutrality_element elType i g = Ok g' ->
  charge_neutrality_inv elType goal0 (S i) g'.
Proof.
  intros (Hlen & Hrest & Hdone) Hrun.
  pose proof (charge_neutrality_element_spec elType i g) as Hsp.
  rewrite Hrun in Hsp. destruct Hsp as (Hl & Hother & Hcn).
  split; [congruence|]. split.
  - intros j Hj. rewrite Hother by lia. apply Hrest. lia.
  - intros j Hj Hty. destruct (decide (j = i)) as [->|Hne].
    + destruct (Hcn Hty) as (Hz & _ & Hclamp). split; [done|].
      intros Hnz. apply Hclamp. by rewrite Hrest.
    + rewrite Hother by done. apply Hdone; [lia|done].
Qed.


Lemma charge_neutrality_Throw (nelem : nat) (elType : list elem_type)
  (goal : list double) (e : CanteraError) :
  charge_neutrality nelem elType goal = Throw e ->
  exists i, i < nelem /\
            elType !!! i = VCS_ELEM_TYPE_CHARGENEUTRALITY /\
            e = Charge_neutrality_nonzero i (goal !!! i).
Proof.
  intros Hrun.
  destruct (iterM_seq_Throw (charge_neutrality_inv elType goal)
              (charge_neutrality_element elType) nelem goal e)
    as (i & si & Hi & (_ & Hrest & _) & Hb); try done.
  - apply charge_neutrality_inv_0.
  - intros i si si' _. apply charge_neutrality_inv_step.
  - pose proof (charge_neutrality_element_spec elType i si) as Hsp.
    rewrite Hb in Hsp. destruct Hsp as (Hty & _ & _ & ->).
    exists i. by rewrite Hrest.
Qed.

(** *** The pieces of a construction that ends normally *)

Lemma VCS_SOLVE_finish_Ok (s s' : VCS_SOLVE) :
  VCS_SOLVE_finish s = Ok s' ->
  exists goal goal' fm,
    formulate_goal (gai s) (m_nelem s) (m_nsp s) (copy_estimate s).2
      (m_elType s) (SpeciesUnknownType s) (m_formulaMatrix s)
      (copy_estimate s).1 (m_elemAbundancesGoal s) = Ok goal /\
    charge_neutrality (m_nelem s) (m_elType s) goal = Ok goal' /\
    copy_formula_matrix (m_nsp s) (m_nelem s) (FormulaMatrix s)
      (m_formulaMatrix s) = Ok fm /\
    m_elemAbundancesGoal s' = goal' /\ m_formulaMatrix s' = fm /\
    FormulaMatrix s' = FormulaMatrix s /\ m_elType s' = m_elType s /\
    m_nsp s' = m_nsp s /\ m_nelem s' = m_nelem s /\
    m_timing_print_lvl s' = m_timing_print_lvl s.
Proof.
  unfold VCS_SOLVE_finish. intros Hrun.
  destruct (formulate_goal _ _ _ _ _ _ _ _ _) as [goal|] eqn:E1;
    simpl in Hrun; [|done].
  destruct (phase_mapping _ _ _ _ _ _) as [pm|] eqn:E2;
    simpl in Hrun; [|done].
  destruct (charge_neutrality _ _ _) as [goal'|] eqn:E3;
    simpl in Hrun; [|done].
  destruct (copy_formula_matrix _ _ _ _) as [fm|] eqn:E4;
    simpl in Hrun; [|done].
  injection Hrun as <-. by exists goal, goal', fm.
Qed.


End Constructor.

(** *** The formula matrix *)

Section FormulaMatrixCopy.
Import Vcs.

Lemma for_loop_inv {S : Type} (P : nat -> S -> Prop) (n : nat)
  (body : nat -> S -> S) (s : S) :
  P 0 s ->
  (forall i si, i < n -> P i si -> P (Datatypes.S i) (body i si)) ->
  P n (for_loop n body s).
Proof.
  intros H0 Hstep. induction n as [|n IH]; [done|].
  rewrite for_loop_S. apply Hstep; [lia|]. apply IH.
  intros i si Hi. apply Hstep. lia.
Qed.

(** The [nonzero] flag of a row after [n] columns. *)
Lemma copy_row_flag (FM : Array2D) (i n : nat) (b : bool) (m : Array2D) :
  (for_loop n
     (fun j (st : bool * Array2D) =>
        (if dne (at2 FM i j) 0 then true else st.1,
         set2 st.2 i j (at2 FM i j)))
     (b, m)).1 =
  b || existsb (fun j => dne (at2 FM i j) 0) (seq 0 n).
Proof.
  induction n as [|n IH]; [by rewrite orb_false_r|].
  rewrite for_loop_S. cbn [fst]. rewrite IH, seq_S, existsb_app. simpl.
  destruct (dne (at2 FM i n) 0), b; simpl;
    by rewrite ?orb_true_r, ?orb_false_r.
Qed.

Lemma copy_formula_row_spec (nelem : nat) (FM : Array2D) (i : nat)
  (m : Array2D) :
  match copy_formula_row nelem FM i m with
  | Ok _ => exists j, j < nelem /\ dne (at2 FM i j) 0 = true
  | Throw e =>
      e = Zero_formula_matrix i /\
      forall j, j < nelem -> deq (at2 FM i j) 0 = true
  end.
Proof.
  unfold copy_formula_row. rewrite copy_row_flag. simpl.
  destruct (existsb _ _) eqn:E; simpl.
  - apply existsb_exists in E as (j & Hj & Hnz).
    apply in_seq in Hj. exists j. split; [lia|done].
  - split; [done|]. intros j Hj.
    destruct (deq (at2 FM i j) 0) eqn:Hz; [done|].
    assert (existsb (fun j => dne (at2 FM i j) 0) (seq 0 nelem) = true)
      as Hex; [|congruence].
    apply existsb_exists. exists j. split; [apply in_seq; lia|].
    by rewrite dne_deq, Hz.
Qed.

Lemma copy_formula_matrix_Ok (nsp nelem : nat) (FM m m' : Array2D) :
  copy_formula_matrix nsp nelem FM m = Ok m' ->
  forall i, i < nsp -> exists j, j < nelem /\ dne (at2 FM i j) 0 = true.
Proof.
  intros Hrun i Hi.
  destruct (iterM_seq_inv (fun _ _ => True) (copy_formula_row nelem FM)
              nsp m m') as [_ Hsteps]; try done.
  destruct (Hsteps i Hi) as (si & si' & _ & Hb).
  pose proof (copy_formula_row_spec nelem FM i si) as Hsp.
  by rewrite Hb in Hsp.
Qed.

Lemma copy_formula_matrix_Throw (nsp nelem : nat) (FM m : Array2D)
  (e : CanteraError) :
  copy_formula_matrix nsp nelem FM m = Throw e ->
  exists i, i < nsp /\ e = Zero_formula_matrix i /\
            forall j, j < nelem -> deq (at2 FM i j) 0 = true.
Proof.
  intros Hrun.
  destruct (iterM_seq_Throw (fun _ _ => True) (copy_formula_row nelem FM)
              nsp m e) as (i & si & Hi & _ & Hb); try done.
  pose proof (copy_formula_row_spec nelem FM i si) as Hsp.
  rewrite Hb in Hsp. destruct Hsp as [-> Hz]. by exists i.
Qed.

Lemma set2_length (M : Array2D) (i j : nat) (v : double) :
  length (set2 M i j v) = length M.
Proof. unfold set2. apply length_insert. Qed.

Lemma set2_row_length (M : Array2D) (i j i' : nat) (v : double) :
  length (set2 M i j v !!! i') = length (M !!! i').
Proof.
  unfold set2. destruct (decide (i < length M)) as [Hlt|Hge].
  - destruct (decide (i = i')) as [<-|Hne].
    + rewrite list_lookup_total_insert_eq by done. apply length_insert.
    + by rewrite list_lookup_total_insert_ne.
  - by rewrite list_insert_ge by lia.
Qed.

Lemma at2_set2_eq (M : Array2D) (i j : nat) (v : double) :
  i < length M -> j < length (M !!! i) -> at2 (set2 M i j v) i j = v.
Proof.
  intros Hi Hj. unfold at2, set2.
  rewrite list_lookup_total_insert_eq by done.
  by rewrite list_lookup_total_insert_eq.
Qed.

Lemma at2_set2_ne (M : Array2D) (i j i' j' : nat) (v : double) :
  i <> i' \/ j <> j' -> at2 (set2 M i j v) i' j' = at2 M i' j'.
Proof.
  intros Hne. unfold at2, set2.
  destruct (decide (i = i')) as [<-|Hi].
  - destruct Hne as [|Hj]; [done|].
    destruct (decide (i < length M)) as [Hlt|Hge].
    + rewrite list_lookup_total_insert_eq by done.
      by rewrite list_lookup_total_insert_ne.
    + by rewrite list_insert_ge by lia.
  - by rewrite list_lookup_total_insert_ne.
Qed.

(** The private matrix while the copy runs: its shape is the one it had,
    the entries passed hold the public ones, the others are kept. The
    rows below [i] are complete, [n] columns of row [i] are done. *)
Lemma copy_row_entries (FM : Array2D) (nelem i n : nat) (b : bool)
  (m : Array2D) :
  let m' :=
    (for_loop n
       (fun j (st : bool * Array2D) =>
          (if dne (at2 FM i j) 0 then true else st.1,
           set2 st.2 i j (at2 FM i j)))
       (b, m)).2 in
  copy_inv FM m (fun i' j' => i' = i /\ j' < n) m'.
Proof.
  induction n as [|n IH].
  - repeat split; try done. intros i' j' _ _ [_ Hj]. lia.
  - rewrite for_loop_S. cbn [snd]. destruct IH as (Hl & Hr & Hcp & Hkeep).
    split; [by rewrite set2_length|].
    split; [intros i'; by rewrite set2_row_length|]. split.
    + intros i' j' Hi' Hj' [-> Hjn].
      destruct (decide (j' = n)) as [->|Hne].
      * apply at2_set2_eq; [by rewrite Hl|by rewrite Hr].
      * rewrite at2_set2_ne by auto. apply Hcp; [done..|]. split; [done|lia].
    + intros i' j' Hn. rewrite at2_set2_ne.
      * apply Hkeep. intros [-> Hj]. apply Hn. split; [done|lia].
      * destruct (decide (i = i')) as [->|]; [|by left].
        right. intros ->. apply Hn. split; [done|lia].
Qed.

Lemma copy_formula_matrix_entries (nsp nelem : nat) (FM m m' : Array2D) :
  copy_formula_matrix nsp nelem FM m = Ok m' ->
  copy_inv FM m (fun i' j' => i' < nsp /\ j' < nelem) m'.
Proof.
  intros Hrun.
  apply (iterM_seq_inv
           (fun n mi => copy_inv FM m (fun i' j' => i' < n /\ j' < nelem) mi)
           (copy_formula_row nelem FM) nsp m m'); try done.
  - repeat split; try done. intros i' j' _ _ [Hi _]. lia.
  - intros i mi mi' _ (Hl & Hr & Hcp & Hkeep) Hrow.
    unfold copy_formula_row in Hrow.
    destruct (negb _); [done|]. injection Hrow as <-.
    destruct (copy_row_entries FM nelem i nelem false mi)
      as (Hl' & Hr' & Hcp' & Hkeep').
    split; [congruence|]. split; [intros i'; by rewrite Hr', Hr|]. split.
    + intros i' j' Hi' Hj' [Hin Hjn].
      destruct (decide (i' = i)) as [->|Hne].
      * apply Hcp'; [by rewrite Hl|by rewrite Hr|done].
      * rewrite Hkeep' by (intros [? _]; done).
        apply Hcp; [done..|]. split; [lia|done].
    + intros i' j' Hn. rewrite Hkeep'.
      * apply Hkeep. intros [? ?]. apply Hn. split; [lia|done].
      * intros [-> ?]. apply Hn. split; [lia|done].
Qed.

(** C3. A species whose row of the formula matrix is zero throughout
    makes the constructor throw, and the copy of the formula matrix
    itself throws the zero formula matrix error for a species with such a
    row; so after a construction that ends normally every species has a
    nonzero entry in its row, and the private matrix holds the entries of
    the public one. *)
Theorem zero_formula_row_rejected (s : VCS_SOLVE) :
  (forall i, i < m_nsp s ->
     (forall j, j < m_nelem s -> deq (at2 (FormulaMatrix s) i j) 0 = true) ->
     (exists e, VCS_SOLVE_finish s = Throw e) /\
     exists i',
       copy_formula_matrix (m_nsp s) (m_nelem s) (FormulaMatrix s)
         (m_formulaMatrix s) = Throw (Zero_formula_matrix i') /\
       forall j, j < m_nelem s ->
                 deq (at2 (FormulaMatrix s) i' j) 0 = true) /\
  (forall s', VCS_SOLVE_finish s = Ok s' ->
     forall i, i < m_nsp s' ->
       exists j, j < m_nelem s' /\
                 dne (at2 (FormulaMatrix s') i j) 0 = true /\
                 (i < length (m_formulaMatrix s) ->
                  j < length (m_formulaMatrix s !!! i) ->
                  at2 (m_formulaMatrix s') i j = at2 (FormulaMatrix s') i j)).
Proof.
  split.
  - intros i Hi Hzero.
    assert (Hcp : forall m', copy_formula_matrix (m_nsp s) (m_nelem s)
                               (FormulaMatrix s) (m_formulaMatrix s)
                             <> Ok m').
    { intros m' Hrun.
      destruct (copy_formula_matrix_Ok _ _ _ _ _ Hrun i Hi) as (j & Hj & Hnz).
      specialize (Hzero j Hj). rewrite dne_deq, Hzero in Hnz. done. }
    split.
    + apply result_Ok_or_Throw. intros s' Hrun.
      apply VCS_SOLVE_finish_Ok in Hrun as (g & g' & fm & _ & _ & Hc & _).
      by apply (Hcp fm).
    + destruct (result_Ok_or_Throw _ Hcp) as [e He].
      destruct (copy_formula_matrix_Throw _ _ _ _ _ He)
        as (i' & _ & -> & Hz).
      by exists i'.
  - intros s' Hrun i Hi.
    apply VCS_SOLVE_finish_Ok in Hrun
      as (g & g' & fm & _ & _ & Hc & _ & -> & -> & _ & Hnsp & -> & _).
    rewrite Hnsp in Hi.
    destruct (copy_formula_matrix_Ok _ _ _ _ _ Hc i Hi) as (j & Hj & Hnz).
    exists j. split; [done|]. split; [done|]. intros Hil Hjl.
    destruct (copy_formula_matrix_entries _ _ _ _ _ Hc) as (_ & _ & Hcp & _).
    by apply Hcp.
Qed.

End FormulaMatrixCopy.

(** *** The goal element abundances *)

Section GoalAbundances.
Import Vcs.

(** The loop over the species accumulates in slot [j] of the goal
    vector. *)
Lemma goal_species_loop (unk : list species_unknown) (fm : Array2D)
  (mol : list double) (j nsp : nat) (sum : double) (goal : list double) :
  j < length goal ->
  for_loop nsp (goal_add_species unk fm mol j) (sum, goal) =
  (fold_left (fun acc k => (acc + mol !!! k)%float)
     (List.filter (non_voltage unk) (seq 0 nsp)) sum,
   <[j := fold_left (fun acc k => (acc + at2 fm k j * mol !!! k)%float)
            (List.filter (non_voltage unk) (seq 0 nsp)) (goal !!! j)]> goal).
Proof.
  intros Hj. unfold non_voltage. induction nsp as [|n IH].
  - unfold for_loop. simpl. f_equal. symmetry. apply list_insert_id.
    by apply list_lookup_lookup_total_lt.
  - rewrite for_loop_S, IH, seq_S, List.filter_app, !fold_left_app.
    unfold goal_add_species at 1. simpl.
    case_bool_decide; simpl; [|done].
    by rewrite list_lookup_total_insert_eq, list_insert_insert_eq.
Qed.

Lemma goal_add_species_frame (unk : list species_unknown) (fm : Array2D)
  (mol : list double) (j nsp : nat) (st : double * list double) :
  length (for_loop nsp (goal_add_species unk fm mol j) st).2 = length st.2 /\
  forall j', j' <> j ->
    (for_loop nsp (goal_add_species unk fm mol j) st).2 !!! j' = st.2 !!! j'.
Proof.
  apply (for_loop_inv
           (fun _ (si : double * list double) =>
              length si.2 = length st.2 /\
              forall j', j' <> j -> si.2 !!! j' = st.2 !!! j')); [done|].
  intros i si _ [Hlen Hoth]. unfold goal_add_species.
  case_bool_decide; simpl; [|done].
  rewrite length_insert. split; [done|]. intros j' Hj'.
  rewrite list_lookup_total_insert_ne by done. by apply Hoth.
Qed.

(** One turn of the loop over the elements: the other slots are kept. *)
Lemma goal_element_frame (nsp : nat) (elType : list elem_type)
  (unk : list species_unknown) (fm : Array2D) (mol : list double)
  (j : nat) (st : double * list double) :
  length (goal_element nsp elType unk fm mol j st).2 = length st.2 /\
  forall j', j' <> j ->
    (goal_element nsp elType unk fm mol j st).2 !!! j' = st.2 !!! j'.
Proof.
  unfold goal_element.
  destruct (goal_add_species_frame unk fm mol j nsp
              (st.1, <[j := 0%float]> st.2)) as [Hlen Hoth].
  simpl in Hlen, Hoth. rewrite length_insert in Hlen.
  destruct (_ && _); simpl.
  - rewrite length_insert. split; [done|]. intros j' Hj'.
    rewrite list_lookup_total_insert_ne by done.
    rewrite Hoth by done. by rewrite list_lookup_total_insert_ne.
  - split; [done|]. intros j' Hj'.
    rewrite Hoth by done. by rewrite list_lookup_total_insert_ne.
Qed.

(** One turn of the loop over the elements: slot [j] holds the sum, or
    0.0 for a lattice ratio element. *)
Lemma goal_element_slot (nsp : nat) (elType : list elem_type)
  (unk : list species_unknown) (fm : Array2D) (mol : list double)
  (j : nat) (st : double * list double) :
  j < length st.2 ->
  let g := (goal_element nsp elType unk fm mol j st).2 !!! j in
  (elType !!! j <> VCS_ELEM_TYPE_LATTICERATIO ->
   g = abundance_sum nsp unk fm mol j) /\
  (g = abundance_sum nsp unk fm mol j \/
   elType !!! j = VCS_ELEM_TYPE_LATTICERATIO /\ g = 0%float).
Proof.
  intros Hj. unfold goal_element.
  rewrite goal_species_loop by (by rewrite length_insert).
  rewrite list_lookup_total_insert_eq, list_insert_insert_eq by done.
  cbn [fst snd]. rewrite list_lookup_total_insert_eq by done.
  fold (non_voltage unk). fold (abundance_sum nsp unk fm mol j).
  case_bool_decide as Hty; simpl.
  - destruct (dlt _ _); simpl.
    + rewrite list_insert_insert_eq, list_lookup_total_insert_eq by done.
      split; [done|by right].
    + rewrite list_lookup_total_insert_eq by done. split; [done|by left].
  - rewrite list_lookup_total_insert_eq by done. split; [done|by left].
Qed.

Lemma goal_from_estimate_spec (nelem nsp : nat) (elType : list elem_type)
  (unk : list species_unknown) (fm : Array2D) (mol : list double)
  (goal0 : list double) :
  goal_inv nsp elType unk fm mol goal0 nelem
    (for_loop nelem (goal_element nsp elType unk fm mol) (0%float, goal0)).
Proof.
  apply (for_loop_inv (goal_inv nsp elType unk fm mol goal0)).
  - split; [done|]. intros j Hj. lia.
  - intros i si _ [Hlen Hdone].
    destruct (goal_element_frame nsp elType unk fm mol i si) as [Hl Hoth].
    split; [congruence|]. intros j Hj Hjl.
    destruct (decide (j = i)) as [->|Hne].
    + apply goal_element_slot. lia.
    + rewrite Hoth by done. apply Hdone; [lia|done].
Qed.

End GoalAbundances.

(** *** The initial mole fractions of a phase *)

Section InitialMoleFractions.
Import Vcs.







End InitialMoleFractions.

(** ** vcs_prob_update *)

Section WriteBack.
Import Vcs.
Context `{Externals}.

(** The search stops at the first index that maps to [i]. *)
Lemma search_k1_first (speciesMapIndex : list nat) (i n a k0 j : nat) :
  a <= j < a + n ->
  speciesMapIndex !!! j = i ->
  (forall j', a <= j' < j -> speciesMapIndex !!! j' <> i) ->
  search_k1 speciesMapIndex i (seq a n) k0 = j.
Proof.
  revert a k0. induction n as [|n IH]; intros a k0 Hj Hmap Hfirst; [lia|].
  simpl. case_bool_decide as Ha.
  - destruct (decide (a = j)) as [|Hne]; [done|].
    exfalso. apply (Hfirst a); [lia|done].
  - apply IH; [|done|intros j' Hj'; apply Hfirst; lia].
    destruct (decide (a = j)) as [->|]; [done|lia].
Qed.

Lemma permutation_index_unique (speciesMapIndex : list nat) (nsp j j' : nat) :
  Permutation speciesMapIndex (seq 0 nsp) ->
  j < nsp -> j' < nsp ->
  speciesMapIndex !!! j = speciesMapIndex !!! j' -> j = j'.
Proof.
  intros Hperm Hj Hj' Heq.
  assert (length speciesMapIndex = nsp) as Hlen
    by (by rewrite (Permutation_length Hperm), length_seq).
  assert (NoDup speciesMapIndex) as Hnd
    by (rewrite Hperm; apply NoDup_seq).
  eapply (NoDup_lookup _ _ _ _ Hnd).
  - apply list_lookup_lookup_total_lt. lia.
  - rewrite Heq. apply list_lookup_lookup_total_lt. lia.
Qed.

Lemma permutation_index_exists (speciesMapIndex : list nat) (nsp i : nat) :
  Permutation speciesMapIndex (seq 0 nsp) ->
  i < nsp -> exists j, j < nsp /\ speciesMapIndex !!! j = i.
Proof.
  intros Hperm Hi.
  assert (length speciesMapIndex = nsp) as Hlen
    by (by rewrite (Permutation_length Hperm), length_seq).
  assert (i ∈ speciesMapIndex) as Hin
    by (rewrite Hperm; apply elem_of_seq; lia).
  apply list_elem_of_lookup in Hin as [j Hj].
  exists j. split.
  - apply lookup_lt_Some in Hj. lia.
  - by apply list_lookup_total_correct.
Qed.

Lemma search_k1_permutation (speciesMapIndex : list nat) (nsp i j k0 : nat) :
  Permutation speciesMapIndex (seq 0 nsp) ->
  j < nsp -> speciesMapIndex !!! j = i ->
  search_k1 speciesMapIndex i (seq 0 nsp) k0 = j.
Proof.
  intros Hperm Hj Hmap. apply search_k1_first; [lia|done|].
  intros j' Hj' Heq.
  assert (j' = j); [|lia].
  eapply permutation_index_unique; eauto; [lia|congruence].
Qed.

Lemma written_back_w_spec (s : VCS_SOLVE) (i k1 : nat) :
  Permutation (m_speciesMapIndex s) (seq 0 (m_nsp s)) ->
  i < m_nsp s -> i < length (w s) ->
  k1 < m_nsp s -> m_speciesMapIndex s !!! k1 = i ->
  written_back_w s !!! i = written_back s i k1.
Proof.
  intros Hperm Hi Hlen Hk1 Hmap. unfold written_back_w.
  assert (Hinv :
    forall n, n <= m_nsp s ->
      let st := for_loop n (writeback_species s) (0, w s, m_gibbsSpecies s) in
      length st.1.2 = length (w s) /\
      forall i' j, i' < n -> i' < length (w s) -> j < m_nsp s ->
        m_speciesMapIndex s !!! j = i' ->
        st.1.2 !!! i' = written_back s i' j).
  { induction n as [|n IH]; intros Hn; [split; [done|intros; lia]|].
    destruct (IH ltac:(lia)) as [Hl Hdone].
    rewrite for_loop_S. unfold writeback_species at 1. cbn [fst snd].
    split.
    - case_bool_decide; by rewrite length_insert.
    - intros i' j Hi' Hil Hj Hm.
      destruct (decide (i' = n)) as [->|Hne].
      + rewrite (search_k1_permutation _ _ _ j) by done.
        unfold written_back.
        case_bool_decide;
          by rewrite list_lookup_total_insert_eq by (by rewrite Hl).
      + assert (forall v : double,
                  <[n := v]>
                    (for_loop n (writeback_species s)
                       (0, w s, m_gibbsSpecies s)).1.2 !!! i' =
                  written_back s i' j) as Hkeep.
        { intros v. rewrite list_lookup_total_insert_ne by done.
          apply Hdone; [lia|done..]. }
        case_bool_decide; apply Hkeep. }
  destruct (Hinv (m_nsp s) (le_n _)) as [_ Hall]. by apply Hall.
Qed.

End WriteBack.

(** *** The cross-checks of the write-back *)

Section CrossChecks.
Import Vcs.
Context `{Externals}.

(** One turn of the loop over the species of a phase. *)
Lemma update_species_spec (pubPhase vPhase : vcs_VolPhase)
  (mol w : list double) (k : nat) (st : list double * double) :
  spGlobalIndexVCS pubPhase !!! k < length st.1 ->
  match update_species pubPhase vPhase mol w k st with
  | Ok st' =>
      length st'.1 = length st.1 /\
      st'.2 = (if non_voltage_in pubPhase k
               then (st.2 + w !!! (spGlobalIndexVCS pubPhase !!! k))%float
               else st.2) /\
      mole_fraction_consistent pubPhase vPhase k /\
      voltage_consistent pubPhase vPhase mol k
  | Throw e => is_inconsistency e
  end.
Proof.
  intros Hin. unfold update_species.
  rewrite list_lookup_total_insert_eq by done.
  case_bool_decide as Hphi.
  - destruct (vcs_doubleEqual (electricPotential pubPhase) _) eqn:Hv;
      simpl; [|done].
    destruct (vcs_doubleEqual (moleFractions pubPhase !!! k) _) eqn:Hm;
      simpl; [|done].
    rewrite length_insert. split; [done|]. split; [done|].
    split; [exact Hm|]. intros _. exact Hv.
  - simpl.
    destruct (vcs_doubleEqual (moleFractions pubPhase !!! k) _) eqn:Hm;
      simpl; [|done].
    rewrite length_insert. split; [done|]. split; [done|].
    split; [exact Hm|]. intros Hk. done.
Qed.

Lemma update_species_inv_step (pubPhase vPhase : vcs_VolPhase)
  (mol w : list double) (st0 : list double * double) (n i : nat)
  (si si' : list double * double) :
  (forall k, k < n -> spGlobalIndexVCS pubPhase !!! k < length st0.1) ->
  i < n ->
  update_species_inv pubPhase vPhase mol w st0 i si ->
  update_species pubPhase vPhase mol w i si = Ok si' ->
  update_species_inv pubPhase vPhase mol w st0 (S i) si'.
Proof.
  intros Hrange Hi (Hlen & Hsum & Hchk) Hb.
  pose proof (update_species_spec pubPhase vPhase mol w i si) as Hsp.
  rewrite Hb in Hsp.
  destruct Hsp as (Hl & Hs & Hmf & Hvolt); [rewrite Hlen; by apply Hrange|].
  split; [congruence|]. split.
  - rewrite seq_S, List.filter_app, fold_left_app, <- Hsum, Hs. simpl.
    by destruct (non_voltage_in pubPhase i).
  - intros k Hk. destruct (decide (k = i)) as [->|]; [done|].
    apply Hchk. lia.
Qed.

Lemma update_species_inv_0 (pubPhase vPhase : vcs_VolPhase)
  (mol w : list double) (st0 : list double * double) :
  update_species_inv pubPhase vPhase mol w st0 0 st0.
Proof. split; [done|]. split; [done|]. intros k Hk. lia. Qed.

(** One turn of the loop over the phases. *)
Lemma update_phase_spec (mol w : list double)
  (VolPhaseList : list vcs_VolPhase) (iph : nat)
  (st : list double * list vcs_VolPhase) :
  let vPhase := VolPhaseList !!! iph in
  let pubPhase := update_pubPhase (st.2 !!! iph) vPhase in
  (forall k, k < nSpecies pubPhase ->
             spGlobalIndexVCS pubPhase !!! k < length st.1) ->
  match update_phase mol w VolPhaseList iph st with
  | Ok st' =>
      length st'.1 = length st.1 /\
      st'.2 = <[iph := pubPhase]> st.2 /\
      phase_consistent pubPhase vPhase mol w
  | Throw e => is_inconsistency e
  end.
Proof.
  intros vPhase pubPhase Hrange. unfold update_phase.
  fold vPhase. fold pubPhase.
  set (st0 := (st.1, totalMolesInert (transfer_totals (st.2 !!! iph) vPhase))).
  destruct (iterM _ _ _) as [r|e] eqn:Hloop; simpl.
  - destruct (iterM_seq_inv
                (update_species_inv pubPhase vPhase mol w st0)
                (update_species pubPhase vPhase mol w)
                (nSpecies pubPhase) st0 r)
      as [(Hlen & Hsum & Hchk) _]; try done.
    { apply update_species_inv_0. }
    { intros i si si' Hi.
      exact (update_species_inv_step pubPhase vPhase mol w st0
               (nSpecies pubPhase) i si si' Hrange Hi). }
    destruct (vcs_doubleEqual r.2 (totalMoles vPhase)) eqn:Htot; simpl;
      [|done].
    split; [done|]. split; [done|]. split; [done|].
    rewrite Hsum in Htot. exact Htot.
  - destruct (iterM_seq_Throw
                (update_species_inv pubPhase vPhase mol w st0)
                (update_species pubPhase vPhase mol w)
                (nSpecies pubPhase) st0 e)
      as (i & si & Hi & (Hlen & _) & Hb); try done.
    { apply update_species_inv_0. }
    { intros i si si' Hi.
      exact (update_species_inv_step pubPhase vPhase mol w st0
               (nSpecies pubPhase) i si si' Hrange Hi). }
    pose proof (update_species_spec pubPhase vPhase mol w i si) as Hsp.
    rewrite Hb in Hsp. apply Hsp. rewrite Hlen. by apply Hrange.
Qed.

Lemma update_phase_inv_0 (mol w : list double)
  (VolPhaseList : list vcs_VolPhase) (st0 : list double * list vcs_VolPhase) :
  update_phase_inv mol w VolPhaseList st0 0 st0.
Proof. repeat (split; [done|]). split; intros j Hj; lia. Qed.

Lemma update_phase_inv_step (mol w : list double)
  (VolPhaseList : list vcs_VolPhase) (st0 : list double * list vcs_VolPhase)
  (n i : nat) (si : list double * list vcs_VolPhase) :
  (forall iph, iph < n ->
     let pub := update_pubPhase (st0.2 !!! iph) (VolPhaseList !!! iph) in
     forall k, k < nSpecies pub ->
               spGlobalIndexVCS pub !!! k < length st0.1) ->
  i < n ->
  update_phase_inv mol w VolPhaseList st0 i si ->
  match update_phase mol w VolPhaseList i si with
  | Ok si' => update_phase_inv mol w VolPhaseList st0 (S i) si'
  | Throw e => is_inconsistency e
  end.
Proof.
  intros Hrange Hi (Hlen & Hlen2 & Hrest & Hdone & Hchk).
  pose proof (update_phase_spec mol w VolPhaseList i si) as Hsp.
  cbn zeta in Hsp. rewrite (Hrest i) in Hsp by lia.
  specialize (Hsp ltac:(rewrite Hlen; by apply Hrange)).
  destruct (update_phase mol w VolPhaseList i si) as [si'|e]; [|done].
  destruct Hsp as (Hl & Hs & Hcons).
  split; [congruence|]. rewrite Hs.
  split; [by rewrite length_insert|]. split; [|split].
  - intros j Hj. rewrite list_lookup_total_insert_ne by lia.
    apply Hrest. lia.
  - intros j Hj Hjl. destruct (decide (j = i)) as [->|Hne].
    + by rewrite list_lookup_total_insert_eq by (by rewrite Hlen2).
    + rewrite list_lookup_total_insert_ne by done. apply Hdone; [lia|done].
  - intros j Hj. destruct (decide (j = i)) as [->|Hne]; [done|].
    apply Hchk. lia.
Qed.

(** C7. On a write-back that ends normally the three cross-checks hold
    for every phase and every species of it: the mole fraction written
    back equals the one of the private phase, the potential of the phase
    equals the solver's entry of the species that carries the voltage
    unknown, and the inert moles plus the mole numbers written back
    equal the total moles of the phase. If one of them fails for some
    phase, the write-back throws, and what it throws is one of the three
    inconsistency errors. *)
Theorem vcs_prob_update_cross_checks (s : VCS_SOLVE) :
  let s1 := vcs_tmoles s in
  (forall iph, iph < m_numPhases s1 ->
     forall k, k < nSpecies (public_phase s1 iph) ->
       spGlobalIndexVCS (public_phase s1 iph) !!! k < length (mf s1)) ->
  (forall rc s', vcs_prob_update s = Ok (rc, s') ->
     forall iph, iph < m_numPhases s1 ->
       phase_consistent (public_phase s1 iph) (private_phases s1 !!! iph)
         (m_molNumSpecies_old s1) (written_back_w s1) /\
       (iph < length (VPhaseList s1) ->
        VPhaseList s' !!! iph = public_phase s1 iph)) /\
  (forall iph, iph < m_numPhases s1 ->
     ~ phase_consistent (public_phase s1 iph) (private_phases s1 !!! iph)
         (m_molNumSpecies_old s1) (written_back_w s1) ->
     exists e, vcs_prob_update s = Throw e /\ is_inconsistency e) /\
  (forall e, vcs_prob_update s = Throw e -> is_inconsistency e).
Proof.
  intros s1 Hrange.
  set (mol := m_molNumSpecies_old s1).
  set (st0 := (mf s1, VPhaseList s1)).
  assert (Hstep : forall i si si', i < m_numPhases s1 ->
            update_phase_inv mol (written_back_w s1) (private_phases s1)
              st0 i si ->
            update_phase mol (written_back_w s1) (private_phases s1) i si
            = Ok si' ->
            update_phase_inv mol (written_back_w s1) (private_phases s1)
              st0 (S i) si').
  { intros i si si' Hi Hinv Hb.
    pose proof (update_phase_inv_step mol (written_back_w s1)
                  (private_phases s1) st0 (m_numPhases s1) i si
                  Hrange Hi Hinv) as Hsp.
    by rewrite Hb in Hsp. }
  assert (Hok : forall rc s', vcs_prob_update s = Ok (rc, s') ->
     forall iph, iph < m_numPhases s1 ->
       phase_consistent (public_phase s1 iph) (private_phases s1 !!! iph)
         mol (written_back_w s1) /\
       (iph < length (VPhaseList s1) ->
        VPhaseList s' !!! iph = public_phase s1 iph)).
  { intros rc s'. unfold vcs_prob_update. fold s1.
    fold (private_phases s1). fold (written_back_w s1). fold mol. fold st0.
    destruct (iterM _ _ _) as [r|] eqn:Hloop; simpl; [|done].
    intros [= _ <-] iph Hiph. cbn [VPhaseList].
    destruct (iterM_seq_inv _ _ _ _ _
                (update_phase_inv_0 mol (written_back_w s1)
                   (private_phases s1) st0) Hstep Hloop)
      as [(_ & _ & _ & Hdone & Hchk) _].
    split; [by apply Hchk|]. intros Hl. by apply Hdone. }
  assert (Hthrow : forall e, vcs_prob_update s = Throw e ->
                             is_inconsistency e).
  { intros e. unfold vcs_prob_update. fold s1.
    fold (private_phases s1). fold (written_back_w s1). fold mol. fold st0.
    destruct (iterM _ _ _) as [r|e'] eqn:Hloop; simpl; [done|].
    intros [= <-].
    destruct (iterM_seq_Throw _ _ _ _ _
                (update_phase_inv_0 mol (written_back_w s1)
                   (private_phases s1) st0) Hstep Hloop)
      as (i & si & Hi & Hinv & Hb).
    pose proof (update_phase_inv_step mol (written_back_w s1)
                  (private_phases s1) st0 (m_numPhases s1) i si
                  Hrange Hi Hinv) as Hsp.
    by rewrite Hb in Hsp. }
  split; [done|]. split; [|done].
  intros iph Hiph Hbad.
  destruct (vcs_prob_update s) as [[rc s']|e] eqn:Hrun.
  - destruct (Hok rc s' eq_refl iph Hiph) as [Hcons _]. done.
  - exists e. split; [done|]. by apply Hthrow.
Qed.

End CrossChecks.

(** ** The timing switch *)

Section Timing.
Import Vcs.

Lemma vcs_prob_specifyFully_timing (s : VCS_SOLVE) :
  m_timing_print_lvl (vcs_prob_specifyFully s).2 = m_timing_print_lvl s.
Proof. reflexivity. Qed.

Lemma construct_solvers (pre : VCS_SOLVE) (q : Process) :
  vcs_timing_print_lvl (construct pre q) = vcs_timing_print_lvl q /\
  (solvers (construct pre q) = solvers q \/
   exists s, solvers (construct pre q) = solvers q ++ [s] /\
             m_timing_print_lvl s =
             if (vcs_timing_print_lvl q =? 0)%Z then 0%Z else 1%Z).
Proof.
  unfold construct.
  destruct (VCS_SOLVE_finish _) as [s|] eqn:E; simpl; [|by split; [|left]].
  split; [done|]. right. exists s. split; [done|].
  apply VCS_SOLVE_finish_Ok in E
    as (_ & _ & _ & _ & _ & _ & _ & _ & _ & _ & _ & _ & ->).
  reflexivity.
Qed.

Lemma timing_inv_disable (p : Process) : timing_inv p (disableTiming p).
Proof.
  split; [done|]. split; [done|]. split.
  - intros i s Hi Hs. simpl in Hs. apply lookup_lt_Some in Hs. lia.
  - intros i s Hs. by exists s.
Qed.

Lemma timing_inv_step (p q : Process) (c : call) :
  timing_inv p q -> timing_inv p (run_call q c).
Proof.
  intros (Hg & Hlen & Hnew & Hold).
  destruct c as [pre| |i]; cbn [run_call].
  - destruct (construct_solvers pre q) as [Hg' [Hs|(s & Hs & Hlvl)]].
    + unfold timing_inv. rewrite Hg', Hs. by repeat split.
    + unfold timing_inv. rewrite Hg', Hs, Hg in *. rewrite length_app.
      split; [done|]. split; [lia|]. split.
      * intros j s' Hj Hs'.
        destruct (decide (j < length (solvers q))) as [Hlt|Hge].
        -- rewrite lookup_app_l in Hs' by done. by eapply Hnew.
        -- rewrite lookup_app_r in Hs' by lia.
           destruct (j - length (solvers q)) as [|n]; [|done].
           simpl in Hs'. by injection Hs' as <-.
      * intros j s' Hs'. destruct (Hold j s' Hs') as (s'' & Hq & Hl).
        exists s''. split; [|done]. rewrite lookup_app_l; [done|].
        by eapply lookup_lt_Some.
  - by repeat split.
  - destruct (solvers q !! i) as [s|] eqn:E; [|by repeat split].
    unfold timing_inv. cbn [vcs_timing_print_lvl solvers].
    rewrite length_insert.
    split; [done|]. split; [done|]. split.
    + intros j s' Hj Hs'.
      destruct (decide (i = j)) as [->|Hne].
      * rewrite list_lookup_insert_eq in Hs' by (by eapply lookup_lt_Some).
        assert ((vcs_prob_specifyFully s).2 = s') as <- by congruence.
        rewrite vcs_prob_specifyFully_timing. by eapply Hnew.
      * rewrite list_lookup_insert_ne in Hs' by done. by eapply Hnew.
    + intros j s' Hs'. destruct (Hold j s' Hs') as (s'' & Hq & Hl).
      destruct (decide (i = j)) as [->|Hne].
      * exists (vcs_prob_specifyFully s).2.
        rewrite list_lookup_insert_eq by (by eapply lookup_lt_Some).
        split; [done|]. rewrite vcs_prob_specifyFully_timing.
        congruence.
      * exists s''. by rewrite list_lookup_insert_ne.
Qed.

(** C9, as the code has it. After [disableTiming], whatever the clients
    of the class go on to do, the global level stays 0, every solver
    constructed after the call has the timing print level 0, and a
    solver that existed at the time of the call keeps the level it
    had. *)
Theorem disableTiming_later_solvers (p : Process) (cs : list call) :
  let p' := run cs (disableTiming p) in
  vcs_timing_print_lvl p' = 0%Z /\
  (forall i s, length (solvers p) <= i -> solvers p' !! i = Some s ->
               m_timing_print_lvl s = 0%Z) /\
  (forall i s, solvers p !! i = Some s ->
               exists s', solvers p' !! i = Some s' /\
                          m_timing_print_lvl s' = m_timing_print_lvl s).
Proof.
  cbn zeta.
  assert (Hinv : forall q, timing_inv p q -> timing_inv p (run cs q)).
  { unfold run. induction cs as [|c cs IH]; intros q Hq; [done|].
    simpl. apply IH. by apply timing_inv_step. }
  destruct (Hinv _ (timing_inv_disable p)) as (Hg & _ & Hnew & Hold).
  by repeat split.
Qed.

End Timing.

(** ** The theorems at work on the example data *)

Section Instances.
Import ImportKinetics Vcs Examples.
#[local] Open Scope string_scope.

(** The lexical comparison takes the id "10" for one between "1" and "5",
    and leaves "7" out. *)
Example include_1_to_5 :
  @installReactionArrays example_lookup (ctml [include "1" "5"])
    (phase_node [include "1" "5"]) [] false =
  ([skipUndeclaredSpecies true; addReaction (rxn "1"); addReaction (rxn "2");
    addReaction (rxn "10"); finalize], true).
Proof. reflexivity. Qed.

(** A wildcard selects the ids that start with what precedes it. *)
Example include_wildcard :
  @installReactionArrays example_lookup (ctml [include "su*" "su*"])
    (phase_node [include "su*" "su*"]) [] true =
  ([skipUndeclaredSpecies true; addReaction (rxn "surf_1"); checkDuplicates;
    finalize], true).
Proof. reflexivity. Qed.

(** Two directives that select the same reaction add it twice. *)
Example include_twice :
  (@installReactionArrays example_lookup
     (ctml [include "7" "7"; include "5" "9"])
     (phase_node [include "7" "7"; include "5" "9"]) [] false).1 =
  [skipUndeclaredSpecies true; addReaction (rxn "7"); addReaction (rxn "7");
   finalize].
Proof. reflexivity. Qed.

Example no_reactionArray :
  @installReactionArrays example_lookup (ctml []) reactionData [] true =
  ([finalize], false).
Proof. reflexivity. Qed.

Example solver_constructed : VCS_SOLVE_finish solver_pre = Ok solver.
Proof. vm_compute. reflexivity. Qed.

Example solver_goal :
  m_elemAbundancesGoal solver = [2.5%float; 0%float].
Proof. reflexivity. Qed.

Example solver_zero_row_thrown :
  VCS_SOLVE_finish solver_zero_row = Throw (Zero_formula_matrix 1).
Proof. vm_compute. reflexivity. Qed.

Example gas_mole_fractions :
  init_phase_moles mixture gas_tp gas_vp species_loop_start =
  Ok {| sl_w := [1%float; 0.5%float; 0%float];
        sl_mf := [(1 / 1.5)%float; (0.5 / 1.5)%float; 0%float];
        sl_SpeciesUnknownType :=
          [VCS_SPECIES_TYPE_MOLNUM; VCS_SPECIES_TYPE_MOLNUM;
           VCS_SPECIES_TYPE_MOLNUM];
        tMoles := 1.5%float; kT := 2 |}.
Proof. vm_compute. reflexivity. Qed.

Example solver_specified :
  map exists_ (VPhaseList (vcs_prob_specifyFully solver).2) =
  [VCS_PHASE_EXIST_YES; VCS_PHASE_EXIST_ALWAYS].
Proof. reflexivity. Qed.

Example solver_written_back :
  (fun r => w r.2) <$>
    (match @vcs_prob_update example_externals solver with
     | Ok r => Some r
     | Throw _ => None
     end) = Some [1%float; 0.5%float; 0%float].
Proof. vm_compute. reflexivity. Qed.

(** The lattice ratio guard on members set by hand (the constructor
    itself never has [m_doEstimateEquil] at 0): with the coefficients 1
    and -1 and the mole numbers 1 and 2 the sum is -1, and the goal
    abundance is 0.0. *)
Lemma goal_abundance_lattice_ratio_clamped :
  formulate_goal [] 1 2 0 lattice_elType lattice_unk lattice_fm lattice_mol
    [5%float] = Ok [0%float] /\
  abundance_sum 2 lattice_unk lattice_fm lattice_mol 0 = (-1)%float /\
  [0%float] !!! 0 <> abundance_sum 2 lattice_unk lattice_fm lattice_mol 0.
Proof.
  split; [by vm_compute|]. split; [by vm_compute|].
  intros Heq. apply (f_equal (fun x => PrimFloat.ltb x 0)) in Heq.
  vm_compute in Heq. discriminate.
Qed.

(** The metal of the example always exists, its gas exists. *)
Lemma vcs_prob_specifyFully_existence_witness :
  exists_ (VPhaseList (vcs_prob_specifyFully solver).2 !!! 1) =
  VCS_PHASE_EXIST_ALWAYS /\
  exists_ (VPhaseList (vcs_prob_specifyFully solver).2 !!! 0) =
  VCS_PHASE_EXIST_YES.
Proof.
  split.
  - apply (vcs_prob_specifyFully_existence solver 1);
      [simpl; lia|simpl; lia|by vm_compute].
  - assert (0 < m_numPhases solver) as H0 by (simpl; lia).
    assert (0 < length (VPhaseList solver)) as H1 by (simpl; lia).
    destruct (vcs_prob_specifyFully_existence solver 0 H0 H1) as [_ Hgas].
    apply Hgas; [|by vm_compute].
    intros [Hone _]. vm_compute in Hone. discriminate.
Defined.

(** The species of empty composition is rejected. *)
Lemma zero_formula_row_rejected_witness :
  exists e, VCS_SOLVE_finish solver_zero_row = Throw e.
Proof.
  destruct (zero_formula_row_rejected solver_zero_row) as [Hzero _].
  apply (Hzero 1); [simpl; lia|].
  intros [|[|j]] Hj; [reflexivity|reflexivity|simpl in Hj; lia].
Defined.


(** Three species and two elements leave one reaction. *)
Lemma vcs_prob_specifyFully_numRxnTot_witness :
  m_numRxnTot (vcs_prob_specifyFully solver).2 =
  m_nsp (vcs_prob_specifyFully solver).2 -
  m_nelem (vcs_prob_specifyFully solver).2 /\
  m_numRxnRdc (vcs_prob_specifyFully solver).2 =
  m_numRxnTot (vcs_prob_specifyFully solver).2.
Proof.
  assert (Z.of_nat (m_nsp solver) < 2 ^ 64)%Z as Hsz by (by vm_compute).
  destruct (vcs_prob_specifyFully_numRxnTot solver Hsz)
    as (_ & _ & _ & _ & Hle & Hrdc).
  split; [apply Hle; simpl; lia|exact Hrdc].
Defined.


(** The gas of the example passes the cross-checks. *)
Lemma vcs_prob_update_cross_checks_witness :
  @phase_consistent example_externals
    (@public_phase example_externals solver 0)
    (@private_phases example_externals solver !!! 0)
    (m_molNumSpecies_old solver) (written_back_w solver).
Proof.
  assert (forall iph, iph < m_numPhases solver ->
            forall k, k < nSpecies (@public_phase example_externals solver iph) ->
              spGlobalIndexVCS (@public_phase example_externals solver iph)
                !!! k < length (mf solver)) as Hrange.
  { intros [|[|iph]] Hiph; [| |simpl in Hiph; lia].
    - intros [|[|k]] Hk; [vm_compute; lia|vm_compute; lia|].
      vm_compute in Hk. lia.
    - intros [|k] Hk; [vm_compute; lia|]. vm_compute in Hk. lia. }
  destruct (@vcs_prob_update example_externals solver) as [[rc s']|e]
    eqn:Hrun; [|vm_compute in Hrun; discriminate].
  destruct (@vcs_prob_update_cross_checks example_externals solver Hrange)
    as [Hok _].
  apply (Hok rc s' Hrun 0). simpl. lia.
Defined.

(** C9, as the specification words it, fails on a solver that exists when
    [disableTiming] is called: the global level is 0, and the solver
    keeps its level 1. *)
Lemma disableTiming_existing_solver_keeps_level :
  solvers (disableTiming process_one) = [solver] /\
  vcs_timing_print_lvl (disableTiming process_one) = 0%Z /\
  m_timing_print_lvl solver = 1%Z /\
  m_timing_print_lvl solver <> 0%Z.
Proof.
  split; [by vm_compute|]. split; [reflexivity|]. split; [reflexivity|].
  discriminate.
Qed.

(** A solver constructed after [disableTiming] has the level 0, the one
    constructed before keeps the level 1. *)
Lemma disableTiming_later_solvers_witness :
  exists s0 s1,
    solvers (run [call_construct solver_pre] (disableTiming process_one))
    = [s0; s1] /\
    m_timing_print_lvl s0 = 1%Z /\ m_timing_print_lvl s1 = 0%Z.
Proof.
  destruct (disableTiming_later_solvers process_one
              [call_construct solver_pre]) as (_ & Hnew & Hold).
  destruct (solvers (run [call_construct solver_pre]
                       (disableTiming process_one)))
    as [|s0 [|s1 [|s2 rest]]] eqn:Hs;
    try (vm_compute in Hs; discriminate).
  exists s0, s1. split; [reflexivity|]. split.
  - destruct (Hold 0 solver) as (s' & Hs' & Hlvl); [by vm_compute|].
    simpl in Hs'. injection Hs' as <-. exact Hlvl.
  - apply (Hnew 1 s1); [vm_compute; lia|reflexivity].
Defined.

End Instances.

(** * More properties of the code *)

(** ** The species to phase mapping of the constructor *)

Section PhaseMapping.
Import Vcs VcsMore.

(** A loop whose turns before [i] end normally and whose turn [i] throws
    [e] throws [e]. *)
Lemma iterM_seq_first_Throw {S : Type} (P : nat -> S -> Prop)
  (body : nat -> S -> result S) (n i : nat) (s : S) (e : CanteraError) :
  P 0 s ->
  (forall j sj, j < i -> P j sj ->
                exists sj', body j sj = Ok sj' /\ P (Datatypes.S j) sj') ->
  i < n ->
  (forall si, P i si -> body i si = Throw e) ->
  iterM body (seq 0 n) s = Throw e.
Proof.
  intros H0 Hstep Hi Hthrow.
  assert (exists si, iterM body (seq 0 i) s = Ok si /\ P i si)
    as (si & Hrun & HP).
  { clear Hthrow Hi. induction i as [|i IH]; [by exists s|].
    destruct IH as (si & Hrun & HP); [intros j sj Hj; apply Hstep; lia|].
    destruct (Hstep i si ltac:(lia) HP) as (si' & Hb & HP').
    exists si'. split; [|done]. by rewrite iterM_seq_S, Hrun. }
  replace n with (i + (1 + (n - i - 1))) by lia.
  rewrite seq_app, iterM_app, Hrun. simpl. by rewrite (Hthrow si HP).
Qed.

Lemma species_in_phase_S (PhaseID : list nat) (iph n : nat) :
  species_in_phase PhaseID iph (S n) =
  species_in_phase PhaseID iph n +
  (if bool_decide (PhaseID !!! n = iph) then 1 else 0).
Proof.
  unfold species_in_phase.
  rewrite seq_S, List.filter_app, length_app. simpl.
  by case_bool_decide.
Qed.

Lemma phase_mapping_inv_0 (numPhases : nat) (PhaseID phaseID0 local0 : list nat) :
  phase_mapping_inv numPhases PhaseID phaseID0 local0 0
    (replicate numPhases 0, phaseID0, local0).
Proof.
  split; [apply length_replicate|]. split; [done|]. split; [done|]. split.
  - intros iph Hiph. simpl. by rewrite lookup_total_replicate_2.
  - repeat split; intros k Hk; lia.
Qed.

(** One turn of the loop over the species. *)
Lemma phase_mapping_species_spec (numPhases : nat)
  (PhaseID phaseID0 local0 : list nat) (i : nat)
  (st : list nat * list nat * list nat) :
  phase_mapping_inv numPhases PhaseID phaseID0 local0 i st ->
  match phase_mapping_species numPhases PhaseID i st with
  | Ok st' =>
      PhaseID !!! i < numPhases /\
      phase_mapping_inv numPhases PhaseID phaseID0 local0 (S i) st'
  | Throw e =>
      numPhases <= PhaseID !!! i /\
      e = PhaseID_bad_value i (PhaseID !!! i)
  end.
Proof.
  intros (Hn & Hp & Hl & Hcount & Hrange & Hpid & Hloc).
  unfold phase_mapping_species. case_bool_decide as Hbad; [done|].
  assert (PhaseID !!! i < numPhases) as Hin by lia.
  split; [done|]. unfold phase_mapping_inv. cbn [fst snd].
  rewrite !length_insert. repeat (split; [done|]). split; [|split; [|split]].
  - intros iph Hiph. rewrite species_in_phase_S.
    destruct (decide (PhaseID !!! i = iph)) as [<-|Hne].
    + rewrite list_lookup_total_insert_eq by lia.
      rewrite bool_decide_true by done. rewrite Hcount by done. lia.
    + rewrite list_lookup_total_insert_ne by done.
      rewrite bool_decide_false by done. rewrite Hcount by done. lia.
  - intros k Hk. destruct (decide (k = i)) as [->|]; [done|].
    apply Hrange. lia.
  - intros k Hk Hkl. destruct (decide (k = i)) as [->|].
    + by rewrite list_lookup_total_insert_eq by lia.
    + rewrite list_lookup_total_insert_ne by done. apply Hpid; [lia|done].
  - intros k Hk Hkl. destruct (decide (k = i)) as [->|].
    + rewrite list_lookup_total_insert_eq by lia. by apply Hcount.
    + rewrite list_lookup_total_insert_ne by done. apply Hloc; [lia|done].
Qed.

Lemma phase_mapping_species_step (numPhases : nat)
  (PhaseID phaseID0 local0 : list nat) (i : nat)
  (si si' : list nat * list nat * list nat) :
  phase_mapping_inv numPhases PhaseID phaseID0 local0 i si ->
  phase_mapping_species numPhases PhaseID i si = Ok si' ->
  phase_mapping_inv numPhases PhaseID phaseID0 local0 (S i) si'.
Proof.
  intros Hinv Hb.
  pose proof (phase_mapping_species_spec _ _ _ _ _ _ Hinv) as Hsp.
  rewrite Hb in Hsp. by destruct Hsp.
Qed.

(** The loop that compares the counters with the phases keeps them. *)
Lemma phase_mapping_check_spec (VPhaseList : list vcs_VolPhase) (iph : nat)
  (numPhSp : list nat) :
  match phase_mapping_check VPhaseList iph numPhSp with
  | Ok n' => n' = numPhSp /\
             numPhSp !!! iph = nSpecies (VPhaseList !!! iph)
  | Throw e => numPhSp !!! iph <> nSpecies (VPhaseList !!! iph) /\
               e = Number_of_species_in_phase_mismatch iph
  end.
Proof.
  unfold phase_mapping_check. case_bool_decide; [done|].
  split; [done|]. by destruct (decide (numPhSp !!! iph =
                                       nSpecies (VPhaseList !!! iph))).
Qed.

(** X1. When the constructor fills the species to phase mapping from a
    non-empty [PhaseID] and goes on, every species lies in a phase that
    exists, [m_phaseID] holds its phase, [m_speciesLocalPhaseIndex] holds
    the number of species before it in the same phase, and every phase
    holds as many species as its adapter says. *)
Theorem phase_mapping_Ok (numPhases nsp : nat) (PhaseID : list nat)
  (VPhaseList : list vcs_VolPhase) (phaseID0 local0 : list nat)
  (pm : list nat * list nat) :
  PhaseID <> [] -> nsp <= length PhaseID ->
  phase_mapping numPhases nsp PhaseID VPhaseList phaseID0 local0 = Ok pm ->
  (forall k, k < nsp ->
     PhaseID !!! k < numPhases /\
     (k < length phaseID0 -> pm.1 !!! k = PhaseID !!! k) /\
     (k < length local0 ->
      pm.2 !!! k = species_in_phase PhaseID (PhaseID !!! k) k)) /\
  (forall iph, iph < numPhases ->
     species_in_phase PhaseID iph nsp = nSpecies (VPhaseList !!! iph)).
Proof.
  intros Hne _ Hrun. unfold phase_mapping in Hrun.
  rewrite bool_decide_true in Hrun by (by destruct PhaseID).
  destruct (iterM (phase_mapping_species _ _) _ _) as [st|] eqn:H1;
    simpl in Hrun; [|done].
  destruct (iterM (phase_mapping_check _) _ _) as [chk|] eqn:H2;
    simpl in Hrun; [|done].
  injection Hrun as <-.
  destruct (iterM_seq_inv
              (phase_mapping_inv numPhases PhaseID phaseID0 local0)
              _ _ _ _ (phase_mapping_inv_0 _ _ _ _)
              (fun i si si' _ => phase_mapping_species_step _ _ _ _ i si si')
              H1) as [(Hn & _ & _ & Hcount & Hrange & Hpid & Hloc) _].
  split.
  - intros k Hk. repeat split; [by apply Hrange|by apply Hpid|by apply Hloc].
  - intros iph Hiph. rewrite <- Hcount by done.
    destruct (iterM_seq_inv (fun _ n' => n' = st.1.1)
                (phase_mapping_check VPhaseList) numPhases st.1.1 chk)
      as [_ Hsteps]; try done.
    { intros i si si' _ -> Hb.
      pose proof (phase_mapping_check_spec VPhaseList i st.1.1) as Hsp.
      rewrite Hb in Hsp. by destruct Hsp. }
    destruct (Hsteps iph Hiph) as (si & si' & -> & Hb).
    pose proof (phase_mapping_check_spec VPhaseList iph st.1.1) as Hsp.
    rewrite Hb in Hsp. by destruct Hsp.
Qed.

(** X2. The first species whose entry of [PhaseID] is no phase makes the
    constructor throw the bad value error for that species; when every
    entry is a phase, the first phase whose number of species differs
    from what its adapter says makes it throw the mismatch error for
    that phase. *)
Theorem phase_mapping_Throw (numPhases nsp : nat) (PhaseID : list nat)
  (VPhaseList : list vcs_VolPhase) (phaseID0 local0 : list nat) :
  PhaseID <> [] -> nsp <= length PhaseID ->
  (forall k, k < nsp -> numPhases <= PhaseID !!! k ->
     (forall k', k' < k -> PhaseID !!! k' < numPhases) ->
     phase_mapping numPhases nsp PhaseID VPhaseList phaseID0 local0 =
     Throw (PhaseID_bad_value k (PhaseID !!! k))) /\
  (forall iph, iph < numPhases ->
     (forall k, k < nsp -> PhaseID !!! k < numPhases) ->
     species_in_phase PhaseID iph nsp <> nSpecies (VPhaseList !!! iph) ->
     (forall iph', iph' < iph ->
        species_in_phase PhaseID iph' nsp = nSpecies (VPhaseList !!! iph')) ->
     phase_mapping numPhases nsp PhaseID VPhaseList phaseID0 local0 =
     Throw (Number_of_species_in_phase_mismatch iph)).
Proof.
  intros Hne _.
  assert (bool_decide (length PhaseID <> 0) = true) as Hb
    by (apply bool_decide_eq_true; by destruct PhaseID).
  assert (Hgood : forall j sj, PhaseID !!! j < numPhases ->
            phase_mapping_inv numPhases PhaseID phaseID0 local0 j sj ->
            exists sj', phase_mapping_species numPhases PhaseID j sj = Ok sj'
                        /\ phase_mapping_inv numPhases PhaseID phaseID0
                             local0 (S j) sj').
  { intros j sj Hj Hinv.
    pose proof (phase_mapping_species_spec _ _ _ _ _ _ Hinv) as Hsp.
    destruct (phase_mapping_species numPhases PhaseID j sj) as [sj'|e].
    - exists sj'. by destruct Hsp.
    - destruct Hsp. lia. }
  split.
  - intros k Hk Hbad Hfirst. unfold phase_mapping. rewrite Hb.
    rewrite (iterM_seq_first_Throw
               (phase_mapping_inv numPhases PhaseID phaseID0 local0)
               _ nsp k _ (PhaseID_bad_value k (PhaseID !!! k)));
      [done|apply phase_mapping_inv_0| |done|].
    + intros j sj Hj. apply Hgood. by apply Hfirst.
    + intros si Hinv.
      pose proof (phase_mapping_species_spec _ _ _ _ _ _ Hinv) as Hsp.
      destruct (phase_mapping_species numPhases PhaseID k si) as [si'|e].
      * destruct Hsp. lia.
      * by destruct Hsp as [_ ->].
  - intros iph Hiph Hrange Hmis Hfirst. unfold phase_mapping. rewrite Hb.
    destruct (iterM (phase_mapping_species _ _) _ _) as [st|e] eqn:H1.
    + simpl.
      destruct (iterM_seq_inv
                  (phase_mapping_inv numPhases PhaseID phaseID0 local0)
                  _ _ _ _ (phase_mapping_inv_0 _ _ _ _)
                  (fun i si si' _ => phase_mapping_species_step _ _ _ _ i si si')
                  H1) as [(_ & _ & _ & Hcount & _) _].
      rewrite (iterM_seq_first_Throw (fun _ n' => n' = st.1.1)
                 _ numPhases iph _
                 (Number_of_species_in_phase_mismatch iph));
        [done|done| |done|].
      * intros j sj Hj ->. exists st.1.1. split; [|done].
        pose proof (phase_mapping_check_spec VPhaseList j st.1.1) as Hsp.
        destruct (phase_mapping_check VPhaseList j st.1.1) as [n'|e'].
        -- by destruct Hsp as [-> _].
        -- destruct Hsp as [Hn _]. rewrite Hcount in Hn by lia.
           by specialize (Hfirst j Hj).
      * intros si ->.
        pose proof (phase_mapping_check_spec VPhaseList iph st.1.1) as Hsp.
        destruct (phase_mapping_check VPhaseList iph st.1.1) as [n'|e'].
        -- destruct Hsp as [_ Hn]. by rewrite Hcount in Hn.
        -- by destruct Hsp as [_ ->].
    + exfalso.
      destruct (iterM_seq_Throw
                  (phase_mapping_inv numPhases PhaseID phaseID0 local0)
                  _ _ _ _ (phase_mapping_inv_0 _ _ _ _)
                  (fun i si si' _ => phase_mapping_species_step _ _ _ _ i si si')
                  H1) as (i & si & Hi & Hinv & Hbi).
      pose proof (phase_mapping_species_spec _ _ _ _ _ _ Hinv) as Hsp.
      rewrite Hbi in Hsp. destruct Hsp as [Hbad _].
      specialize (Hrange i Hi). lia.
Qed.

(** X3. Without a [PhaseID] vector the constructor accepts a single
    phase only: every species is put in phase 0 with its own index as
    local index; with any other number of phases it throws. *)
Theorem phase_mapping_no_PhaseID (numPhases nsp : nat)
  (VPhaseList : list vcs_VolPhase) (phaseID0 local0 : list nat) :
  (numPhases = 1 ->
   exists pm,
     phase_mapping numPhases nsp [] VPhaseList phaseID0 local0 = Ok pm /\
     forall k, k < nsp ->
       (k < length phaseID0 -> pm.1 !!! k = 0) /\
       (k < length local0 -> pm.2 !!! k = k)) /\
  (numPhases <> 1 ->
   phase_mapping numPhases nsp [] VPhaseList phaseID0 local0 =
   Throw PhaseID_not_defined).
Proof.
  unfold phase_mapping. simpl. split.
  - intros ->. simpl. eexists. split; [reflexivity|].
    apply (for_loop_inv
             (fun i (st : list nat * list nat) =>
                length st.1 = length phaseID0 /\
                length st.2 = length local0 /\
                forall k, k < i ->
                  (k < length phaseID0 -> st.1 !!! k = 0) /\
                  (k < length local0 -> st.2 !!! k = k))).
    + repeat split; try done; intros; lia.
    + intros i si _ (Hl1 & Hl2 & Hdone). cbn [fst snd].
      rewrite !length_insert. split; [done|]. split; [done|].
      intros k Hk. destruct (decide (k = i)) as [->|Hne].
      * split; intros Hkl; by rewrite list_lookup_total_insert_eq by lia.
      * rewrite !list_lookup_total_insert_ne by done. apply Hdone. lia.
  - intros Hne. by rewrite bool_decide_false.
Qed.

End PhaseMapping.

(** ** The explicit goal abundances and the private copies *)

Section ConstructorCopies.
Import Vcs VcsMore.

(** X4. With an explicit goal vector [gai] the goal abundance of every
    element is its entry of [gai], copied as it is, except that a lattice
    ratio entry below 1.0E-10 (a negative one too) becomes 0.0; the block
    does not throw, whatever [m_doEstimateEquil], and it keeps the slots
    beyond the elements. *)
Theorem goal_abundances_from_gai (gai : list double) (nelem nsp : nat)
  (est : Z) (elType : list elem_type) (unk : list species_unknown)
  (fm : list (list double)) (mol goal0 : list double) :
  gai <> [] -> nelem <= length gai ->
  exists goal,
    formulate_goal gai nelem nsp est elType unk fm mol goal0 = Ok goal /\
    length goal = length goal0 /\
    (forall i, i < nelem -> i < length goal0 ->
               goal !!! i = goal_of_gai (elType !!! i) (gai !!! i)) /\
    (forall i, nelem <= i -> goal !!! i = goal0 !!! i).
Proof.
  intros Hne _. unfold formulate_goal.
  rewrite bool_decide_true by (by destruct gai).
  eexists. split; [reflexivity|]. unfold goal_from_gai.
  apply (for_loop_inv
           (fun n (g : list double) =>
              length g = length goal0 /\
              (forall i, i < n -> i < length goal0 ->
                         g !!! i = goal_of_gai (elType !!! i) (gai !!! i)) /\
              (forall i, n <= i -> g !!! i = goal0 !!! i))).
  - split; [done|]. split; [intros i Hi; lia|done].
  - intros n g _ (Hlen & Hdone & Hrest).
    assert (forall v : double, length (<[n := v]> g) = length goal0) as Hl
      by (intros v; by rewrite length_insert).
    destruct (decide (n < length goal0)) as [Hin|Hout].
    + rewrite list_lookup_total_insert_eq by lia.
      fold (goal_of_gai (elType !!! n) (gai !!! n)).
      assert (forall v : double,
                <[n := v]> (<[n := gai !!! n]> g) = <[n := v]> g) as Hii
        by (intros v; apply list_insert_insert_eq).
      assert (Hres :
        (if bool_decide (elType !!! n = VCS_ELEM_TYPE_LATTICERATIO)
            && dlt (gai !!! n) 1.0E-10
         then <[n := 0%float]> (<[n := gai !!! n]> g)
         else <[n := gai !!! n]> g) =
        <[n := goal_of_gai (elType !!! n) (gai !!! n)]> g).
      { unfold goal_of_gai. destruct (_ && _); [apply Hii|done]. }
      rewrite Hres. split; [apply Hl|]. split.
      * intros i Hi Hil. destruct (decide (i = n)) as [->|Hne'].
        -- by rewrite list_lookup_total_insert_eq by lia.
        -- rewrite list_lookup_total_insert_ne by done.
           apply Hdone; [lia|done].
      * intros i Hi. rewrite list_lookup_total_insert_ne by lia.
        apply Hrest. lia.
    + rewrite !list_insert_ge by (rewrite ?length_insert; lia).
      assert (forall b : bool, (if b then <[n := 0%float]> g else g) = g)
        as Hnop by (intros []; [apply list_insert_ge; lia|done]).
      rewrite list_insert_ge in Hnop by lia. rewrite Hnop.
      split; [done|]. split.
      * intros i Hi Hil. apply Hdone; [lia|done].
      * intros i Hi. apply Hrest. lia.
Qed.

(** A loop that stores [f i] in slot [i] of a vector of [n] slots leaves
    the list of the [f i]. *)
Lemma for_loop_fill {A : Type} (f : nat -> A) (n : nat) (v : list A) :
  length v = n ->
  for_loop n (fun i v => <[i := f i]> v) v = map f (seq 0 n).
Proof.
  intros Hlen.
  assert (length (for_loop n (fun i v => <[i := f i]> v) v) = n /\
          forall k, k < n ->
            for_loop n (fun i v => <[i := f i]> v) v !! k = Some (f k))
    as [Hl Hall].
  { apply (for_loop_inv
             (fun i (u : list A) =>
                length u = n /\ forall k, k < i -> u !! k = Some (f k))).
    - split; [done|]. intros k Hk. lia.
    - intros i u Hi [Hu Hdone]. rewrite length_insert. split; [done|].
      intros k Hk. destruct (decide (k = i)) as [->|Hne].
      + by rewrite list_lookup_insert_eq by lia.
      + rewrite list_lookup_insert_ne by done. apply Hdone. lia. }
  apply (list_eq_same_length _ _ n); [by rewrite length_map, length_seq|done|].
  intros i x y Hi Hx Hy. rewrite Hall in Hx by done.
  rewrite list_lookup_fmap, lookup_seq_lt in Hy by done. simpl in Hy.
  congruence.
Qed.

(** The members a construction that ends normally has written without a
    test. *)
Lemma VCS_SOLVE_finish_written (s s' : VCS_SOLVE) :
  VCS_SOLVE_finish s = Ok s' ->
  m_speciesMapIndex s' =
    for_loop (m_nsp s) (fun i v => <[i := i]> v) (m_speciesMapIndex s) /\
  m_elementMapIndex s' =
    for_loop (m_nelem s) (fun i v => <[i := i]> v) (m_elementMapIndex s) /\
  m_speciesStatus s' =
    for_loop (m_nsp s) (fun i v => <[i := VCS_SPECIES_MAJOR]> v)
      (m_speciesStatus s) /\
  m_VolPhaseList s' =
    for_loop (m_numPhases s) (fun iph v => <[iph := VPhaseList s !!! iph]> v)
      (m_VolPhaseList s) /\
  TPhInertMoles s' =
    for_loop (m_numPhases s)
      (fun iph v => <[iph := totalMolesInert (VPhaseList s !!! iph)]> v)
      (TPhInertMoles s) /\
  m_molNumSpecies_old s' = (copy_estimate s).1 /\
  m_speciesUnknownType s' = SpeciesUnknownType s /\
  m_nsp s' = m_nsp s /\ w s' = w s /\ VPhaseList s' = VPhaseList s.
Proof.
  unfold VCS_SOLVE_finish. intros Hrun.
  destruct (formulate_goal _ _ _ _ _ _ _ _ _) as [goal|]; simpl in Hrun;
    [|done].
  destruct (phase_mapping _ _ _ _ _ _) as [pm|]; simpl in Hrun; [|done].
  destruct (charge_neutrality _ _ _) as [goal'|]; simpl in Hrun; [|done].
  destruct (copy_formula_matrix _ _ _ _) as [fm|]; simpl in Hrun; [|done].
  by injection Hrun as <-.
Qed.

(** X5. A solver that has just been constructed starts from the identity
    rotation of its species and of its elements, with every species
    major; its private phases are the public ones, its mole numbers are
    the public estimate [w], and the inert moles are those of the
    phases. In particular [m_speciesMapIndex] is a permutation of the
    species. *)
Theorem VCS_SOLVE_finish_identity (s s' : VCS_SOLVE) :
  VCS_SOLVE_finish s = Ok s' ->
  length (m_speciesMapIndex s) = m_nsp s ->
  length (m_elementMapIndex s) = m_nelem s ->
  length (m_speciesStatus s) = m_nsp s ->
  length (m_VolPhaseList s) = m_numPhases s ->
  length (VPhaseList s) = m_numPhases s ->
  length (TPhInertMoles s) = m_numPhases s ->
  w s <> [] ->
  m_speciesMapIndex s' = seq 0 (m_nsp s') /\
  Permutation (m_speciesMapIndex s') (seq 0 (m_nsp s')) /\
  m_elementMapIndex s' = seq 0 (m_nelem s) /\
  m_speciesStatus s' = replicate (m_nsp s') VCS_SPECIES_MAJOR /\
  m_VolPhaseList s' = VPhaseList s' /\
  TPhInertMoles s' = map totalMolesInert (VPhaseList s') /\
  m_molNumSpecies_old s' = w s'.
Proof.
  intros Hrun Hsp Hel Hst Hvp Hpub Hin Hw.
  destruct (VCS_SOLVE_finish_written s s' Hrun)
    as (-> & -> & -> & -> & -> & -> & _ & -> & -> & ->).
  rewrite !for_loop_fill by done.
  assert (map (fun i : nat => i) (seq 0 (m_nsp s)) = seq 0 (m_nsp s)) as ->
    by apply map_id.
  assert (map (fun i : nat => i) (seq 0 (m_nelem s)) = seq 0 (m_nelem s))
    as -> by apply map_id.
  split; [done|]. split; [done|]. split; [done|]. split; [|split; [|split]].
  - apply (list_eq_same_length _ _ (m_nsp s));
      [by rewrite length_replicate|by rewrite length_map, length_seq|].
    intros i x y Hi Hx Hy.
    rewrite list_lookup_fmap, lookup_seq_lt in Hx by done.
    rewrite lookup_replicate_2 in Hy by done. simpl in Hx. congruence.
  - apply (list_eq_same_length _ _ (m_numPhases s));
      [done|by rewrite length_map, length_seq|].
    intros i x y Hi Hx Hy.
    rewrite list_lookup_fmap, lookup_seq_lt in Hx by done. simpl in Hx.
    rewrite (list_lookup_lookup_total_lt (VPhaseList s) i) in Hy by lia.
    congruence.
  - apply (list_eq_same_length _ _ (m_numPhases s));
      [by rewrite length_map|by rewrite length_map, length_seq|].
    intros i x y Hi Hx Hy.
    rewrite list_lookup_fmap, lookup_seq_lt in Hx by done. simpl in Hx.
    rewrite list_lookup_fmap in Hy.
    rewrite (list_lookup_lookup_total_lt (VPhaseList s) i) in Hy by lia.
    simpl in Hy. congruence.
  - unfold copy_estimate. rewrite bool_decide_true; [done|].
    by destruct (w s).
Qed.

End ConstructorCopies.

(** ** The species loop of a phase in the constructor *)

Section SpeciesLoop.
Import Vcs VcsMore.

Lemma species_loop_inv_0 (mphase : MultiPhase) (tPhase : ThermoPhase)
  (VolPhase : vcs_VolPhase) (st0 : species_loop) :
  species_loop_inv mphase tPhase VolPhase st0 0 st0.
Proof.
  unfold species_loop_inv. rewrite Nat.add_0_r.
  repeat (split; [done|]). intros k Hk. lia.
Qed.

(** One turn of the species loop: a species of a known unknown type is
    taken over, any other type is thrown. *)
Lemma species_body_step (mphase : MultiPhase) (tPhase : ThermoPhase)
  (VolPhase : vcs_VolPhase) (st0 : species_loop) (i : nat)
  (st : species_loop) :
  species_loop_inv mphase tPhase VolPhase st0 i st ->
  kT st0 + i < length (sl_SpeciesUnknownType st0) ->
  kT st0 + i < length (sl_w st0) ->
  (known_unknown (speciesUnknownType VolPhase !!! i) = true ->
   exists st', species_body mphase tPhase VolPhase i st = Ok st' /\
               species_loop_inv mphase tPhase VolPhase st0 (S i) st') /\
  (known_unknown (speciesUnknownType VolPhase !!! i) = false ->
   species_body mphase tPhase VolPhase i st =
   Throw (Unknown_species_type (speciesUnknownType VolPhase !!! i))).
Proof.
  intros (HkT & Hlw & Hlmf & Hlu & Ht & Hdone) Hu Hw.
  unfold species_body. rewrite HkT.
  rewrite list_lookup_total_insert_eq by lia.
  assert (Hold : forall k, k < S i -> k <> i ->
            known_unknown (speciesUnknownType VolPhase !!! k) = true /\
            <[(kT st0 + i)%nat := speciesUnknownType VolPhase !!! i]>
              (sl_SpeciesUnknownType st) !!! (kT st0 + k)%nat =
            speciesUnknownType VolPhase !!! k /\
            forall v : double,
              <[(kT st0 + i)%nat := v]> (sl_w st) !!! (kT st0 + k)%nat =
              initial_w mphase tPhase (speciesUnknownType VolPhase !!! k)
                (kT st0 + k)).
  { intros k Hk Hne. destruct (Hdone k ltac:(lia)) as (Hkn & Hty & Hval).
    split; [done|]. split.
    - by rewrite list_lookup_total_insert_ne by lia.
    - intros v. by rewrite list_lookup_total_insert_ne by lia. }
  destruct (speciesUnknownType VolPhase !!! i) as [| |tag] eqn:E.
  - split; [intros _|done]. eexists. split; [reflexivity|].
    unfold species_loop_inv.
    cbn [kT sl_w sl_mf sl_SpeciesUnknownType tMoles].
    rewrite !length_insert.
    split; [lia|]. repeat (split; [done|]). split.
    + rewrite seq_S, List.filter_app, fold_left_app. simpl.
      rewrite E, bool_decide_true by done. simpl.
      rewrite list_lookup_total_insert_eq by lia. by rewrite Ht.
    + intros k Hk. destruct (decide (k = i)) as [->|Hne].
      * rewrite E. split; [done|].
        by rewrite !list_lookup_total_insert_eq by lia.
      * destruct (Hold k Hk Hne) as (Hkn & Hty & Hval). by rewrite Hval.
  - split; [intros _|done]. eexists. split; [reflexivity|].
    unfold species_loop_inv.
    cbn [kT sl_w sl_mf sl_SpeciesUnknownType tMoles].
    rewrite !length_insert.
    split; [lia|]. repeat (split; [done|]). split.
    + rewrite seq_S, List.filter_app, fold_left_app. simpl.
      rewrite E, bool_decide_false by done. simpl. by rewrite Ht.
    + intros k Hk. destruct (decide (k = i)) as [->|Hne].
      * rewrite E. split; [done|].
        by rewrite !list_lookup_total_insert_eq by lia.
      * destruct (Hold k Hk Hne) as (Hkn & Hty & Hval). by rewrite Hval.
  - split; [done|]. by intros _.
Qed.

(** The second loop of a phase writes mole fractions only. *)
Lemma assign_mole_fractions_frame (nSpPhase : nat) (VolPhase : vcs_VolPhase)
  (st : species_loop) :
  let st' := assign_mole_fractions nSpPhase VolPhase st in
  sl_w st' = sl_w st /\
  sl_SpeciesUnknownType st' = sl_SpeciesUnknownType st /\
  tMoles st' = tMoles st /\ kT st' = kT st.
Proof.
  unfold assign_mole_fractions.
  destruct (dgt (tMoles st) 0);
    apply (for_loop_inv
             (fun _ si =>
                sl_w si = sl_w st /\
                sl_SpeciesUnknownType si = sl_SpeciesUnknownType st /\
                tMoles si = tMoles st /\ kT si = kT st)); try done.
Qed.

(** X6. When the loops over the species of a phase end normally, the
    global counter [kT] has advanced by the species of the phase, no
    species of the phase has an unknown type other than a mole number or
    an interfacial voltage, and for the [k]th species of the phase the
    public type is the one of the phase adapter and [w] holds the moles
    of the mixture (mole number) or the electric potential of the phase
    (interfacial voltage); [tMoles] is the sum, in order and from 0, of
    the moles of the mole number species alone. *)
Theorem init_phase_moles_Ok (mphase : MultiPhase) (tPhase : ThermoPhase)
  (VolPhase : vcs_VolPhase) (st st' : species_loop) :
  init_phase_moles mphase tPhase VolPhase st = Ok st' ->
  kT st + tp_nSpecies tPhase <= length (sl_SpeciesUnknownType st) ->
  kT st + tp_nSpecies tPhase <= length (sl_w st) ->
  kT st' = kT st + tp_nSpecies tPhase /\
  tMoles st' =
  fold_left
    (fun acc k => (acc + speciesMoles mphase !!! (kT st + k)%nat)%float)
    (List.filter
       (fun k =>
          bool_decide (speciesUnknownType VolPhase !!! k
                       = VCS_SPECIES_TYPE_MOLNUM))
       (seq 0 (tp_nSpecies tPhase)))
    0%float /\
  forall k, k < tp_nSpecies tPhase ->
    known_unknown (speciesUnknownType VolPhase !!! k) = true /\
    sl_SpeciesUnknownType st' !!! (kT st + k) =
    speciesUnknownType VolPhase !!! k /\
    sl_w st' !!! (kT st + k) =
    initial_w mphase tPhase (speciesUnknownType VolPhase !!! k) (kT st + k).
Proof.
  unfold init_phase_moles. intros Hrun Hu Hw.
  set (st0 := {| sl_w := sl_w st; sl_mf := sl_mf st;
                 sl_SpeciesUnknownType := sl_SpeciesUnknownType st;
                 tMoles := 0; kT := kT st |}) in *.
  destruct (iterM _ _ st0) as [st1|] eqn:Hloop; simpl in Hrun; [|done].
  injection Hrun as <-.
  destruct (assign_mole_fractions_frame (tp_nSpecies tPhase) VolPhase st1)
    as (-> & -> & -> & ->).
  destruct (iterM_seq_inv (species_loop_inv mphase tPhase VolPhase st0)
              (species_body mphase tPhase VolPhase) (tp_nSpecies tPhase)
              st0 st1) as [(HkT & _ & _ & _ & Ht & Hall) _];
    [apply species_loop_inv_0| |done|done].
  intros i si si' Hi Hinv Hb.
  destruct (species_body_step mphase tPhase VolPhase st0 i si Hinv)
    as [Hknown Hother]; [simpl; lia..|].
  destruct (known_unknown (speciesUnknownType VolPhase !!! i)).
  - destruct (Hknown eq_refl) as (si2 & Hb2 & Hinv2). congruence.
  - rewrite (Hother eq_refl) in Hb. done.
Qed.

(** X7. The first species of a phase whose unknown type is neither a mole
    number nor an interfacial voltage ends the construction: the error
    "Unknown species type" with that type is thrown. *)
Theorem init_phase_moles_Throw (mphase : MultiPhase) (tPhase : ThermoPhase)
  (VolPhase : vcs_VolPhase) (st : species_loop) (k : nat) :
  kT st + tp_nSpecies tPhase <= length (sl_SpeciesUnknownType st) ->
  kT st + tp_nSpecies tPhase <= length (sl_w st) ->
  k < tp_nSpecies tPhase ->
  (forall j, j < k ->
             known_unknown (speciesUnknownType VolPhase !!! j) = true) ->
  known_unknown (speciesUnknownType VolPhase !!! k) = false ->
  init_phase_moles mphase tPhase VolPhase st =
  Throw (Unknown_species_type (speciesUnknownType VolPhase !!! k)).
Proof.
  intros Hu Hw Hk Hbefore Hbad. unfold init_phase_moles.
  set (st0 := {| sl_w := sl_w st; sl_mf := sl_mf st;
                 sl_SpeciesUnknownType := sl_SpeciesUnknownType st;
                 tMoles := 0; kT := kT st |}) in *.
  rewrite (iterM_seq_first_Throw
             (species_loop_inv mphase tPhase VolPhase st0)
             (species_body mphase tPhase VolPhase) (tp_nSpecies tPhase) k st0
             (Unknown_species_type (speciesUnknownType VolPhase !!! k)));
    [done|apply species_loop_inv_0| |done|].
  - intros j sj Hj Hinv.
    destruct (species_body_step mphase tPhase VolPhase st0 j sj Hinv)
      as [Hknown _]; [simpl; lia..|].
    apply Hknown, Hbefore, Hj.
  - intros si Hinv.
    destruct (species_body_step mphase tPhase VolPhase st0 k si Hinv)
      as [_ Hother]; [simpl; lia..|].
    by apply Hother.
Qed.

End SpeciesLoop.

(** ** The transfer of the chemical potentials in vcs_prob_specifyFully *)

Section SpecifiedGibbs.
Import Vcs VcsMore.

Lemma permutation_index_lt (speciesMapIndex : list nat) (nsp k : nat) :
  Permutation speciesMapIndex (seq 0 nsp) ->
  k < nsp -> speciesMapIndex !!! k < nsp.
Proof.
  intros Hperm Hk.
  assert (length speciesMapIndex = nsp) as Hlen
    by (by rewrite (Permutation_length Hperm), length_seq).
  assert (speciesMapIndex !!! k ∈ speciesMapIndex) as Hin.
  { apply (list_elem_of_lookup_2 _ k).
    apply list_lookup_lookup_total_lt. lia. }
  apply (elem_of_Permutation_proper _ _ _ Hperm), elem_of_seq in Hin. lia.
Qed.

(** [invSpecies] sends the original index of a species to the place
    the solver keeps it at. *)
Lemma invSpecies_spec (s : VCS_SOLVE) :
  Permutation (m_speciesMapIndex s) (seq 0 (m_nsp s)) ->
  length (invSpecies s) = m_nsp s /\
  forall k, k < m_nsp s -> invSpecies s !!! (m_speciesMapIndex s !!! k) = k.
Proof.
  intros Hperm. unfold invSpecies.
  apply (for_loop_inv
           (fun i (inv : list nat) =>
              length inv = m_nsp s /\
              forall k, k < i -> inv !!! (m_speciesMapIndex s !!! k) = k)).
  - split; [by rewrite length_replicate|]. intros k Hk. lia.
  - intros i inv Hi [Hlen Hdone]. rewrite length_insert. split; [done|].
    intros k Hk. destruct (decide (k = i)) as [->|Hne].
    + rewrite list_lookup_total_insert_eq; [done|].
      rewrite Hlen. by apply permutation_index_lt.
    + rewrite list_lookup_total_insert_ne; [apply Hdone; lia|].
      intros Heq. apply Hne. symmetry.
      apply (permutation_index_unique _ _ _ _ Hperm); [lia..|done].
Qed.

Lemma invSpecies_map (s : VCS_SOLVE) (g : nat) :
  Permutation (m_speciesMapIndex s) (seq 0 (m_nsp s)) ->
  g < m_nsp s ->
  invSpecies s !!! g < m_nsp s /\
  m_speciesMapIndex s !!! (invSpecies s !!! g) = g.
Proof.
  intros Hperm Hg.
  destruct (permutation_index_exists _ _ _ Hperm Hg) as (j & Hj & Hmap).
  destruct (invSpecies_spec s Hperm) as [_ Hinv].
  subst g. rewrite (Hinv j Hj). by split.
Qed.

Lemma species_offset_S (mix : MultiPhase) (i : nat) :
  species_offset mix (S i) =
  species_offset mix i + tp_nSpecies (phase mix !!! i).
Proof.
  unfold species_offset.
  destruct (decide (i < length (phase mix))) as [Hin|Hout].
  - rewrite (take_S_r _ _ (phase mix !!! i))
      by (by apply list_lookup_lookup_total_lt).
    by rewrite fold_left_app.
  - rewrite !take_ge by lia.
    rewrite list_lookup_total_alt, lookup_ge_None_2 by lia. simpl. lia.
Qed.

Lemma species_offset_mono (mix : MultiPhase) (p i : nat) :
  p <= i -> species_offset mix p <= species_offset mix i.
Proof.
  induction 1 as [|i Hle IH]; [done|]. rewrite species_offset_S. lia.
Qed.

(** The loop over the species of one phase writes the chemical
    potentials of the phase at the places [inv] gives, and nothing
    else. *)
Lemma specify_species_loop (inv : list nat) (muPhase : list double)
  (n kT0 : nat) (g0 : list double) :
  (forall k, k < n -> inv !!! (kT0 + k) < length g0) ->
  (forall k k', k < n -> k' < n ->
                inv !!! (kT0 + k) = inv !!! (kT0 + k') -> k = k') ->
  let sp := for_loop n
              (fun k (sp : nat * list double) =>
                 (S sp.1, <[inv !!! sp.1 := muPhase !!! k]> sp.2))
              (kT0, g0) in
  sp.1 = kT0 + n /\ length sp.2 = length g0 /\
  (forall k, k < n -> sp.2 !!! (inv !!! (kT0 + k)) = muPhase !!! k) /\
  (forall j, (forall k, k < n -> j <> inv !!! (kT0 + k)) ->
             sp.2 !!! j = g0 !!! j).
Proof.
  intros Hlt Hinj. cbn zeta.
  apply (for_loop_inv
           (fun i (sp : nat * list double) =>
              sp.1 = kT0 + i /\ length sp.2 = length g0 /\
              (forall k, k < i ->
                         sp.2 !!! (inv !!! (kT0 + k)) = muPhase !!! k) /\
              (forall j, (forall k, k < n -> j <> inv !!! (kT0 + k)) ->
                         sp.2 !!! j = g0 !!! j))).
  - simpl. split; [lia|]. split; [done|]. split; [intros k Hk; lia|done].
  - intros i [kTi g] Hi (HkT & Hlen & Hdone & Hframe). simpl in *.
    subst kTi. rewrite length_insert. split; [lia|]. split; [done|]. split.
    + intros k Hk. destruct (decide (k = i)) as [->|Hne].
      * rewrite list_lookup_total_insert_eq; [done|].
        rewrite Hlen. by apply Hlt.
      * rewrite list_lookup_total_insert_ne; [apply Hdone; lia|].
        intros Heq. apply Hne. apply Hinj; [lia|done|done].
    + intros j Hj. rewrite list_lookup_total_insert_ne; [by apply Hframe|].
      intros Heq. by apply (Hj i Hi).
Qed.

(** X8. [vcs_prob_specifyFully] hands the solver the chemical potential
    of every species of the mixture at the place the solver keeps the
    species at: when [m_speciesMapIndex] is a permutation and sends the
    solver index [j] to the [k]th species of phase [iphase] (counted
    through the phases of the mixture in order), [m_gibbsSpecies[j]] is
    entry [k] of the chemical potentials of that phase at the temperature
    and pressure of the mixture. *)
Theorem vcs_prob_specifyFully_gibbs (s : VCS_SOLVE) (iphase k j : nat) :
  Permutation (m_speciesMapIndex s) (seq 0 (m_nsp s)) ->
  m_nsp s <= length (m_gibbsSpecies s) ->
  species_offset (m_mix s) (m_numPhases s) <= m_nsp s ->
  iphase < m_numPhases s ->
  k < tp_nSpecies (phase (m_mix s) !!! iphase) ->
  j < m_nsp s ->
  m_speciesMapIndex s !!! j = species_offset (m_mix s) iphase + k ->
  m_gibbsSpecies (vcs_prob_specifyFully s).2 !!! j =
  getChemPotentials (phase (m_mix s) !!! iphase)
    (temperature (m_mix s)) (pressure (m_mix s)) !!! k.
Proof.
  intros Hperm Hlen Htot Hiph Hk Hj Hmap.
  unfold vcs_prob_specifyFully. cbn [snd m_gibbsSpecies].
  fold (invSpecies s).
  destruct (invSpecies_spec s Hperm) as [_ Hinv].
  assert (Hinj : forall g g', g < m_nsp s -> g' < m_nsp s ->
            invSpecies s !!! g = invSpecies s !!! g' -> g = g').
  { intros g g' Hg Hg' Heq.
    destruct (invSpecies_map s g Hperm Hg) as [_ <-].
    destruct (invSpecies_map s g' Hperm Hg') as [_ <-]. by rewrite Heq. }
  set (temp := temperature (m_mix s)). set (pres := pressure (m_mix s)).
  assert (Hloop :
    let st := for_loop (m_numPhases s)
                (specify_phase (m_mix s) temp pres (invSpecies s))
                (0, m_gibbsSpecies s, VPhaseList s) in
    st.1.1 = species_offset (m_mix s) (m_numPhases s) /\
    length st.1.2 = length (m_gibbsSpecies s) /\
    forall p k', p < m_numPhases s ->
      k' < tp_nSpecies (phase (m_mix s) !!! p) ->
      st.1.2 !!! (invSpecies s !!! (species_offset (m_mix s) p + k')) =
      getChemPotentials (phase (m_mix s) !!! p) temp pres !!! k').
  { cbn zeta.
    apply (for_loop_inv
             (fun i (st : nat * list double * list vcs_VolPhase) =>
                st.1.1 = species_offset (m_mix s) i /\
                length st.1.2 = length (m_gibbsSpecies s) /\
                forall p k', p < i ->
                  k' < tp_nSpecies (phase (m_mix s) !!! p) ->
                  st.1.2 !!!
                    (invSpecies s !!! (species_offset (m_mix s) p + k')) =
                  getChemPotentials (phase (m_mix s) !!! p) temp pres
                    !!! k')).
    - split; [done|]. split; [done|]. intros p k' Hp. lia.
    - intros i [[kTi g] vp] Hi (HkT & Hl & Hdone). simpl in HkT, Hl, Hdone.
      subst kTi. unfold specify_phase. cbn [fst snd].
      assert (species_offset (m_mix s) (S i) <= m_nsp s) as Hend.
      { etrans; [apply (species_offset_mono _ _ (m_numPhases s)); lia|done]. }
      rewrite species_offset_S in Hend.
      destruct (specify_species_loop (invSpecies s)
                  (getChemPotentials (phase (m_mix s) !!! i) temp pres)
                  (tp_nSpecies (phase (m_mix s) !!! i))
                  (species_offset (m_mix s) i) g)
        as (H1 & H2 & Hnew & Hframe).
      { intros k' Hk'. rewrite Hl.
        destruct (invSpecies_map s (species_offset (m_mix s) i + k') Hperm);
          lia. }
      { intros k1 k2 Hk1 Hk2 Heq.
        apply Hinj in Heq; lia. }
      rewrite H1, H2, species_offset_S. split; [done|]. split; [done|].
      intros p k' Hp Hk'. destruct (decide (p = i)) as [->|Hne].
      + by apply Hnew.
      + rewrite Hframe; [apply Hdone; [lia|done]|].
        assert (species_offset (m_mix s) (S p) <= species_offset (m_mix s) i)
          as Hbefore by (apply species_offset_mono; lia).
        rewrite species_offset_S in Hbefore.
        intros k2 Hk2 Heq. apply Hinj in Heq; lia. }
  destruct Hloop as (_ & _ & Hall).
  rewrite <- (Hinv j Hj), Hmap. by apply Hall.
Qed.

End SpecifiedGibbs.

(** ** The search of vcs_prob_update and the chemical potentials *)

Section WriteBackSearch.
Import Vcs VcsMore.
Context `{Externals}.

(** A search over at least one index forgets the [k1] it started
    from. *)
Lemma search_k1_start (speciesMapIndex : list nat) (i a n k0 k0' : nat) :
  0 < n ->
  search_k1 speciesMapIndex i (seq a n) k0 =
  search_k1 speciesMapIndex i (seq a n) k0'.
Proof. destruct n as [|n]; [lia|done]. Qed.

(** A search that finds no index ends at the last one it visited. *)
Lemma search_k1_none (speciesMapIndex : list nat) (i a n k0 : nat) :
  0 < n ->
  (forall j, a <= j < a + n -> speciesMapIndex !!! j <> i) ->
  search_k1 speciesMapIndex i (seq a n) k0 = a + n - 1.
Proof.
  revert a k0. induction n as [|n IH]; intros a k0 Hn Hnone; [lia|].
  simpl. rewrite bool_decide_false by (apply Hnone; lia).
  destruct n as [|n]; [simpl; lia|].
  rewrite IH; [lia|lia|]. intros j Hj. apply Hnone. lia.
Qed.

(** The loop over the species leaves in the slots [i] of [w] and of
    [m_gibbsSpecies] the data of the index its search ends at. *)
Lemma writeback_species_spec (s : VCS_SOLVE) (i : nat) :
  i < m_nsp s ->
  let k1 := search_k1 (m_speciesMapIndex s) i (seq 0 (m_nsp s)) 0 in
  (i < length (w s) -> written_back_w s !!! i = written_back s i k1) /\
  (i < length (m_gibbsSpecies s) ->
   written_back_gibbs s !!! i = m_feSpecies_old s !!! k1).
Proof.
  intros Hi. cbn zeta. unfold written_back_w, written_back_gibbs.
  assert (Hinv :
    forall n, n <= m_nsp s ->
      let st := for_loop n (writeback_species s) (0, w s, m_gibbsSpecies s) in
      length st.1.2 = length (w s) /\
      length st.2 = length (m_gibbsSpecies s) /\
      forall i', i' < n ->
        (i' < length (w s) ->
         st.1.2 !!! i' =
         written_back s i'
           (search_k1 (m_speciesMapIndex s) i' (seq 0 (m_nsp s)) 0)) /\
        (i' < length (m_gibbsSpecies s) ->
         st.2 !!! i' =
         m_feSpecies_old s
           !!! search_k1 (m_speciesMapIndex s) i' (seq 0 (m_nsp s)) 0)).
  { induction n as [|n IH]; intros Hn;
      [split; [done|]; split; [done|]; intros; lia|].
    destruct (IH ltac:(lia)) as (Hlw & Hlg & Hdone).
    rewrite for_loop_S. unfold writeback_species at 1. cbn [fst snd].
    set (st := for_loop n (writeback_species s) (0, w s, m_gibbsSpecies s))
      in *.
    rewrite (search_k1_start _ n 0 (m_nsp s) st.1.1 0) by lia.
    split; [case_bool_decide; by rewrite length_insert|].
    split; [by rewrite length_insert|].
    intros i' Hi'. destruct (decide (i' = n)) as [->|Hne].
    - split; intros Hl.
      + unfold written_back.
        case_bool_decide;
          by rewrite list_lookup_total_insert_eq by (by rewrite Hlw).
      + by rewrite list_lookup_total_insert_eq by (by rewrite Hlg).
    - destruct (Hdone i' ltac:(lia)) as [Hw Hg]. split; intros Hl.
      + assert (forall v : double,
                  <[n := v]> st.1.2 !!! i' =
                  written_back s i'
                    (search_k1 (m_speciesMapIndex s) i'
                       (seq 0 (m_nsp s)) 0)) as Hkeep.
        { intros v. rewrite list_lookup_total_insert_ne by done.
          by apply Hw. }
        case_bool_decide; apply Hkeep.
      + rewrite list_lookup_total_insert_ne by done. by apply Hg. }
  destruct (Hinv (m_nsp s) (le_n _)) as (_ & _ & Hall). by apply Hall.
Qed.

(** X9. The write-back leaves in the public [m_gibbsSpecies[i]] the
    chemical potential the solver holds at the first index [k1] that
    [m_speciesMapIndex] sends to [i], whatever the unknown type of the
    species is; a run of [vcs_prob_update] that returns leaves these
    values in the solver. *)
Theorem vcs_prob_update_gibbs (s : VCS_SOLVE) (i k1 : nat) :
  let s1 := vcs_tmoles s in
  i < m_nsp s1 -> i < length (m_gibbsSpecies s1) ->
  k1 < m_nsp s1 -> m_speciesMapIndex s1 !!! k1 = i ->
  (forall j, j < k1 -> m_speciesMapIndex s1 !!! j <> i) ->
  written_back_gibbs s1 !!! i = m_feSpecies_old s1 !!! k1 /\
  forall rc s', vcs_prob_update s = Ok (rc, s') ->
                m_gibbsSpecies s' = written_back_gibbs s1.
Proof.
  intros s1 Hi Hlen Hk1 Hmap Hfirst. split.
  - destruct (writeback_species_spec s1 i Hi) as [_ Hg].
    rewrite (Hg Hlen).
    rewrite (search_k1_first _ _ _ _ _ k1); [done|lia|done|].
    intros j Hj. apply Hfirst. lia.
  - intros rc s'. unfold vcs_prob_update. fold s1.
    destruct (iterM _ _ _) as [r|]; simpl; [|done].
    by intros [= _ <-].
Qed.

(** X10. When no entry of [m_speciesMapIndex] is [i], the search of the
    write-back runs to its end and leaves [k1] at the last index: species
    [i] receives the chemical potential, and (unless its unknown is the
    interfacial voltage) the mole number, that the solver holds at index
    [m_nsp - 1]. No error is raised for the missing index. *)
Theorem vcs_prob_update_index_not_found (s : VCS_SOLVE) (i : nat) :
  let s1 := vcs_tmoles s in
  i < m_nsp s1 -> i < length (w s1) -> i < length (m_gibbsSpecies s1) ->
  (forall j, j < m_nsp s1 -> m_speciesMapIndex s1 !!! j <> i) ->
  written_back_gibbs s1 !!! i = m_feSpecies_old s1 !!! (m_nsp s1 - 1) /\
  (SpeciesUnknownType s1 !!! i <> VCS_SPECIES_TYPE_INTERFACIALVOLTAGE ->
   written_back_w s1 !!! i = m_molNumSpecies_old s1 !!! (m_nsp s1 - 1)) /\
  forall rc s', vcs_prob_update s = Ok (rc, s') ->
                w s' = written_back_w s1 /\
                m_gibbsSpecies s' = written_back_gibbs s1.
Proof.
  intros s1 Hi Hlw Hlg Hnone.
  destruct (writeback_species_spec s1 i Hi) as [Hw Hg].
  rewrite (Hg Hlg), (Hw Hlw).
  rewrite (search_k1_none _ _ 0 (m_nsp s1) 0)
    by (try lia; intros j Hj; apply Hnone; lia).
  split; [done|]. split.
  - intros Hty. unfold written_back. by rewrite bool_decide_true by done.
  - intros rc s'. unfold vcs_prob_update. fold s1.
    destruct (iterM _ _ _) as [r|]; simpl; [|done].
    by intros [= _ <-].
Qed.

End WriteBackSearch.

(** ** The further theorems at work on the example data *)

Section MoreInstances.
Import Vcs VcsMore Examples ExamplesMore.

(** The second species of the example is the second of its phase. *)
Lemma phase_mapping_Ok_witness :
  exists pm,
    phase_mapping 2 3 (PhaseID solver_pre) (VPhaseList solver_pre)
      (m_phaseID solver_pre) (m_speciesLocalPhaseIndex solver_pre) = Ok pm /\
    pm.2 !!! 1 = species_in_phase (PhaseID solver_pre) 0 1 /\
    species_in_phase (PhaseID solver_pre) 0 3 = nSpecies gas_vp.
Proof.
  destruct (phase_mapping 2 3 (PhaseID solver_pre) (VPhaseList solver_pre)
              (m_phaseID solver_pre) (m_speciesLocalPhaseIndex solver_pre))
    as [pm|e] eqn:Hrun; [|vm_compute in Hrun; discriminate].
  exists pm. split; [reflexivity|].
  destruct (phase_mapping_Ok 2 3 (PhaseID solver_pre) (VPhaseList solver_pre)
              (m_phaseID solver_pre) (m_speciesLocalPhaseIndex solver_pre)
              pm) as [Hsp Hph]; [done|vm_compute; lia|exact Hrun|].
  split.
  - destruct (Hsp 1) as (_ & _ & Hloc); [lia|]. apply Hloc. simpl. lia.
  - apply (Hph 0). lia.
Defined.

(** A species in a phase 2 of two phases is refused. *)
Lemma phase_mapping_Throw_witness :
  phase_mapping 2 3 [0; 2; 1] (VPhaseList solver_pre)
    (m_phaseID solver_pre) (m_speciesLocalPhaseIndex solver_pre) =
  Throw (PhaseID_bad_value 1 2).
Proof.
  destruct (phase_mapping_Throw 2 3 [0; 2; 1] (VPhaseList solver_pre)
              (m_phaseID solver_pre) (m_speciesLocalPhaseIndex solver_pre))
    as [Hbad _]; [done|vm_compute; lia|].
  apply (Hbad 1); [lia|vm_compute; lia|].
  intros [|k'] Hk'; [vm_compute; lia|lia].
Defined.

(** Two phases need a [PhaseID]. *)
Lemma phase_mapping_no_PhaseID_witness :
  phase_mapping 2 3 [] (VPhaseList solver_pre)
    (m_phaseID solver_pre) (m_speciesLocalPhaseIndex solver_pre) =
  Throw PhaseID_not_defined.
Proof.
  destruct (phase_mapping_no_PhaseID 2 3 (VPhaseList solver_pre)
              (m_phaseID solver_pre) (m_speciesLocalPhaseIndex solver_pre))
    as [_ Hthrow].
  apply Hthrow. lia.
Defined.

(** An explicit lattice ratio goal of 1.0E-12 becomes 0.0. *)
Lemma goal_abundances_from_gai_witness :
  exists goal,
    formulate_goal [1.0E-12%float] 1 2 (-1)%Z lattice_elType lattice_unk
      lattice_fm lattice_mol [5%float] = Ok goal /\
    goal !!! 0 = 0%float.
Proof.
  destruct (goal_abundances_from_gai [1.0E-12%float] 1 2 (-1)%Z
              lattice_elType lattice_unk lattice_fm lattice_mol [5%float])
    as (goal & Hrun & _ & Hval & _); [done|vm_compute; lia|].
  exists goal. split; [exact Hrun|].
  rewrite (Hval 0) by (vm_compute; lia). reflexivity.
Defined.

(** The solver of the example starts from the identity rotation. *)
Lemma VCS_SOLVE_finish_identity_witness :
  m_speciesMapIndex solver = [0; 1; 2] /\
  m_VolPhaseList solver = [gas_vp; metal_vp] /\
  m_molNumSpecies_old solver = w solver_pre.
Proof.
  destruct (VCS_SOLVE_finish_identity solver_pre solver)
    as (Hmap & _ & _ & _ & Hvp & _ & Hmol);
    [by vm_compute|reflexivity..|done|].
  split; [exact Hmap|]. split; [exact Hvp|exact Hmol].
Defined.

(** The species loop of the gas advances the counter by 2 and adds up
    1.5 moles. *)
Lemma init_phase_moles_Ok_witness :
  exists st',
    init_phase_moles mixture gas_tp gas_vp species_loop_start = Ok st' /\
    kT st' = 2 /\ tMoles st' = 1.5%float.
Proof.
  destruct (init_phase_moles mixture gas_tp gas_vp species_loop_start)
    as [st'|e] eqn:Hrun; [|vm_compute in Hrun; discriminate].
  exists st'. split; [reflexivity|].
  destruct (init_phase_moles_Ok mixture gas_tp gas_vp species_loop_start
              st' Hrun) as (HkT & Ht & _); [vm_compute; lia|vm_compute; lia|].
  split; [exact HkT|]. rewrite Ht. reflexivity.
Defined.

(** The unknown type 7 is thrown. *)
Lemma init_phase_moles_Throw_witness :
  init_phase_moles mixture gas_tp odd_vp species_loop_start =
  Throw (Unknown_species_type (VCS_SPECIES_TYPE_other 7)).
Proof.
  apply (init_phase_moles_Throw mixture gas_tp odd_vp species_loop_start 1);
    [vm_compute; lia|vm_compute; lia|vm_compute; lia| |reflexivity].
  intros [|j] Hj; [reflexivity|lia].
Defined.

(** The chemical potential of the metal reaches the third species. *)
Lemma vcs_prob_specifyFully_gibbs_witness :
  m_gibbsSpecies (vcs_prob_specifyFully solver).2 !!! 2 = (-2)%float.
Proof.
  apply (vcs_prob_specifyFully_gibbs solver 1 0 2);
    [reflexivity|vm_compute; lia|vm_compute; lia|vm_compute; lia|vm_compute; lia|vm_compute; lia|
     reflexivity].
Defined.

(** The chemical potential of the second species is written back. *)
Lemma vcs_prob_update_gibbs_witness :
  written_back_gibbs solver !!! 1 = (-0.5)%float.
Proof.
  destruct (@vcs_prob_update_gibbs example_externals solver 1 1)
    as [Hg _]; [vm_compute; lia|vm_compute; lia|vm_compute; lia|reflexivity| |exact Hg].
  intros [|j] Hj; [vm_compute; lia|lia].
Defined.

(** With the map [0; 0; 0] the species 1 is not found and gets the data
    of the last index. *)
Lemma vcs_prob_update_index_not_found_witness :
  written_back_gibbs solver_pre !!! 1 = (-2)%float /\
  written_back_w solver_pre !!! 1 = 0%float.
Proof.
  destruct (@vcs_prob_update_index_not_found example_externals solver_pre 1)
    as (Hg & Hw & _); [vm_compute; lia|vm_compute; lia|vm_compute; lia| |].
  - intros [|[|[|j]]] Hj; vm_compute; vm_compute in Hj; lia.
  - split; [exact Hg|]. apply Hw. discriminate.
Defined.

End MoreInstances.

(** ** The calls of installReactionArrays in order *)

Section InstallTrace.
Import ImportKinetics ImportKineticsMore.
Context `{XML_Lookup}.

Lemma apply_skip_app (rxns : XML_Node) (kin : Kinetics) :
  apply_skip rxns kin = kin ++ apply_skip rxns [].
Proof.
  unfold apply_skip. destruct (getChildren rxns "skip") as [|sk ?];
    [by rewrite app_nil_r|].
  destruct (String.eqb (attrib sk "species") "undeclared");
    destruct (String.eqb (attrib sk "third_bodies") "undeclared");
    simpl; by rewrite ?app_nil_r, <- ?app_assoc.
Qed.

Lemma apply_skip_closing (rxns : XML_Node) :
  Forall (fun c => closing_call c = false) (apply_skip rxns []).
Proof.
  unfold apply_skip. destruct (getChildren rxns "skip") as [|sk ?];
    [constructor|].
  destruct (String.eqb (attrib sk "species") "undeclared");
    destruct (String.eqb (attrib sk "third_bodies") "undeclared");
    simpl; repeat constructor.
Qed.

Lemma reactionArray_body_trace (root rxns : XML_Node) (st : Kinetics * Z) :
  (reactionArray_body root st rxns).1 = st.1 ++ array_calls root rxns.
Proof.
  unfold reactionArray_body, array_calls, array_adds.
  set (allrxns := getChildren _ "reaction").
  rewrite (apply_skip_app rxns st.1).
  destruct (getChildren rxns "include") as [|i0 incl].
  - rewrite add_all_trace. simpl. by rewrite <- app_assoc.
  - rewrite include_all_trace. cbn [fst]. rewrite <- app_assoc.
    do 2 f_equal. generalize (i0 :: incl). intros l.
    induction l as [|ii l IH]; [done|]. simpl. by rewrite map_app, IH.
Qed.

(** The calls of [installReactionArrays]: those of the reactionArray
    elements one after the other, then the closing ones. *)
Lemma installReactionArrays_trace (root p : XML_Node) (kin : Kinetics)
  (check_for_duplicates : bool) :
  let r := installReactionArrays root p kin check_for_duplicates in
  r.2 = negb (bool_decide (getChildren p "reactionArray" = [])) /\
  r.1 = kin ++ flat_map (array_calls root) (getChildren p "reactionArray")
        ++ (if check_for_duplicates && r.2
            then [checkDuplicates; finalize] else [finalize]).
Proof.
  unfold installReactionArrays.
  destruct (getChildren p "reactionArray") as [|a0 rarrays] eqn:E.
  - simpl. by rewrite andb_false_r.
  - cbn [fst snd]. split; [done|]. rewrite andb_true_r.
    assert (forall (l : list XML_Node) (st : Kinetics * Z),
              (fold_left (reactionArray_body root) l st).1 =
              st.1 ++ flat_map (array_calls root) l) as Hfold.
    { induction l as [|rxns l IH]; intros st; simpl;
        [by rewrite app_nil_r|].
      by rewrite IH, reactionArray_body_trace, <- app_assoc. }
    rewrite Hfold. cbn [fst].
    destruct check_for_duplicates; by rewrite <- !app_assoc.
Qed.

Lemma added_app (k1 k2 : Kinetics) : added (k1 ++ k2) = added k1 ++ added k2.
Proof. unfold added. apply flat_map_app. Qed.

Lemma added_array_calls (root rxns : XML_Node) :
  added (array_calls root rxns) = array_adds root rxns.
Proof.
  unfold array_calls. rewrite added_app.
  assert (added (apply_skip rxns []) = []) as ->.
  { unfold apply_skip. destruct (getChildren rxns "skip") as [|sk ?]; [done|].
    by destruct (String.eqb (attrib sk "species") "undeclared");
      destruct (String.eqb (attrib sk "third_bodies") "undeclared"). }
  simpl. induction (array_adds root rxns) as [|r l IH]; [done|].
  simpl. by rewrite IH.
Qed.

(** X11. The reactions [installReactionArrays] hands to the manager are,
    in this order, the ones of the first reactionArray element, then of
    the second, and so on; within an element the reactions come directive
    after directive, each directive in the order of the data source. A
    reaction that two directives let through is handed over twice. *)
Theorem installReactionArrays_added_in_order (root p : XML_Node)
  (kin : Kinetics) (check_for_duplicates : bool) :
  added (installReactionArrays root p kin check_for_duplicates).1 =
  added kin ++ flat_map (array_adds root) (getChildren p "reactionArray").
Proof.
  destruct (installReactionArrays_trace root p kin check_for_duplicates)
    as [_ ->].
  rewrite !added_app.
  assert (forall b : bool,
            added (if b then [checkDuplicates; finalize] else [finalize])
            = []) as -> by (by intros []).
  rewrite app_nil_r. f_equal.
  induction (getChildren p "reactionArray") as [|rxns l IH]; [done|].
  simpl. by rewrite added_app, added_array_calls, IH.
Qed.

(** X12. [installReactionArrays] returns false exactly when the phase
    has no reactionArray element. Its last call is [finalize], called
    once; [checkDuplicates] is called once, right before it, when it was
    asked for and a reactionArray element exists, and not at all
    otherwise: without reactionArray element the duplicates are not
    checked even when asked for. *)
Theorem installReactionArrays_closing (root p : XML_Node) (kin : Kinetics)
  (check_for_duplicates : bool) :
  let r := installReactionArrays root p kin check_for_duplicates in
  (r.2 = false <-> getChildren p "reactionArray" = []) /\
  exists calls,
    r.1 = kin ++ calls
          ++ (if check_for_duplicates && r.2
              then [checkDuplicates; finalize] else [finalize]) /\
    Forall (fun c => closing_call c = false) calls /\
    (r.2 = false -> calls = []).
Proof.
  destruct (installReactionArrays_trace root p kin check_for_duplicates)
    as [Hflag Htrace].
  cbn zeta. split.
  - rewrite Hflag. case_bool_decide; simpl; split; congruence.
  - exists (flat_map (array_calls root) (getChildren p "reactionArray")).
    split; [exact Htrace|]. split.
    + clear Hflag Htrace.
      induction (getChildren p "reactionArray") as [|rxns l IH];
        [constructor|].
      simpl. apply Forall_app. split; [|done].
      unfold array_calls. apply Forall_app. split;
        [apply apply_skip_closing|].
      by induction (array_adds root rxns); constructor.
    + rewrite Hflag. case_bool_decide as Hnil; [|done].
      by rewrite Hnil.
Qed.

End InstallTrace.

(** ** What an include directive lets through *)

Section IncludeDirective.
Import ImportKinetics.

Lemma substring_beyond (s : string) (n m : nat) :
  String.length s <= n -> substring n m s = EmptyString.
Proof.
  revert n. induction s as [|c s IH]; intros n Hn.
  - by destruct n, m.
  - destruct n as [|n]; simpl in Hn; [lia|]. simpl. apply IH. lia.
Qed.

Lemma length_substring_0 (s : string) (n : nat) :
  n <= String.length s -> String.length (substring 0 n s) = n.
Proof.
  revert s. induction n as [|n IH]; intros s Hn; [by destruct s|].
  destruct s as [|c s]; simpl in Hn; [lia|]. simpl. rewrite IH; lia.
Qed.

Lemma index_star_lt (s : string) (n : nat) :
  index 0 "*" s = Some n -> n < String.length s.
Proof.
  intros Hidx. apply index_correct1 in Hidx.
  destruct (decide (n < String.length s)) as [|Hge]; [done|].
  rewrite substring_beyond in Hidx by lia. discriminate.
Qed.

Lemma str_le_refl (a : string) : str_le a a = true.
Proof. unfold str_le. by destruct (String.leb_total a a). Qed.

Lemma str_le_both (a b : string) :
  str_le a b && str_le b a = true <-> b = a.
Proof.
  rewrite andb_true_iff. split.
  - intros [Hab Hba]. by apply String.leb_antisym.
  - intros ->. by rewrite str_le_refl.
Qed.

(** X13. A directive whose bounds [min] and [max] are the same string
    selects by equality: when the string holds a [*], the reactions whose
    id starts with the text before the first [*], whatever follows that
    [*] in the directive; when it holds none, the reactions whose id is
    that string. *)
Theorem include_equal_bounds (ii r : XML_Node) :
  attrib ii "max" = attrib ii "min" ->
  (forall n, index 0 "*" (attrib ii "min") = Some n ->
     (include_test (include_bounds ii) r = true <->
      String.prefix (substring 0 n (attrib ii "min")) (attrib r "id")
      = true)) /\
  (index 0 "*" (attrib ii "min") = None ->
     (include_test (include_bounds ii) r = true <->
      attrib r "id" = attrib ii "min")).
Proof.
  intros Hmax. unfold include_bounds.
  rewrite Hmax, String.eqb_refl. split.
  - intros n Hidx. rewrite Hidx. cbn [include_test].
    rewrite str_le_both, prefix_correct.
    rewrite length_substring_0; [done|].
    apply index_star_lt in Hidx. lia.
  - intros Hidx. rewrite Hidx. cbn [include_test]. apply str_le_both.
Qed.

(** X14. A directive whose [max] is below its [min] in the order of
    strings selects no reaction at all. *)
Theorem include_empty_range (ii r : XML_Node) :
  str_le (attrib ii "min") (attrib ii "max") = false ->
  include_test (include_bounds ii) r = false.
Proof.
  intros Hlt. unfold include_bounds.
  destruct (String.eqb (attrib ii "max") (attrib ii "min")) eqn:E.
  - apply String.eqb_eq in E. rewrite E, str_le_refl in Hlt. done.
  - cbn [include_test].
    destruct (str_le (attrib ii "min") (attrib r "id")) eqn:E1; [|done].
    destruct (str_le (attrib r "id") (attrib ii "max")) eqn:E2; [|done].
    exfalso. unfold str_le in *.
    assert (String.le (attrib ii "min") (attrib ii "max")) as Hle.
    { transitivity (attrib r "id"); unfold String.le;
        [by rewrite E1|by rewrite E2]. }
    unfold String.le in Hle. by rewrite Hlt in Hle.
Qed.

End IncludeDirective.

(** ** importKinetics: the referenced phases *)

Section ImportKineticsPhases.
Import ImportKinetics ImportKineticsMore.
Context `{XML_Lookup} `{ImportParams}.

Lemma string_app_assoc (a b c : string) : (a +:+ b) +:+ c = a +:+ (b +:+ c).
Proof.
  induction a as [|x a IH]; [done|].
  change (String x ((a +:+ b) +:+ c) = String x (a +:+ (b +:+ c))).
  by rewrite IH.
Qed.

Lemma string_app_nil_r (a : string) : a +:+ "" = a.
Proof.
  induction a as [|x a IH]; [done|].
  change (String x (a +:+ "") = String x a). by rewrite IH.
Qed.

(** One pass over the supplied phases: the id is found when a supplied
    phase carries it, [msg] gains the list of the supplied ids, and the
    calls made are [addPhase] of supplied phases of that id. *)
Lemma match_phases_spec (phase_id : string) (th : list PhaseObject)
  (k : list ManagerCall) (msg : string) :
  let r := match_phases phase_id th k msg in
  r.1.1 = bool_decide (phase_id ∈ map ph_id th) /\
  r.2 = msg +:+ supplied th /\
  exists adds,
    r.1.2 = k ++ map addPhase adds /\
    Forall (fun t => t ∈ th /\ ph_id t = phase_id) adds.
Proof.
  unfold match_phases. cbn zeta.
  assert (Hgen : forall (ok0 : bool) k msg,
    let r := fold_left
      (fun (st : bool * list ManagerCall * string) (t : PhaseObject) =>
         (if String.eqb (ph_id t) phase_id then true else st.1.1,
          if String.eqb (ph_id t) phase_id then
            match phaseIndex st.1.2 phase_id with
            | None => st.1.2 ++ [addPhase t]
            | Some _ => st.1.2
            end
          else st.1.2,
          st.2 +:+ " " +:+ ph_id t))
      th (ok0, k, msg) in
    r.1.1 = ok0 || bool_decide (phase_id ∈ map ph_id th) /\
    r.2 = msg +:+ supplied th /\
    exists adds,
      r.1.2 = k ++ map addPhase adds /\
      Forall (fun t => t ∈ th /\ ph_id t = phase_id) adds).
  { clear k msg. induction th as [|t th IH]; intros ok0 k msg; cbn zeta.
    - simpl. rewrite orb_false_r, string_app_nil_r.
      split; [done|]. split; [done|]. exists []. simpl.
      by rewrite app_nil_r.
    - cbn [fold_left fst snd].
      destruct (IH (if String.eqb (ph_id t) phase_id then true else ok0)
                  (if String.eqb (ph_id t) phase_id then
                     match phaseIndex k phase_id with
                     | None => k ++ [addPhase t]
                     | Some _ => k
                     end
                   else k)
                  (msg +:+ " " +:+ ph_id t))
        as (Hok & Hmsg & adds & Hk & Hadds).
      rewrite Hok, Hmsg, Hk. clear Hok Hmsg Hk IH.
      assert (Forall (fun t0 => t0 ∈ t :: th /\ ph_id t0 = phase_id) adds)
        as Hadds'.
      { eapply Forall_impl; [exact Hadds|].
        intros t0 [Hin Hid]. split; [by apply list_elem_of_further|done]. }
      split; [|split].
      + destruct (String.eqb (ph_id t) phase_id) eqn:E.
        * apply String.eqb_eq in E. simpl.
          rewrite (bool_decide_true (phase_id ∈ ph_id t :: map ph_id th))
            by (rewrite <- E; apply list_elem_of_here).
          by rewrite orb_true_r.
        * apply String.eqb_neq in E. simpl. f_equal.
          apply bool_decide_ext. rewrite elem_of_cons.
          split; [by right|intros [Heq|Hin]; [congruence|done]].
      + simpl. by rewrite !string_app_assoc.
      + destruct (String.eqb (ph_id t) phase_id) eqn:E;
          [destruct (phaseIndex k phase_id)|]; try by exists adds.
        exists (t :: adds). split; [by rewrite <- app_assoc|].
        constructor; [|done]. split; [apply list_elem_of_here|].
        by apply String.eqb_eq. }
  apply (Hgen false).
Qed.

(** The loop over the referenced ids when every one of them is
    supplied. *)
Lemma find_phases_all (phase_ids : list string) (th : list PhaseObject)
  (k : list ManagerCall) (msg : string) :
  (forall phase_id, phase_id ∈ phase_ids -> phase_id ∈ map ph_id th) ->
  exists adds,
    (find_phases phase_ids th k msg).1 = k ++ map addPhase adds /\
    (find_phases phase_ids th k msg).2 = None /\
    Forall (fun t => t ∈ th /\ ph_id t ∈ phase_ids) adds.
Proof.
  revert k msg. induction phase_ids as [|phase_id rest IH];
    intros k msg Hall.
  - exists []. simpl. by rewrite app_nil_r.
  - simpl.
    destruct (match_phases_spec phase_id th k msg)
      as (Hok & Hmsg & adds & Hk & Hadds).
    rewrite Hok, bool_decide_true by (apply Hall, list_elem_of_here).
    destruct (IH (match_phases phase_id th k msg).1.2
                (match_phases phase_id th k msg).2)
      as (adds' & Hk' & Hnone & Hadds');
      [intros id Hid; by apply Hall, list_elem_of_further|].
    exists (adds ++ adds').
    split; [by rewrite Hk', Hk, map_app, <- app_assoc|].
    split; [exact Hnone|]. apply Forall_app. split.
    + eapply Forall_impl; [exact Hadds|]. intros t [Hin <-].
      split; [done|apply list_elem_of_here].
    + eapply Forall_impl; [exact Hadds'|]. intros t [Hin Hid].
      split; [done|by apply list_elem_of_further].
Qed.

(** The loop over the referenced ids when the id after [pre] is the
    first that is not supplied. *)
Lemma find_phases_missing (pre post : list string) (phase_id : string)
  (th : list PhaseObject) (k : list ManagerCall) (msg : string) :
  (forall id, id ∈ pre -> id ∈ map ph_id th) ->
  phase_id ∉ map ph_id th ->
  exists adds,
    (find_phases (pre ++ phase_id :: post) th k msg).1 =
    k ++ map addPhase adds /\
    (find_phases (pre ++ phase_id :: post) th k msg).2 =
    Some ("phase " +:+ phase_id +:+ " not found. Supplied phases are:"
          +:+ msg +:+ supplied_times (S (length pre)) th).
Proof.
  revert k msg. induction pre as [|id0 pre IH]; intros k msg Hpre Hmiss.
  - simpl.
    destruct (match_phases_spec phase_id th k msg)
      as (Hok & Hmsg & adds & Hk & _).
    rewrite Hok, bool_decide_false by done. simpl.
    exists adds. split; [done|]. by rewrite Hmsg, string_app_nil_r.
  - simpl.
    destruct (match_phases_spec id0 th k msg)
      as (Hok & Hmsg & adds & Hk & _).
    rewrite Hok, bool_decide_true by (apply Hpre, list_elem_of_here).
    destruct (IH (match_phases id0 th k msg).1.2
                (match_phases id0 th k msg).2)
      as (adds' & Hk' & Hsome);
      [intros id Hid; by apply Hpre, list_elem_of_further|done|].
    exists (adds ++ adds').
    split; [by rewrite Hk', Hk, map_app, <- app_assoc|].
    rewrite Hsome, Hmsg. simpl. by rewrite !string_app_assoc.
Qed.

(** X15. [importKinetics] throws exactly for the first referenced id,
    the ids of the phaseArray first and the id of the owning phase last,
    that no supplied phase carries. Until then it has only added phases:
    [init] is not called and no reaction is installed. Since [msg] is
    never emptied, the message lists the supplied ids once for every
    referenced id looked up so far, the missing one included. *)
Theorem importKinetics_phase_not_found (root : XML_Node)
  (parent : option XML_Node) (phase : XML_Node) (th : list PhaseObject)
  (k : list ManagerCall) (pre post : list string) (phase_id : string) :
  referenced_phases phase = pre ++ phase_id :: post ->
  (forall id, id ∈ pre -> id ∈ map ph_id th) ->
  phase_id ∉ map ph_id th ->
  exists adds,
    importKinetics root parent phase th (Some k) =
    (Some (k ++ map addPhase adds),
     CanteraError "importKinetics"
       ("phase " +:+ phase_id +:+ " not found. Supplied phases are:"
        +:+ supplied_times (S (length pre)) th)).
Proof.
  intros Hids Hpre Hmiss. unfold importKinetics. rewrite Hids.
  destruct (find_phases_missing pre post phase_id th k "" Hpre Hmiss)
    as (adds & Hk & Hmsg).
  exists adds. by rewrite Hmsg, Hk.
Qed.

(** X16. When every referenced id is carried by a supplied phase,
    [importKinetics] adds supplied phases of referenced ids, calls
    [init] once, lets [installReactionArrays] make its calls, with the
    duplicate check the [validate] child of the parent asks for, and
    returns its flag: false when the phase has no reactionArray
    element. *)
Theorem importKinetics_installs (root : XML_Node)
  (parent : option XML_Node) (phase : XML_Node) (th : list PhaseObject)
  (k : list ManagerCall) :
  (forall id, id ∈ referenced_phases phase -> id ∈ map ph_id th) ->
  exists adds,
    importKinetics root parent phase th (Some k) =
    (Some (k ++ map addPhase adds ++ [init]
           ++ map install
                (installReactionArrays root phase []
                   (validate_reactions parent)).1),
     Returned (negb (bool_decide (getChildren phase "reactionArray" = []))))
    /\ Forall (fun t => t ∈ th /\ ph_id t ∈ referenced_phases phase) adds.
Proof.
  intros Hall. unfold importKinetics.
  destruct (find_phases_all (referenced_phases phase) th k "" Hall)
    as (adds & Hk & Hnone & Hadds).
  exists adds. rewrite Hnone, Hk. split; [|done].
  destruct (installReactionArrays_trace root phase []
              (validate_reactions parent)) as [-> _].
  by rewrite <- !app_assoc.
Qed.

End ImportKineticsPhases.

(** ** importKinetics: a phase is registered once *)

Section ImportKineticsRegistered.
Import ImportKinetics ImportKineticsMore.
Context `{XML_Lookup} `{ImportParams}.

Lemma registered_app (k1 k2 : list ManagerCall) :
  registered (k1 ++ k2) = registered k1 ++ registered k2.
Proof. unfold registered. apply flat_map_app. Qed.

Lemma registered_install (calls : Kinetics) :
  registered (map install calls) = [].
Proof. induction calls as [|c calls IH]; [done|]. by simpl. Qed.

(** What one pass over the supplied phases registers, with a manager
    that registers by id. *)
Lemma match_phases_registered (phase_id : string) (th : list PhaseObject)
  (k : list ManagerCall) (msg : string) :
  registers_by_id ->
  let r := match_phases phase_id th k msg in
  (NoDup (map ph_id (registered k)) ->
   NoDup (map ph_id (registered r.1.2))) /\
  (phase_id ∈ map ph_id th -> phase_id ∈ map ph_id (registered r.1.2)) /\
  (forall id, id ∈ map ph_id (registered k) ->
              id ∈ map ph_id (registered r.1.2)) /\
  (forall id, id ∈ map ph_id (registered r.1.2) ->
              id ∈ map ph_id (registered k) \/ id = phase_id).
Proof.
  intros Hlaw. unfold match_phases. cbn zeta.
  match goal with
  | |- context [fold_left ?f th _] =>
      assert (Hgen : forall st : bool * list ManagerCall * string,
        (NoDup (map ph_id (registered st.1.2)) ->
         NoDup (map ph_id (registered (fold_left f th st).1.2))) /\
        (phase_id ∈ map ph_id th ->
         phase_id ∈ map ph_id (registered (fold_left f th st).1.2)) /\
        (forall id, id ∈ map ph_id (registered st.1.2) ->
           id ∈ map ph_id (registered (fold_left f th st).1.2)) /\
        (forall id,
           id ∈ map ph_id (registered (fold_left f th st).1.2) ->
           id ∈ map ph_id (registered st.1.2) \/ id = phase_id))
  end.
  { clear k msg. induction th as [|t th IH]; intros st.
    - simpl. split; [done|]. split; [by intros ?%elem_of_nil|].
      split; [done|]. intros id Hid. by left.
    - cbn [fold_left].
      match goal with
      | |- context [fold_left _ th ?st1] =>
          destruct (IH st1) as (Hnd & Hfound & Hmono & Hsub);
          set (k1 := st1.1.2) in *
      end.
      assert (Hk1 :
        (NoDup (map ph_id (registered st.1.2)) ->
         NoDup (map ph_id (registered k1))) /\
        (ph_id t = phase_id -> phase_id ∈ map ph_id (registered k1)) /\
        (forall id, id ∈ map ph_id (registered st.1.2) ->
                    id ∈ map ph_id (registered k1)) /\
        (forall id, id ∈ map ph_id (registered k1) ->
                    id ∈ map ph_id (registered st.1.2) \/ id = phase_id)).
      { subst k1. cbn [fst snd].
        destruct (String.eqb (ph_id t) phase_id) eqn:E.
        - apply String.eqb_eq in E.
          destruct (phaseIndex st.1.2 phase_id) as [i|] eqn:Hidx.
          + assert (phase_id ∈ map ph_id (registered st.1.2)) as Hin.
            { destruct (decide (phase_id ∈ map ph_id (registered st.1.2)));
                [done|].
              assert (phaseIndex st.1.2 phase_id = None) by (by apply Hlaw).
              congruence. }
            split; [done|]. split; [done|]. split; [done|]. by left.
          + apply Hlaw in Hidx.
            rewrite registered_app, map_app. simpl. rewrite E.
            split; [|split; [|split]].
            * intros Hnd0. apply NoDup_app. split; [done|].
              split; [|apply NoDup_singleton].
              intros id Hid ->%list_elem_of_singleton. done.
            * intros _. apply elem_of_app. right. apply list_elem_of_here.
            * intros id Hid. apply elem_of_app. by left.
            * intros id [Hid|Hid]%elem_of_app; [by left|right].
              by apply list_elem_of_singleton in Hid.
        - apply String.eqb_neq in E.
          split; [done|]. split; [done|]. split; [done|]. by left. }
      destruct Hk1 as (Hnd1 & Hfound1 & Hmono1 & Hsub1).
      split; [auto|]. split; [|split].
      + simpl. intros [->|Hin]%elem_of_cons; [|auto].
        apply Hmono, Hfound1. done.
      + auto.
      + intros id Hid. destruct (Hsub id Hid) as [Hin| ->]; [|by right].
        by apply Hsub1. }
  apply (Hgen (false, k, msg)).
Qed.

Lemma find_phases_registered (phase_ids : list string)
  (th : list PhaseObject) (k : list ManagerCall) (msg : string) :
  registers_by_id ->
  let r := find_phases phase_ids th k msg in
  (NoDup (map ph_id (registered k)) ->
   NoDup (map ph_id (registered r.1))) /\
  (r.2 = None ->
   forall id, id ∈ phase_ids -> id ∈ map ph_id (registered r.1)) /\
  (forall id, id ∈ map ph_id (registered k) ->
              id ∈ map ph_id (registered r.1)) /\
  (forall id, id ∈ map ph_id (registered r.1) ->
              id ∈ map ph_id (registered k) \/ id ∈ phase_ids).
Proof.
  intros Hlaw. revert k msg.
  induction phase_ids as [|phase_id rest IH]; intros k msg; cbn zeta.
  - simpl. split; [done|]. split; [by intros _ id ?%elem_of_nil|].
    split; [done|]. intros id Hid. by left.
  - simpl.
    destruct (match_phases_registered phase_id th k msg Hlaw)
      as (Hnd & Hfound & Hmono & Hsub).
    destruct (match_phases_spec phase_id th k msg) as (Hok & _).
    destruct (IH (match_phases phase_id th k msg).1.2
                (match_phases phase_id th k msg).2)
      as (Hnd' & Hall' & Hmono' & Hsub').
    destruct ((match_phases phase_id th k msg).1.1) eqn:E.
    + symmetry in Hok. apply bool_decide_eq_true in Hok.
      split; [auto|]. split; [|split].
      * intros Hnone id [->|Hin]%elem_of_cons; [|by apply Hall'].
        apply Hmono', Hfound, Hok.
      * auto.
      * intros id Hid. destruct (Hsub' id Hid) as [Hin|Hin].
        -- destruct (Hsub id Hin) as [Hin0| ->]; [by left|right].
           apply list_elem_of_here.
        -- right. by apply list_elem_of_further.
    + simpl. split; [auto|]. split; [done|]. split; [auto|].
      intros id Hid. destruct (Hsub id Hid) as [Hin0| ->]; [by left|right].
      apply list_elem_of_here.
Qed.

(** X17. With a manager that registers a phase under its id,
    [importKinetics] registers no id twice, also when several supplied
    phases carry the same id or an id is referenced twice; when it
    returns, every referenced id is registered, and the ids registered
    are those there were before and referenced ones. *)
Theorem importKinetics_registers_once (root : XML_Node)
  (parent : option XML_Node) (phase : XML_Node) (th : list PhaseObject)
  (k k' : list ManagerCall) (b : bool) :
  registers_by_id ->
  NoDup (map ph_id (registered k)) ->
  importKinetics root parent phase th (Some k) = (Some k', Returned b) ->
  NoDup (map ph_id (registered k')) /\
  (forall id, id ∈ referenced_phases phase ->
              id ∈ map ph_id (registered k')) /\
  (forall id, id ∈ map ph_id (registered k') ->
              id ∈ map ph_id (registered k) \/
              id ∈ referenced_phases phase).
Proof.
  intros Hlaw Hnd. unfold importKinetics.
  destruct (find_phases_registered (referenced_phases phase) th k "" Hlaw)
    as (Hnd' & Hall & _ & Hsub).
  destruct (find_phases (referenced_phases phase) th k "").2 eqn:E;
    [done|].
  intros [= <- _].
  assert (forall calls, registered (init :: map install calls) = [])
    as Hnil by (intros calls; exact (registered_install calls)).
  rewrite registered_app, Hnil, app_nil_r. auto.
Qed.

End ImportKineticsRegistered.

(** ** base.pyx: the default names of solution objects *)

Section DefaultNames.
Import SolutionBase.

Lemma string_length_app (a b : string) :
  String.length (a +:+ b) = String.length a + String.length b.
Proof.
  induction a as [|x a IH]; [done|].
  change (S (String.length (a +:+ b)) = S (String.length a + String.length b)).
  by rewrite IH.
Qed.

Lemma name_suffix_ne (p s : string) : s <> "" -> p <> p +:+ s.
Proof.
  intros Hs Heq. apply (f_equal String.length) in Heq.
  rewrite string_length_app in Heq. destruct s; [done|]. simpl in Heq. lia.
Qed.

Lemma init_name_count (p : string) (req : option string * string)
  (counts : gmap string nat) :
  (init_name req.1 req.2 counts).2 !! p =
  if bool_decide (req = (None, p)) then count_after (counts !! p) 1
  else counts !! p.
Proof.
  destruct req as [[nm|] q]; cbn [fst snd init_name].
  - by rewrite bool_decide_false.
  - destruct (decide (q = p)) as [->|Hne].
    + rewrite bool_decide_true by done.
      destruct (counts !! p) as [c|]; cbn [fst snd count_after];
        rewrite lookup_insert_eq; [f_equal; lia|done].
    + rewrite bool_decide_false by congruence.
      destruct (counts !! q) as [c|]; cbn [fst snd];
        by rewrite lookup_insert_ne.
Qed.

Lemma count_after_S (c : option nat) (j : nat) :
  count_after (count_after c 1) j = count_after c (S j).
Proof.
  destruct j as [|j]; [done|]. destruct c as [c|]; simpl; f_equal; lia.
Qed.

Lemma unnamed_before_S (p : string) (req : option string * string)
  (rest : list (option string * string)) (i : nat) :
  unnamed_before p (S i) (req :: rest) =
  (if bool_decide (req = (None, p)) then 1 else 0)
  + unnamed_before p i rest.
Proof.
  unfold unnamed_before. simpl.
  by destruct (bool_decide (req = (None, p))).
Qed.

(** The name of the object at position [i], when it is an unnamed object
    of phase [p]. *)
Lemma construct_all_name (reqs : list (option string * string))
  (counts : gmap string nat) (i : nat) (p : string) :
  reqs !! i = Some (None, p) ->
  (construct_all reqs counts).1 !! i =
  Some (name_at p (count_after (counts !! p) (unnamed_before p i reqs))).
Proof.
  revert i counts. induction reqs as [|req rest IH]; intros i counts Hi;
    [done|].
  destruct i as [|i].
  - injection Hi as ->. simpl.
    by destruct (counts !! p).
  - simpl in Hi. cbn [construct_all fst]. simpl.
    rewrite (IH i _ Hi), init_name_count, unnamed_before_S.
    destruct (bool_decide (req = (None, p))); [|done].
    by rewrite count_after_S.
Qed.

Lemma unnamed_before_lt (p : string) (reqs : list (option string * string))
  (i i' : nat) :
  i < i' -> reqs !! i = Some (None, p) ->
  unnamed_before p i reqs < unnamed_before p i' reqs.
Proof.
  revert i i'. induction reqs as [|req rest IH]; intros i i' Hlt Hi; [done|].
  destruct i' as [|i']; [lia|]. destruct i as [|i].
  - injection Hi as ->. rewrite unnamed_before_S.
    rewrite bool_decide_true by done. unfold unnamed_before. simpl. lia.
  - rewrite !unnamed_before_S. simpl in Hi.
    specialize (IH i i' ltac:(lia) Hi). lia.
Qed.

Lemma name_at_inj (p : string) (c : option nat) (j j' : nat) :
  name_at p (count_after c j) = name_at p (count_after c j') -> j = j'.
Proof.
  assert (forall x y : nat,
            p +:+ "_" +:+ pretty x = p +:+ "_" +:+ pretty y -> x = y)
    as Hinj.
  { intros x y Heq. apply String.app_inj in Heq.
    apply (String.app_inj "_") in Heq. by apply pretty_nat_inj in Heq. }
  destruct c as [c|], j as [|j], j' as [|j']; simpl; intros Heq;
    try done; try (apply Hinj in Heq; lia);
    exfalso; revert Heq; first [apply name_suffix_ne|
      intros Heq; symmetry in Heq; revert Heq; apply name_suffix_ne]; done.
Qed.

(** X18. Objects constructed without a name get the id of their phase,
    numbered from the second on: with no count for the phase [p] at the
    start, the first unnamed object of phase [p] is called [p], and the
    one with [j] unnamed objects of phase [p] before it is called
    [p_j]; with a count [c] at the start it is [p_(c+j+1)]. Objects
    constructed with a name, or of other phases, do not count. *)
Theorem default_names_numbered (reqs : list (option string * string))
  (counts : gmap string nat) (i : nat) (p : string) :
  reqs !! i = Some (None, p) ->
  let j := unnamed_before p i reqs in
  (counts !! p = None ->
   (construct_all reqs counts).1 !! i =
   Some (match j with 0 => p | S _ => p +:+ "_" +:+ pretty j end)) /\
  (forall c, counts !! p = Some c ->
   (construct_all reqs counts).1 !! i =
   Some (p +:+ "_" +:+ pretty (c + j + 1))).
Proof.
  intros Hi j. rewrite (construct_all_name reqs counts i p Hi). fold j.
  split.
  - intros ->. by destruct j.
  - intros c ->. destruct j as [|j']; cbn [count_after name_at].
    + by replace (c + 0 + 1) with (S c) by lia.
    + by replace (c + S j' + 1) with (S (c + S j')) by lia.
Qed.

(** The names that two calls of [__init__] without a name assign for
    the same phase are different strings. An object and its slice share
    one base object, so this does not make their names differ: see
    [slice_renames_origin]. *)
Lemma default_names_distinct (reqs : list (option string * string))
  (counts : gmap string nat) (i i' : nat) (p : string) :
  reqs !! i = Some (None, p) -> reqs !! i' = Some (None, p) -> i <> i' ->
  (construct_all reqs counts).1 !! i <> (construct_all reqs counts).1 !! i'.
Proof.
  intros Hi Hi' Hne.
  rewrite (construct_all_name reqs counts i p Hi).
  rewrite (construct_all_name reqs counts i' p Hi').
  intros [= Heq]. apply name_at_inj in Heq.
  destruct (decide (i < i')) as [Hlt|Hge].
  - pose proof (unnamed_before_lt p reqs i i' Hlt Hi). lia.
  - pose proof (unnamed_before_lt p reqs i' i ltac:(lia) Hi'). lia.
Qed.

(** X20. Across phases the default names are not unique: the second
    unnamed object of a phase [p] and the first unnamed object of a
    phase whose id is [p_1] get the same name. *)
Theorem default_names_collide (counts : gmap string nat) (p : string) :
  counts !! p = None -> counts !! (p +:+ "_1") = None ->
  (construct_all [(None, p); (None, p); (None, p +:+ "_1")] counts).1 =
  [p; p +:+ "_1"; p +:+ "_1"].
Proof.
  intros Hp Hp1. cbn [construct_all fst snd].
  assert (p +:+ "_1" <> p) as Hne
    by (intros Heq; by apply (name_suffix_ne p "_1")).
  unfold init_name. rewrite Hp. cbn [fst snd].
  rewrite lookup_insert_eq. cbn [fst snd].
  rewrite !lookup_insert_ne by done. rewrite Hp1. reflexivity.
Qed.

End DefaultNames.

(** ** base.pyx: the species a slice selects *)

Section SpeciesSlices.
Import SolutionBase.
#[local] Open Scope Z_scope.


Lemma py_range_backwards_empty (a b k : Z) :
  k < 0 -> a <= b -> py_range a b k = [].
Proof.
  intros Hk Hab. unfold py_range.
  assert ((0 <? k) = false) as -> by (by apply Z.ltb_ge; lia).
  assert ((a - b - k - 1) / - k <= 0) as Hn.
  { assert ((a - b - k - 1) / - k < 1); [|lia].
    apply Z.div_lt_upper_bound; lia. }
  by replace (Z.to_nat ((a - b - k - 1) / - k)) with 0%nat by lia.
Qed.


(** X22. A slice that stops at 0 selects the species from its start to
    the last one, as the slice without stop does, and not the empty
    selection. *)
Theorem slice_selection_stop_zero (start : option Z) (n_species : Z) :
  let a := match start with Some s => s | None => 0 end in
  slice_selection start (Some 0) None n_species =
  map (fun i => a + Z.of_nat i) (seq 0 (Z.to_nat (n_species - a))) /\
  slice_selection start None None n_species =
  slice_selection start (Some 0) None n_species.
Proof.
  intros a. split; [|done]. unfold slice_selection.
  assert (or_default start 0 = a) as ->.
  { subst a. destruct start as [s|]; [|done]. simpl.
    destruct (Z.eqb_spec s 0) as [->|]; done. }
  unfold py_range. simpl.
  replace ((n_species - a + 1 - 1) / 1) with (n_species - a)
    by (rewrite Z.div_1_r; lia).
  apply map_ext. intros i. lia.
Qed.

(** X23. A slice with a negative step whose start is not above its stop
    selects nothing: the reversed slice [[::-1]] of a phase is empty. *)
Theorem slice_selection_reversed (start stop : option Z) (k n_species : Z) :
  k < 0 ->
  or_default start 0 <= or_default stop n_species ->
  slice_selection start stop (Some k) n_species = [].
Proof.
  intros Hk Hab. unfold slice_selection.
  assert (or_default (Some k) 1 = k) as ->.
  { simpl. destruct (Z.eqb_spec k 0); [lia|done]. }
  by apply py_range_backwards_empty.
Qed.

End SpeciesSlices.

(** ** The mole fractions vcs_prob_update writes back *)

Section WriteBackMoleFractions.
Import Vcs VcsMore.
Context `{Externals}.

(** A turn of the loop over the species that ends normally has stored
    the mole fraction of the public phase. *)
Lemma update_species_mf (pubPhase vPhase : vcs_VolPhase)
  (mol w : list double) (k : nat) (st st' : list double * double) :
  update_species pubPhase vPhase mol w k st = Ok st' ->
  st'.1 = <[spGlobalIndexVCS pubPhase !!! k := moleFractions pubPhase !!! k]>
            st.1.
Proof.
  unfold update_species. case_bool_decide as Hphi.
  - destruct (vcs_doubleEqual (electricPotential pubPhase) _); simpl;
      [|done].
    destruct (vcs_doubleEqual _ (molefraction vPhase k)); simpl; [|done].
    by intros [= <-].
  - simpl.
    destruct (vcs_doubleEqual _ (molefraction vPhase k)); simpl; [|done].
    by intros [= <-].
Qed.

(** The loop over the species of a phase whose global indices are
    distinct and in range. *)
Lemma update_species_loop_mf (pubPhase vPhase : vcs_VolPhase)
  (mol w : list double) (st0 r : list double * double) :
  iterM (update_species pubPhase vPhase mol w)
    (seq 0 (nSpecies pubPhase)) st0 = Ok r ->
  (forall k, k < nSpecies pubPhase ->
             spGlobalIndexVCS pubPhase !!! k < length st0.1) ->
  (forall k k', k < nSpecies pubPhase -> k' < nSpecies pubPhase ->
     spGlobalIndexVCS pubPhase !!! k = spGlobalIndexVCS pubPhase !!! k' ->
     k = k') ->
  length r.1 = length st0.1 /\
  (forall k, k < nSpecies pubPhase ->
     r.1 !!! (spGlobalIndexVCS pubPhase !!! k) =
     moleFractions pubPhase !!! k) /\
  (forall j, (forall k, k < nSpecies pubPhase ->
                        spGlobalIndexVCS pubPhase !!! k <> j) ->
             r.1 !!! j = st0.1 !!! j).
Proof.
  intros Hrun Hrange Hinj.
  destruct (iterM_seq_inv
              (fun i (st : list double * double) =>
                 length st.1 = length st0.1 /\
                 (forall k, k < i ->
                    st.1 !!! (spGlobalIndexVCS pubPhase !!! k) =
                    moleFractions pubPhase !!! k) /\
                 (forall j, (forall k, k < i ->
                               spGlobalIndexVCS pubPhase !!! k <> j) ->
                            st.1 !!! j = st0.1 !!! j))
              (update_species pubPhase vPhase mol w)
              (nSpecies pubPhase) st0 r) as [Hinv _]; [| |done|done].
  - split; [done|]. split; [intros k Hk; lia|done].
  - intros i si si' Hi (Hlen & Hdone & Hframe) Hb.
    apply update_species_mf in Hb. rewrite Hb, length_insert.
    split; [done|]. split.
    + intros k Hk. destruct (decide (k = i)) as [->|Hne].
      * rewrite list_lookup_total_insert_eq; [done|].
        rewrite Hlen. by apply Hrange.
      * rewrite list_lookup_total_insert_ne; [apply Hdone; lia|].
        intros Heq. apply Hne. symmetry. apply Hinj; [lia..|done].
    + intros j Hj. rewrite list_lookup_total_insert_ne; [|apply Hj; lia].
      apply Hframe. intros k Hk. apply Hj. lia.
Qed.

(** A turn of the loop over the phases that ends normally. *)
Lemma update_phase_Ok (mol w : list double)
  (VolPhaseList : list vcs_VolPhase) (iph : nat)
  (st st' : list double * list vcs_VolPhase) :
  update_phase mol w VolPhaseList iph st = Ok st' ->
  let pubPhase := update_pubPhase (st.2 !!! iph) (VolPhaseList !!! iph) in
  exists sumMoles r,
    iterM (update_species pubPhase (VolPhaseList !!! iph) mol w)
      (seq 0 (nSpecies pubPhase)) (st.1, sumMoles) = Ok r /\
    st' = (r.1, <[iph := pubPhase]> st.2).
Proof.
  unfold update_phase. cbn zeta.
  destruct (iterM _ _ _) as [r|] eqn:Hloop; simpl; [|done].
  destruct (negb _); [done|]. intros [= <-]. by eauto.
Qed.

(** X24. When the species of the public phases have distinct global
    indices within [mf], a write-back that ends normally leaves in [mf],
    at the global index of every species of every phase, the mole
    fraction the public phase holds for it after the transfer from the
    private phase; the entries of [mf] that belong to no species are
    kept. *)
Theorem vcs_prob_update_mole_fractions (s : VCS_SOLVE) :
  let s1 := vcs_tmoles s in
  (forall iph, iph < m_numPhases s1 ->
     forall k, k < nSpecies (public_phase s1 iph) ->
       spGlobalIndexVCS (public_phase s1 iph) !!! k < length (mf s1)) ->
  (forall iph iph' k k',
     iph < m_numPhases s1 -> iph' < m_numPhases s1 ->
     k < nSpecies (public_phase s1 iph) ->
     k' < nSpecies (public_phase s1 iph') ->
     spGlobalIndexVCS (public_phase s1 iph) !!! k =
     spGlobalIndexVCS (public_phase s1 iph') !!! k' ->
     iph = iph' /\ k = k') ->
  forall rc s', vcs_prob_update s = Ok (rc, s') ->
    (forall iph k, iph < m_numPhases s1 ->
       k < nSpecies (public_phase s1 iph) ->
       mf s' !!! (spGlobalIndexVCS (public_phase s1 iph) !!! k) =
       moleFractions (public_phase s1 iph) !!! k) /\
    (forall j,
       (forall iph k, iph < m_numPhases s1 ->
          k < nSpecies (public_phase s1 iph) ->
          spGlobalIndexVCS (public_phase s1 iph) !!! k <> j) ->
       mf s' !!! j = mf s1 !!! j).
Proof.
  intros s1 Hrange Hinj rc s'. unfold vcs_prob_update. fold s1.
  fold (private_phases s1). fold (written_back_w s1).
  set (mol := m_molNumSpecies_old s1).
  set (st0 := (mf s1, VPhaseList s1)).
  destruct (iterM _ _ _) as [r|] eqn:Hloop; simpl; [|done].
  intros [= _ <-]. cbn [mf].
  destruct (iterM_seq_inv
              (fun i (st : list double * list vcs_VolPhase) =>
                 length st.1 = length (mf s1) /\
                 (forall j, i <= j -> st.2 !!! j = VPhaseList s1 !!! j) /\
                 (forall iph k, iph < i ->
                    k < nSpecies (public_phase s1 iph) ->
                    st.1 !!! (spGlobalIndexVCS (public_phase s1 iph) !!! k)
                    = moleFractions (public_phase s1 iph) !!! k) /\
                 (forall j,
                    (forall iph k, iph < i ->
                       k < nSpecies (public_phase s1 iph) ->
                       spGlobalIndexVCS (public_phase s1 iph) !!! k <> j) ->
                    st.1 !!! j = mf s1 !!! j))
              (update_phase mol (written_back_w s1) (private_phases s1))
              (m_numPhases s1) st0 r) as [(_ & _ & Hall & Hframe) _];
    [| |exact Hloop|by split].
  - split; [done|]. split; [done|]. split; [intros iph k Hi; lia|done].
  - intros i si si' Hi (Hlen & Hrest & Hdone & Hkeep) Hb.
    apply update_phase_Ok in Hb. cbn zeta in Hb.
    rewrite (Hrest i) in Hb by lia. fold (public_phase s1 i) in Hb.
    destruct Hb as (sumMoles & r' & Hrun & ->).
    destruct (update_species_loop_mf _ _ _ _ _ _ Hrun)
      as (Hl & Hnew & Hold).
    { intros k Hk. cbn [fst]. rewrite Hlen. by apply Hrange. }
    { intros k k' Hk Hk' Heq.
      by destruct (Hinj i i k k' Hi Hi Hk Hk' Heq). }
    cbn [fst snd] in *. split; [congruence|]. split; [|split].
    + intros j Hj. rewrite list_lookup_total_insert_ne by lia.
      apply Hrest. lia.
    + intros iph k Hiph Hk. destruct (decide (iph = i)) as [->|Hne].
      * by apply Hnew.
      * rewrite Hold; [apply Hdone; [lia|done]|].
        intros k' Hk' Heq.
        destruct (Hinj i iph k' k Hi ltac:(lia) Hk' Hk Heq). lia.
    + intros j Hj. rewrite Hold; [|intros k Hk; apply Hj; [lia|done]].
      apply Hkeep. intros iph k Hiph Hk. apply Hj; [lia|done].
Qed.

End WriteBackMoleFractions.

(** ** The goal abundances that are not specified *)

Section NotSpecified.
Import Vcs VcsMore.

Lemma phase_mapping_Throw_kind (numPhases nsp : nat) (PhaseID : list nat)
  (VPhaseList : list vcs_VolPhase) (phaseID0 local0 : list nat)
  (e : CanteraError) :
  phase_mapping numPhases nsp PhaseID VPhaseList phaseID0 local0 = Throw e ->
  e <> Element_Abundances_not_specified.
Proof.
  unfold phase_mapping. case_bool_decide.
  - destruct (iterM (phase_mapping_species numPhases PhaseID) _ _)
      as [st|e1] eqn:Hsp; simpl.
    + destruct (iterM (phase_mapping_check VPhaseList) _ _)
        as [chk|e2] eqn:Hchk; simpl; [done|].
      intros [= <-].
      destruct (iterM_seq_Throw (fun _ _ => True)
                  (phase_mapping_check VPhaseList) numPhases st.1.1 e2)
        as (i & si & _ & _ & Hb); try done.
      unfold phase_mapping_check in Hb. case_bool_decide; [|done].
      by injection Hb as <-.
    + intros [= <-].
      destruct (iterM_seq_Throw (fun _ _ => True)
                  (phase_mapping_species numPhases PhaseID) nsp
                  (replicate numPhases 0, phaseID0, local0) e1)
        as (i & si & _ & _ & Hb); try done.
      unfold phase_mapping_species in Hb. case_bool_decide; [|done].
      by injection Hb as <-.
  - case_bool_decide; [done|]. by intros [= <-].
Qed.

(** X25. The constructor throws "Element Abundances not specified"
    exactly when [gai] is empty and there is no estimate to take them
    from: [w] is empty, which sets [m_doEstimateEquil] to -1, or
    [m_doEstimateEquil] is not 0. It does so before any other check. *)
Theorem abundances_not_specified (s : VCS_SOLVE) :
  VCS_SOLVE_finish s = Throw Element_Abundances_not_specified <->
  gai s = [] /\ (w s = [] \/ m_doEstimateEquil s <> 0%Z).
Proof.
  unfold VCS_SOLVE_finish. split.
  - destruct (formulate_goal _ _ _ _ _ _ _ _ _) as [goal|e] eqn:Hgoal;
      simpl.
    + destruct (phase_mapping _ _ _ _ _ _) as [pm|e] eqn:Hpm; simpl.
      * destruct (charge_neutrality _ _ _) as [goal'|e] eqn:Hcn; simpl.
        -- destruct (copy_formula_matrix _ _ _ _) as [fm|e] eqn:Hfm; simpl;
             [done|].
           intros [= ->].
           by destruct (copy_formula_matrix_Throw _ _ _ _ _ Hfm)
             as (i & _ & Hi & _).
        -- intros [= ->].
           by destruct (charge_neutrality_Throw _ _ _ _ Hcn)
             as (i & _ & _ & Hi).
      * intros [= ->]. by apply phase_mapping_Throw_kind in Hpm.
    + intros _. unfold formulate_goal, copy_estimate in Hgoal.
      case_bool_decide as Hgai; [done|].
      split; [destruct (gai s); [done|simpl in Hgai; lia]|].
      case_bool_decide as Hw; simpl in Hgoal.
      * right. destruct (Z.eqb_spec (m_doEstimateEquil s) 0); [done|done].
      * left. destruct (w s); [done|simpl in Hw; lia].
  - intros [Hgai Hest]. unfold formulate_goal, copy_estimate.
    rewrite Hgai. simpl.
    destruct Hest as [->|Hne]; simpl; [done|].
    case_bool_decide; simpl; [|done].
    destruct (Z.eqb_spec (m_doEstimateEquil s) 0); [done|done].
Qed.

End NotSpecified.

(** ** State.h: what setDensity leaves *)

Section Density.
Import Vcs StateH.

(** A double that compares equal to some double compares equal to
    itself: it is a number. *)
Lemma deq_refl_of_eq (a b : double) : deq a b = true -> deq a a = true.
Proof.
  unfold deq. rewrite !FloatAxioms.eqb_spec.
  destruct (Prim2SF a) as [sg|sg| |sg m e].
  - intros _. by destruct sg.
  - intros _. by destruct sg.
  - by destruct (Prim2SF b).
  - intros _. unfold SpecFloat.SFeqb, SpecFloat.SFcompare.
    rewrite Z.compare_refl, Pos.compare_cont_refl. by destruct sg.
Qed.

(** X26. After [setDensity(rho)] the density compares equal to [rho]
    unless [rho] is not a number, which is stored as it is. The density
    is [rho] itself, or the density there was when that compares equal
    to [rho], so that a zero keeps the sign it had. Temperature and mean
    molecular weight are kept. *)
Theorem setDensity_density (rho : double) (st : State) :
  let st' := setDensity rho st in
  (deq rho rho = true -> deq rho (density st') = true) /\
  (deq rho rho = false -> density st' = rho) /\
  (density st' = rho \/
   density st' = density st /\ deq rho (density st) = true) /\
  temperature st' = temperature st /\
  meanMolecularWeight st' = meanMolecularWeight st.
Proof.
  cbn zeta. unfold setDensity, dne, density.
  destruct (PrimFloat.eqb rho (m_dens st)) eqn:E; simpl.
  - split; [done|]. split; [|split; [by right|done]].
    intros Hnan. apply deq_refl_of_eq in E. congruence.
  - split; [done|]. split; [done|]. split; [by left|done].
Qed.

End Density.

(** ** The theorems on reactions, names and slices at work *)

Section MoreInstancesImport.
Import ImportKinetics ImportKineticsMore SolutionBase Vcs Examples
  ExamplesMore.

(** The directive "surf*x" lets the reaction "surf_1" through. *)
Lemma include_equal_bounds_witness :
  include_test (include_bounds (include "surf*x" "surf*x")) (rxn "surf_1")
  = true.
Proof.
  destruct (include_equal_bounds (include "surf*x" "surf*x")
              (rxn "surf_1")) as [Hwild _]; [reflexivity|].
  apply (Hwild 4); reflexivity.
Defined.

(** The directive from "5" to "1" lets nothing through. *)
Lemma include_empty_range_witness :
  include_test (include_bounds (include "5" "1")) (rxn "2") = false.
Proof. apply include_empty_range. reflexivity. Defined.

(** Without a bulk phase at hand the import of the surface mechanism
    throws, and the message lists the phases twice. *)
Lemma importKinetics_phase_not_found_witness :
  exists adds,
    @importKinetics example_lookup example_params (ctml []) None
      surface_node [gas_object; surface_object] (Some []) =
    (Some (map addPhase adds),
     ImportKineticsMore.CanteraError "importKinetics"
       "phase bulk not found. Supplied phases are: gas surface gas surface").
Proof.
  destruct (@importKinetics_phase_not_found example_lookup example_params
              (ctml []) None surface_node [gas_object; surface_object] []
              ["gas"] ["surface"] "bulk") as (adds & Hrun).
  - reflexivity.
  - intros id Hid. apply list_elem_of_singleton in Hid as ->.
    apply list_elem_of_here.
  - intros Hin. apply elem_of_cons in Hin as [Heq|Hin]; [discriminate|].
    apply list_elem_of_singleton in Hin. discriminate.
  - exists adds. exact Hrun.
Defined.

Lemma example_all_supplied (id : string) :
  id ∈ @referenced_phases example_params surface_node ->
  id ∈ map ph_id [gas_object; gas_again; bulk_object; surface_object].
Proof.
  intros Hin. apply elem_of_cons in Hin as [->|Hin];
    [apply list_elem_of_here|].
  apply elem_of_cons in Hin as [->|Hin];
    [do 2 apply list_elem_of_further; apply list_elem_of_here|].
  apply list_elem_of_singleton in Hin as ->.
  do 3 apply list_elem_of_further. apply list_elem_of_here.
Qed.

(** With all phases at hand the reactions are installed. *)
Lemma importKinetics_installs_witness :
  exists k',
    @importKinetics example_lookup example_params (ctml []) None
      surface_node [gas_object; gas_again; bulk_object; surface_object]
      (Some []) = (Some k', Returned true).
Proof.
  destruct (@importKinetics_installs example_lookup example_params
              (ctml []) None surface_node
              [gas_object; gas_again; bulk_object; surface_object] []
              example_all_supplied) as (adds & Hrun & _).
  eexists. exact Hrun.
Defined.

Lemma example_registers_by_id : @registers_by_id example_params.
Proof.
  intros k phase_id. unfold phaseIndex, example_params.
  rewrite fmap_None, list_find_None, Forall_forall.
  rewrite list_elem_of_fmap. split.
  - intros Hall (t & -> & Hin). by apply (Hall t).
  - intros Hno t Hin Heq. apply Hno. by exists t.
Qed.

(** The gas is registered once though two objects carry its id. *)
Lemma importKinetics_registers_once_witness :
  exists k',
    @importKinetics example_lookup example_params (ctml []) None
      surface_node [gas_object; gas_again; bulk_object; surface_object]
      (Some []) = (Some k', Returned true) /\
    NoDup (map ph_id (registered k')).
Proof.
  destruct (@importKinetics example_lookup example_params (ctml []) None
              surface_node
              [gas_object; gas_again; bulk_object; surface_object]
              (Some [])) as [[k'|] [[|]|proc msg]] eqn:Hrun;
    try (vm_compute in Hrun; discriminate).
  exists k'. split; [reflexivity|].
  destruct (@importKinetics_registers_once example_lookup example_params
              (ctml []) None surface_node
              [gas_object; gas_again; bulk_object; surface_object]
              [] k' true example_registers_by_id (NoDup_nil_2 (A:=string)) Hrun)
    as [Hnd _].
  exact Hnd.
Defined.

(** The third request, the second without a name, is called "gas_1". *)
Lemma default_names_numbered_witness :
  (construct_all gas_requests ∅).1 !! 2 = Some "gas_1".
Proof.
  destruct (default_names_numbered gas_requests ∅ 2 "gas") as [Hnone _];
    [reflexivity|].
  rewrite Hnone by apply lookup_empty. reflexivity.
Defined.

Lemma default_names_distinct_witness :
  (construct_all gas_requests ∅).1 !! 0 <>
  (construct_all gas_requests ∅).1 !! 2.
Proof.
  apply (default_names_distinct gas_requests ∅ 0 2 "gas");
    [reflexivity|reflexivity|lia].
Defined.

Lemma default_names_collide_witness :
  (construct_all [(None, "gas"); (None, "gas"); (None, "gas_1")] ∅).1 =
  ["gas"; "gas_1"; "gas_1"].
Proof. apply (default_names_collide ∅ "gas"); apply lookup_empty. Defined.


Lemma slice_selection_reversed_witness :
  slice_selection None None (Some (-1)%Z) 5 = [].
Proof.
  apply slice_selection_reversed; [lia|]. vm_compute. discriminate.
Defined.

(** The mole fraction of the second species of the gas is written
    back. *)
Lemma vcs_prob_update_mole_fractions_witness :
  exists rc s',
    @vcs_prob_update example_externals solver = Ok (rc, s') /\
    mf s' !!! 1 = 0.25%float.
Proof.
  assert (forall iph, iph < m_numPhases solver ->
            forall k, k < nSpecies (@public_phase example_externals solver iph) ->
              spGlobalIndexVCS (@public_phase example_externals solver iph)
                !!! k < length (mf solver)) as Hrange.
  { intros [|[|iph]] Hiph; [| |simpl in Hiph; lia].
    - intros [|[|k]] Hk; [vm_compute; lia|vm_compute; lia|].
      vm_compute in Hk. lia.
    - intros [|k] Hk; [vm_compute; lia|]. vm_compute in Hk. lia. }
  assert (forall iph iph' k k',
            iph < m_numPhases solver -> iph' < m_numPhases solver ->
            k < nSpecies (@public_phase example_externals solver iph) ->
            k' < nSpecies (@public_phase example_externals solver iph') ->
            spGlobalIndexVCS (@public_phase example_externals solver iph)
              !!! k =
            spGlobalIndexVCS (@public_phase example_externals solver iph')
              !!! k' ->
            iph = iph' /\ k = k') as Hinj.
  { intros [|[|iph]] [|[|iph']] [|[|k]] [|[|k']] Hi Hi' Hk Hk' Heq;
      vm_compute in Hi, Hi', Hk, Hk', Heq; try lia; done. }
  destruct (@vcs_prob_update example_externals solver) as [[rc s']|e]
    eqn:Hrun; [|vm_compute in Hrun; discriminate].
  exists rc, s'. split; [reflexivity|].
  destruct (@vcs_prob_update_mole_fractions example_externals solver
              Hrange Hinj rc s' Hrun) as [Hval _].
  apply (Hval 0 1); vm_compute; lia.
Defined.

End MoreInstancesImport.

(** ** vcs_prob_update: the mole numbers a call leaves, however it ends *)

Section WriteBackRun.
Import Vcs VcsMore VcsRun.
Context `{Externals}.

Lemma iterS_app {S : Type} (body : nat -> S -> S * option CanteraError)
  (l1 l2 : list nat) (s : S) :
  iterS body (l1 ++ l2) s =
  match (iterS body l1 s).2 with
  | Some e => iterS body l1 s
  | None => iterS body l2 (iterS body l1 s).1
  end.
Proof.
  revert s. induction l1 as [|i l1 IH]; intros s; simpl; [done|].
  destruct (body i s).2 eqn:E; [by rewrite E|]. apply IH.
Qed.

(** The loop with the state at the throw ends as the loop without it
    does. *)
Lemma iterS_iterM {S : Type} (body : nat -> S -> result S)
  (body_run : nat -> S -> S * option CanteraError) (l : list nat) (s : S) :
  (forall i si,
     body i si = match (body_run i si).2 with
                 | None => Ok (body_run i si).1
                 | Some e => Throw e
                 end) ->
  iterM body l s = match (iterS body_run l s).2 with
                   | None => Ok (iterS body_run l s).1
                   | Some e => Throw e
                   end.
Proof.
  intros Hbody. revert s. induction l as [|i l IH]; intros s; simpl; [done|].
  rewrite Hbody. destruct (body_run i s).2 eqn:E; simpl.
  - by rewrite E.
  - apply IH.
Qed.

(** A loop keeps an invariant that every turn keeps, thrown or not;
    when it ends without a throw, no turn has thrown. *)
Lemma iterS_seq_inv {S : Type} (P : nat -> S -> Prop)
  (body : nat -> S -> S * option CanteraError) (n : nat) (s : S) :
  P 0 s ->
  (forall i si, i < n -> P i si -> P (Datatypes.S i) (body i si).1) ->
  (exists m, m <= n /\ P m (iterS body (seq 0 n) s).1 /\
             ((iterS body (seq 0 n) s).2 = None -> m = n)) /\
  ((iterS body (seq 0 n) s).2 = None ->
   forall i, i < n -> exists si, P i si /\ (body i si).2 = None).
Proof.
  intros H0 Hstep. induction n as [|n IH].
  - simpl. split; [exists 0; by split|]. intros _ i Hi. lia.
  - destruct IH as [(m & Hm & HP & Hend) Hall];
      [intros i si Hi; apply Hstep; lia|].
    rewrite seq_S, iterS_app.
    destruct (iterS body (seq 0 n) s).2 as [e|] eqn:E.
    + rewrite E. split; [exists m; split; [lia|by split]|done].
    + specialize (Hend eq_refl). subst m. simpl.
      destruct (body n (iterS body (seq 0 n) s).1).2 as [e|] eqn:Eb;
        cbn [fst snd]; rewrite ?Eb.
      * split; [|done].
        exists (Datatypes.S n). split; [lia|]. split; [|done].
        apply Hstep; [lia|done].
      * split.
        -- exists (Datatypes.S n). split; [lia|]. split; [|done].
           apply Hstep; [lia|done].
        -- intros _ i Hi. destruct (decide (i = n)) as [->|Hne].
           ++ eexists. split; [exact HP|exact Eb].
           ++ apply Hall; [done|lia].
Qed.

Lemma update_species_run_result (pubPhase vPhase : vcs_VolPhase)
  (mol w : list double) (k : nat) (st : list double * double) :
  update_species pubPhase vPhase mol w k st =
  match (update_species_run pubPhase vPhase mol w k st).2 with
  | None => Ok (update_species_run pubPhase vPhase mol w k st).1
  | Some e => Throw e
  end.
Proof.
  unfold update_species, update_species_run.
  case_bool_decide as Hphi; simpl.
  - destruct (vcs_doubleEqual (electricPotential pubPhase) _); simpl;
      [|done].
    by destruct (vcs_doubleEqual _ (molefraction vPhase k)).
  - by destruct (vcs_doubleEqual _ (molefraction vPhase k)).
Qed.

Lemma update_phase_run_result (mol w : list double)
  (VolPhaseList : list vcs_VolPhase) (iph : nat)
  (st : list double * list vcs_VolPhase) :
  update_phase mol w VolPhaseList iph st =
  match (update_phase_run mol w VolPhaseList iph st).2 with
  | None => Ok (update_phase_run mol w VolPhaseList iph st).1
  | Some e => Throw e
  end.
Proof.
  unfold update_phase, update_phase_run. cbn zeta.
  rewrite (iterS_iterM _ _ _ _
             (update_species_run_result _ (VolPhaseList !!! iph) mol w)).
  destruct (iterS _ _ _).2 as [e|]; simpl; [done|].
  by destruct (vcs_doubleEqual _ (totalMoles (VolPhaseList !!! iph))).
Qed.

(** The call with the state at the throw returns what
    [vcs_prob_update] returns, and throws what it throws. *)
Lemma vcs_prob_update_run_result (s : VCS_SOLVE) :
  vcs_prob_update s =
  match (vcs_prob_update_run s).2 with
  | Ok rc => Ok (rc, (vcs_prob_update_run s).1)
  | Throw e => Throw e
  end.
Proof.
  unfold vcs_prob_update, vcs_prob_update_run. cbn zeta. cbn [fst snd].
  rewrite (iterS_iterM _ _ _ _
             (update_phase_run_result (m_molNumSpecies_old (vcs_tmoles s))
                _ _)).
  by destruct (iterS _ _ _).2.
Qed.

(** The public phases when the call ends: a phase the loop has visited
    is the public phase after the transfer, the others are as they
    were; a turn that does not throw has passed the check of the
    voltage. *)
Lemma update_phases_run_spec (mol w : list double)
  (VolPhaseList : list vcs_VolPhase) (n : nat)
  (st0 : list double * list vcs_VolPhase) :
  let r := iterS (update_phase_run mol w VolPhaseList) (seq 0 n) st0 in
  (forall j, j < length st0.2 ->
     r.1.2 !!! j = st0.2 !!! j \/
     r.1.2 !!! j = update_pubPhase (st0.2 !!! j) (VolPhaseList !!! j)) /\
  (r.2 = None ->
   forall iph, iph < n ->
     let pub := update_pubPhase (st0.2 !!! iph) (VolPhaseList !!! iph) in
     (iph < length st0.2 -> r.1.2 !!! iph = pub) /\
     forall k, k < nSpecies pub -> phiVarIndex pub = Some k ->
       vcs_doubleEqual (electricPotential pub)
         (mol !!! (spGlobalIndexVCS (VolPhaseList !!! iph) !!! k)) = true).
Proof.
  cbn zeta.
  destruct (iterS_seq_inv
              (fun i (st : list double * list vcs_VolPhase) =>
                 length st.2 = length st0.2 /\
                 (forall j, i <= j -> st.2 !!! j = st0.2 !!! j) /\
                 (forall j, j < i -> j < length st0.2 ->
                    st.2 !!! j =
                    update_pubPhase (st0.2 !!! j) (VolPhaseList !!! j)))
              (update_phase_run mol w VolPhaseList) n st0)
    as [(m & Hm & (Hlen & Hrest & Hdone) & Hend) Hall].
  - split; [done|]. split; [done|]. intros j Hj. lia.
  - intros i si Hi (Hlen & Hrest & Hdone).
    assert ((update_phase_run mol w VolPhaseList i si).1.2 =
            <[i := update_pubPhase (si.2 !!! i) (VolPhaseList !!! i)]> si.2)
      as ->.
    { unfold update_phase_run. cbn zeta.
      destruct (iterS _ _ _).2; [done|]. by destruct (negb _). }
    rewrite length_insert. split; [done|]. split.
    + intros j Hj. rewrite list_lookup_total_insert_ne by lia.
      apply Hrest. lia.
    + intros j Hj Hjl. destruct (decide (j = i)) as [->|Hne].
      * rewrite list_lookup_total_insert_eq by (by rewrite Hlen).
        by rewrite (Hrest i) by lia.
      * rewrite list_lookup_total_insert_ne by done.
        apply Hdone; [lia|done].
  - split.
    + intros j Hj. destruct (decide (j < m)) as [Hlt|Hge].
      * right. by apply Hdone.
      * left. apply Hrest. lia.
    + intros Hnone iph Hiph. specialize (Hend Hnone). subst m. split.
      * intros Hl. by apply Hdone.
      * intros k Hk Hphi.
        destruct (Hall Hnone iph Hiph) as (si & (_ & Hrest' & _) & Hb).
        unfold update_phase_run in Hb. cbn zeta in Hb.
        rewrite (Hrest' iph) in Hb by lia.
        set (pub := update_pubPhase (st0.2 !!! iph) (VolPhaseList !!! iph))
          in *.
        destruct (iterS_seq_inv (fun _ _ => True)
                    (update_species_run pub (VolPhaseList !!! iph) mol w)
                    (nSpecies pub)
                    (si.1,
                     totalMolesInert
                       (transfer_totals (st0.2 !!! iph)
                          (VolPhaseList !!! iph))))
          as [_ Hsp]; [done|done|].
        destruct (iterS (update_species_run pub (VolPhaseList !!! iph) mol w)
                    _ _).2 as [e|] eqn:Hloop; [done|].
        destruct (Hsp eq_refl k Hk) as (sk & _ & Hk1).
        unfold update_species_run in Hk1. cbn zeta in Hk1.
        rewrite bool_decide_true in Hk1 by done. simpl in Hk1.
        destruct (vcs_doubleEqual (electricPotential pub) _); [done|].
        simpl in Hk1. done.
Qed.

(** C10. However a call of [vcs_prob_update] ends, by a return or by
    the throw of a cross-check, it leaves in the public [w[i]] of a
    species whose unknown is not the interfacial voltage (a mole number)
    the mole number the solver holds for it, at the index [k1] that
    [m_speciesMapIndex] sends to [i], and 0.0 for a species whose unknown
    is the interfacial voltage. The voltage goes through the phase: when
    the call returns, every public phase is the one that received the
    electric potential of the private phase, and that potential has been
    checked against the solver's entry of the species that carries the
    voltage. *)
Theorem vcs_prob_update_mole_numbers (s : VCS_SOLVE) (i : nat) :
  let s1 := vcs_tmoles s in
  let r := vcs_prob_update_run s in
  Permutation (m_speciesMapIndex s1) (seq 0 (m_nsp s1)) ->
  i < m_nsp s1 -> i < length (w s1) ->
  (SpeciesUnknownType s1 !!! i <> VCS_SPECIES_TYPE_INTERFACIALVOLTAGE ->
   exists k1, k1 < m_nsp s1 /\ m_speciesMapIndex s1 !!! k1 = i /\
              w r.1 !!! i = m_molNumSpecies_old s1 !!! k1) /\
  (SpeciesUnknownType s1 !!! i = VCS_SPECIES_TYPE_INTERFACIALVOLTAGE ->
   w r.1 !!! i = 0%float) /\
  (r.2 = Ok VCS_SUCCESS ->
   vcs_prob_update s = Ok (VCS_SUCCESS, r.1) /\
   forall iph, iph < m_numPhases s1 ->
     (iph < length (VPhaseList s1) ->
      VPhaseList r.1 !!! iph = public_phase s1 iph) /\
     (exists pub,
        public_phase s1 iph =
        setMoleFractionsState (totalMoles (private_phases s1 !!! iph))
          (moleFractions (private_phases s1 !!! iph)) VCS_STATECALC_TMP pub /\
        electricPotential pub =
        electricPotential (private_phases s1 !!! iph)) /\
     forall k, k < nSpecies (public_phase s1 iph) ->
       phiVarIndex (public_phase s1 iph) = Some k ->
       vcs_doubleEqual (electricPotential (public_phase s1 iph))
         (m_molNumSpecies_old s1
            !!! (spGlobalIndexVCS (private_phases s1 !!! iph) !!! k))
       = true) /\
  (forall e, r.2 = Throw e -> vcs_prob_update s = Throw e).
Proof.
  intros s1 r Hperm Hi Hlen.
  destruct (permutation_index_exists _ _ _ Hperm Hi) as (k1 & Hk1 & Hmap).
  pose proof (written_back_w_spec s1 i k1 Hperm Hi Hlen Hk1 Hmap) as Hw.
  unfold written_back in Hw.
  assert (w r.1 = written_back_w s1) as Hwr by reflexivity.
  pose proof (vcs_prob_update_run_result s) as Hres. fold r in Hres.
  split; [|split; [|split]].
  - intros Hty. exists k1. rewrite Hwr, Hw.
    by rewrite bool_decide_true by done.
  - intros Hty. rewrite Hwr, Hw, Hty.
    rewrite bool_decide_false; [done|]. by intros Hn.
  - intros Hok. rewrite Hok in Hres. split; [exact Hres|].
    intros iph Hiph.
    destruct (update_phases_run_spec (m_molNumSpecies_old s1)
                (written_back_w s1) (private_phases s1) (m_numPhases s1)
                (mf s1, VPhaseList s1)) as [_ Hnone].
    assert ((iterS (update_phase_run (m_molNumSpecies_old s1)
                      (written_back_w s1) (private_phases s1))
               (seq 0 (m_numPhases s1)) (mf s1, VPhaseList s1)).2 = None)
      as Hend.
    { subst r. unfold vcs_prob_update_run in Hok. cbn [snd] in Hok.
      fold s1 in Hok. fold (private_phases s1) in Hok.
      fold (written_back_w s1) in Hok.
      by destruct (iterS _ _ _).2. }
    destruct (Hnone Hend iph Hiph) as [Hpub Hvolt].
    split; [exact Hpub|]. split; [|exact Hvolt].
    eexists. split; [reflexivity|]. reflexivity.
  - intros e He. by rewrite He in Hres.
Qed.

End WriteBackRun.

(** ** The goal abundances of the constructor *)

Section ConstructorGoal.
Import Vcs VcsGoal.






End ConstructorGoal.

(** ** The goal abundances, the write-back and a slice on the example data *)

Section FurtherInstances.
Import Vcs VcsGoal VcsRun Examples ExamplesMore.


(** On the example the call returns: the voltage species gets 0.0, the
    first species its mole number, and the metal keeps the potential
    0.25. With a comparison that always fails the call throws, and the
    mole numbers are written all the same. *)
Lemma vcs_prob_update_mole_numbers_witness :
  (@vcs_prob_update_run example_externals solver).2 = Ok VCS_SUCCESS /\
  w (@vcs_prob_update_run example_externals solver).1 !!! 2 = 0%float /\
  (exists k1, k1 < 3 /\ m_speciesMapIndex solver !!! k1 = 0 /\
     w (@vcs_prob_update_run example_externals solver).1 !!! 0 =
     m_molNumSpecies_old solver !!! k1) /\
  electricPotential
    (VPhaseList (@vcs_prob_update_run example_externals solver).1 !!! 1)
  = 0.25%float /\
  (exists e, (@vcs_prob_update_run strict_externals solver).2 = Throw e) /\
  w (@vcs_prob_update_run strict_externals solver).1 !!! 2 = 0%float.
Proof.
  assert (Permutation (m_speciesMapIndex solver) (seq 0 (m_nsp solver)))
    as Hperm by reflexivity.
  assert ((@vcs_prob_update_run example_externals solver).2
          = Ok VCS_SUCCESS) as Hok by (by vm_compute).
  split; [exact Hok|]. split; [|split; [|split; [|split]]].
  - apply (@vcs_prob_update_mole_numbers example_externals solver 2 Hperm);
      [vm_compute; lia|vm_compute; lia|reflexivity].
  - apply (@vcs_prob_update_mole_numbers example_externals solver 0 Hperm);
      [vm_compute; lia|vm_compute; lia|discriminate].
  - destruct (@vcs_prob_update_mole_numbers example_externals solver 0
                Hperm) as (_ & _ & Hret & _);
      [vm_compute; lia|vm_compute; lia|].
    destruct (Hret Hok) as [_ Hph].
    destruct (Hph 1) as (Hpub & _); [vm_compute; lia|].
    rewrite Hpub by (vm_compute; lia). by vm_compute.
  - eexists. by vm_compute.
  - apply (@vcs_prob_update_mole_numbers strict_externals solver 2 Hperm);
      [vm_compute; lia|vm_compute; lia|reflexivity].
Defined.


(** ** base.pyx: the name of an object and of its slice *)

Section SharedBase.
Import SolutionBase SolutionObjects.

Lemma init_name_default (p : string) (counts : gmap string nat) :
  (init_name None p counts).1 = name_at p (counts !! p).
Proof. unfold init_name, name_at. by destruct (counts !! p). Qed.

(** X19. An object and the slice made of it share one base object, and
    [__getitem__] runs [__init__] on the copy without a name. So after
    a slice the object and its slice have one and the same name, the
    next default name of their phase, and an object that was itself
    constructed without a name has lost the name it had. *)
Theorem slice_renames_origin (o : Solution) (h : Heap) :
  let r := getitem o h in
  base r.1 = base o /\
  solution_name r.1 r.2 = solution_name o r.2 /\
  solution_name o r.2 =
  Some (name_at (thermo_id o) (counts h !! thermo_id o)) /\
  (forall h0, h = init None o h0 ->
              solution_name o r.2 <> solution_name o h).
Proof.
  cbn zeta. unfold getitem, solution_name. cbn [fst snd base].
  assert (forall h1, names (init None o h1) !! base o =
                     Some (name_at (thermo_id o)
                             (counts h1 !! thermo_id o))) as Hname.
  { intros h1. unfold init. cbn [names].
    by rewrite lookup_insert_eq, init_name_default. }
  assert (init None {| base := base o; thermo_id := thermo_id o |} h
          = init None o h) as -> by reflexivity.
  split; [done|]. split; [done|]. split; [apply Hname|].
  intros h0 ->.
  assert (counts (init None o h0) !! thermo_id o =
          count_after (counts h0 !! thermo_id o) 1) as Hc.
  { unfold init. cbn [counts].
    rewrite (init_name_count (thermo_id o) (None, thermo_id o)).
    by rewrite bool_decide_true. }
  rewrite !Hname, Hc. intros Heq. injection Heq as Heq.
  pose proof (name_at_inj (thermo_id o) (counts h0 !! thermo_id o) 1 0 Heq).
  done.
Qed.

End SharedBase.

(** A gas constructed without a name is called "gas"; after a slice
    both the gas and its slice are called "gas_1". *)
Lemma slice_renames_origin_witness :
  SolutionObjects.solution_name gas_solution
    (SolutionObjects.init None gas_solution fresh_heap) = Some "gas" /\
  SolutionObjects.solution_name gas_solution
    (SolutionObjects.getitem gas_solution
       (SolutionObjects.init None gas_solution fresh_heap)).2
  = Some "gas_1" /\
  SolutionObjects.solution_name
    (SolutionObjects.getitem gas_solution
       (SolutionObjects.init None gas_solution fresh_heap)).1
    (SolutionObjects.getitem gas_solution
       (SolutionObjects.init None gas_solution fresh_heap)).2
  = Some "gas_1".
Proof.
  destruct (slice_renames_origin gas_solution
              (SolutionObjects.init None gas_solution fresh_heap))
    as (_ & Hsame & Hname & _).
  split; [by vm_compute|]. rewrite Hsame, Hname. by vm_compute.
Defined.

End FurtherInstances.
